(** * Badge models: claim codes, awards and category capstones

    A shallow embedding of [models/badge.js] and [models/badge-instance.js]
    (both live in [src/models/badge-instance.js]) and of the phrase
    generator's contract.  Documents are records, embedded arrays are
    lists, JavaScript objects used as dictionaries are [gmap]s, and the
    document store is an explicit state that every asynchronous operation
    threads through.  Numbers are integers ([Z]); strings are sequences
    of code units below 256. *)

From Stdlib Require Import ZArith Ascii String List Bool Lia.
From stdpp Require Import gmap strings list.

Local Open Scope string_scope.
Local Open Scope Z_scope.

(** ** JavaScript values and strings *)

Inductive JsError : Type :=
  | TypeError
  | Error (message : string).

(** An error handed to a callback by the store. *)
Record StoreError : Type := mkStoreError {
  errName : string;
  errCode : option Z
}.

(** How a call ends: it returns, or calls its callback without an error,
    with [a]; an exception is thrown and nothing catches it; or, for a
    call with a callback, the callback is called with the error [err]
    alone, and [a] records what the call leaves behind at that moment. *)
Inductive completion (A : Type) : Type :=
  | Normal (a : A)
  | Throw (e : JsError)
  | Errback (err : StoreError) (a : A).
Arguments Normal {A} a.
Arguments Throw {A} e.
Arguments Errback {A} err a.

(** [!!v] for a field that holds a string, [null] or [undefined]:
    the empty string is falsy like the two absent values. *)
Definition truthy (v : option string) : bool :=
  match v with
  | Some s => negb (String.eqb s "")
  | None => false
  end.

(** [v !== email] for such a field against a string. *)
Definition strictNe (v : option string) (email : string) : bool :=
  match v with
  | Some s => negb (String.eqb s email)
  | None => true
  end.

(** White space of [String.prototype.trim] among the code units below 256:
    TAB, LF, VT, FF, CR, SPACE and NBSP. *)
Definition isWhiteSpace (a : ascii) : bool :=
  let n := nat_of_ascii a in
  (Nat.leb 9 n && Nat.leb n 13) || Nat.eqb n 32 || Nat.eqb n 160.

Fixpoint trimStart (s : string) : string :=
  match s with
  | EmptyString => EmptyString
  | String a r => if isWhiteSpace a then trimStart r else s
  end.

Fixpoint trimEnd (s : string) : string :=
  match s with
  | EmptyString => EmptyString
  | String a r =>
      match trimEnd r with
      | EmptyString => if isWhiteSpace a then EmptyString else String a EmptyString
      | r' => String a r'
      end
  end.

Definition trim (s : string) : string := trimEnd (trimStart s).

Fixpoint mapString (f : ascii -> ascii) (s : string) : string :=
  match s with
  | EmptyString => EmptyString
  | String a r => String (f a) (mapString f r)
  end.

(** [s.replace(/ /g, '-')] *)
Definition replaceSpaces (s : string) : string :=
  mapString (fun a => if Ascii.eqb a " "%char then "-"%char else a) s.

(** [toLowerCase] on one code unit: A-Z, and the Latin-1 capitals
    192-222 without the multiplication sign 215. *)
Definition lowerUnit (a : ascii) : ascii :=
  let n := nat_of_ascii a in
  if (Nat.leb 65 n && Nat.leb n 90)
     || (Nat.leb 192 n && Nat.leb n 222 && negb (Nat.eqb n 215))
  then ascii_of_nat (n + 32) else a.

Definition toLowerCase (s : string) : string := mapString lowerUnit s.

(** ** Schemas *)

Record Behavior : Type := mkBehavior {
  behaviorName : string;   (* BehaviorSchema.shortname *)
  count : Z
}.

Record ClaimCode : Type := mkClaimCode {
  code : string;
  claimedBy : option string;
  reservedFor : option string;
  multi : bool
}.

(** The fields of [BadgeSchema] that the methods below read or write. *)
Record Badge : Type := mkBadge {
  _id : string;
  shortname : string;
  categoryAward : option string;
  categoryRequirement : Z;
  categoryWeight : Z;
  categories : list string;
  behaviors : list Behavior;
  claimCodes : list ClaimCode
}.

Definition setClaimCodes (self : Badge) (cs : list ClaimCode) : Badge :=
  {| _id := _id self; shortname := shortname self;
     categoryAward := categoryAward self;
     categoryRequirement := categoryRequirement self;
     categoryWeight := categoryWeight self;
     categories := categories self;
     behaviors := behaviors self;
     claimCodes := cs |}.

(** The setter of a [String] path declared with [trim: true]: a string
    is stored trimmed, [null] and [undefined] as they are. *)
Definition trimSetter (v : option string) : option string :=
  option_map trim v.

(** [claim.claimedBy = v] on a claim of the badge: the path has
    [trim: true]. *)
Definition setClaimedBy (claim : ClaimCode) (v : option string) : ClaimCode :=
  {| code := code claim; claimedBy := trimSetter v;
     reservedFor := reservedFor claim; multi := multi claim |}.

(** ** Claim codes held by one badge *)

(** [code.trim().replace(/ /g, '-').toLowerCase()] *)
Definition normalizeCode (c : string) : string :=
  toLowerCase (replaceSpaces (trim c)).

(** The loop [while (idx--) if (codes[idx].code === normalizedCode) ...]:
    [idx] is the counter before the test, the body sees [idx - 1]. *)
Fixpoint scanClaimCodes (codes : list ClaimCode) (normalizedCode : string)
    (idx : nat) : option (nat * ClaimCode) :=
  match idx with
  | O => None
  | S idx' =>
      match codes !! idx' with
      | Some claim =>
          if String.eqb (code claim) normalizedCode then Some (idx', claim)
          else scanClaimCodes codes normalizedCode idx'
      | None => None
      end
  end.

(** The claim is returned by reference: the position stands for the
    reference, the record for what it points to. *)
Definition getClaimCode (self : Badge) (c : string) : option (nat * ClaimCode) :=
  scanClaimCodes (claimCodes self) (normalizeCode c) (length (claimCodes self)).

Definition hasClaimCode (self : Badge) (c : string) : bool :=
  match getClaimCode self c with Some _ => true | None => false end.

(** [null], [false] or [true] is [None], [Some false] or [Some true]. *)
Definition claimCodeIsClaimed (self : Badge) (c : string) : option bool :=
  match getClaimCode self c with
  | None => None
  | Some (_, claim) => Some (truthy (claimedBy claim) && negb (multi claim))
  end.

(** The condition under which [redeemClaimCode] refuses: the claim is
    single-use and claimed, by somebody else. *)
Definition claimedByOther (claim : ClaimCode) (email : string) : Prop :=
  multi claim = false /\ truthy (claimedBy claim) = true
  /\ claimedBy claim <> Some email.

Definition redeemClaimCode (self : Badge) (c email : string)
    : option bool * Badge :=
  match getClaimCode self c with
  | None => (None, self)
  | Some (idx, claim) =>
      if negb (multi claim) && truthy (claimedBy claim)
         && strictNe (claimedBy claim) email
      then (Some false, self)
      else (Some true,
            setClaimCodes self
              (<[idx := setClaimedBy claim (Some email)]> (claimCodes self)))
  end.

Definition removeClaimCode (self : Badge) (c : string) : Badge :=
  setClaimCodes self
    (List.filter (fun claim => negb (String.eqb (code claim) c)) (claimCodes self)).

(** [claim.claimedBy = null] on the [null] that [getClaimCode] returns
    for an unknown code is a TypeError. *)
Definition releaseClaimCode (self : Badge) (c : string)
    : completion (bool * Badge) :=
  match getClaimCode self c with
  | None => Throw TypeError
  | Some (idx, claim) =>
      Normal (true,
              setClaimCodes self
                (<[idx := setClaimedBy claim None]> (claimCodes self)))
  end.

(** ** Behaviours and credits *)

(** [user.credit] is a dictionary from behaviour names to credits.
    [user.credit[name] >= minimum] is false when the entry is missing
    ([undefined >= n] is false for every number [n]). *)
Definition earnableBy (self : Badge) (credit : gmap string Z) : bool :=
  fold_left (fun result value => result && value)
    (List.map (fun behavior =>
                 let name := behaviorName behavior in
                 let minimum := count behavior in
                 match credit !! name with
                 | Some c => minimum <=? c
                 | None => false
                 end) (behaviors self))
    true.

(** [user.credit[name] || 0] *)
Definition creditOrZero (credit : gmap string Z) (name : string) : Z :=
  match credit !! name with
  | Some c => if c =? 0 then 0 else c
  | None => 0
  end.

(** The callback of the [reduce] in [creditsUntilAward]. *)
Definition gapStep (credit : gmap string Z) (result : gmap string Z)
    (behavior : Behavior) : gmap string Z :=
  let name := behaviorName behavior in
  let userCredits := creditOrZero credit name in
  if userCredits <? count behavior
  then <[name := count behavior - userCredits]> result
  else result.

Definition creditsUntilAward (self : Badge) (credit : gmap string Z)
    : gmap string Z :=
  fold_left (gapStep credit) (behaviors self) ∅.

(** ** Validators and defaulters of the badge *)

Definition normalizeCategoryInfo (self : Badge) : Badge :=
  if truthy (categoryAward self) then
    {| _id := _id self; shortname := shortname self;
       categoryAward := categoryAward self;
       categoryRequirement := categoryRequirement self;
       categoryWeight := 0;
       categories := [];
       behaviors := behaviors self;
       claimCodes := claimCodes self |}
  else
    {| _id := _id self; shortname := shortname self;
       categoryAward := categoryAward self;
       categoryRequirement := 0;
       categoryWeight := categoryWeight self;
       categories := categories self;
       behaviors := behaviors self;
       claimCodes := claimCodes self |}.

(** ** Regular expressions, for the [match] validator of the user field *)

Inductive regexp : Type :=
  | ReNone
  | ReEps
  | ReClass (p : ascii -> bool)
  | ReSeq (r s : regexp)
  | ReAlt (r s : regexp)
  | ReStar (r : regexp).

Fixpoint nullable (r : regexp) : bool :=
  match r with
  | ReNone => false
  | ReEps => true
  | ReClass _ => false
  | ReSeq r s => nullable r && nullable s
  | ReAlt r s => nullable r || nullable s
  | ReStar _ => true
  end.

Definition reSeq (r s : regexp) : regexp :=
  match r with
  | ReNone => ReNone
  | ReEps => s
  | _ => ReSeq r s
  end.

Definition reAlt (r s : regexp) : regexp :=
  match r, s with
  | ReNone, _ => s
  | _, ReNone => r
  | _, _ => ReAlt r s
  end.

(** Brzozowski derivative: what is left to match after reading [a]. *)
Fixpoint derive (a : ascii) (r : regexp) : regexp :=
  match r with
  | ReNone => ReNone
  | ReEps => ReNone
  | ReClass p => if p a then ReEps else ReNone
  | ReSeq r s =>
      reAlt (reSeq (derive a r) s) (if nullable r then derive a s else ReNone)
  | ReAlt r s => reAlt (derive a r) (derive a s)
  | ReStar r => reSeq (derive a r) (ReStar r)
  end.

(** The whole of [s] is in the language of [r]. *)
Fixpoint matchesAll (r : regexp) (s : string) {struct s} : bool :=
  match s with
  | EmptyString => nullable r
  | String a t => matchesAll (derive a r) t
  end.

Definition reAny : regexp := ReClass (fun _ => true).
Definition rePlus (r : regexp) : regexp := ReSeq r (ReStar r).
Definition reOpt (r : regexp) : regexp := ReAlt r ReEps.
Definition reChar (c : ascii) : regexp := ReClass (Ascii.eqb c).

(** [re.test(s)]: some substring of [s] is in the language of [r]. *)
Definition test (r : regexp) (s : string) : bool :=
  matchesAll (ReSeq (ReStar reAny) (ReSeq r (ReStar reAny))) s.

Definition inRange (lo hi : nat) (a : ascii) : bool :=
  let n := nat_of_ascii a in Nat.leb lo n && Nat.leb n hi.

(** [[a-z0-9]] *)
Definition alnum (a : ascii) : bool := inRange 97 122 a || inRange 48 57 a.

Fixpoint elemUnit (a : ascii) (s : string) : bool :=
  match s with
  | EmptyString => false
  | String b t => Ascii.eqb a b || elemUnit a t
  end.

(** The class of the local part: letters, digits and the listed signs. *)
Definition atext (a : ascii) : bool :=
  alnum a || elemUnit a "!#$%&'*+/=?^_`{|}~-".

(** [[a-z0-9](?:[a-z0-9\-]*[a-z0-9])?] *)
Definition reLabel : regexp :=
  ReSeq (ReClass alnum)
    (reOpt (ReSeq (ReStar (ReClass (fun a => alnum a || Ascii.eqb a "-"%char)))
                  (ReClass alnum))).

(** [regex.email] *)
Definition regex_email : regexp :=
  ReSeq (rePlus (ReClass atext))
    (ReSeq (ReStar (ReSeq (reChar "."%char) (rePlus (ReClass atext))))
       (ReSeq (reChar "@"%char)
          (ReSeq (rePlus (ReSeq reLabel (reChar "."%char))) reLabel))).

(** ** Badge instances and the document store *)

(** The paths of [BadgeInstanceSchema] without [issuedOn], which always
    has its default. *)
Record BadgeInstance : Type := mkBadgeInstance {
  user : string;
  badge : string;
  assertion : option string;
  hash : option string;
  userBadgeKey : option string;
  seen : bool
}.

Definition DUP_KEY_ERROR_CODE : Z := 11000.

Definition duplicateKeyError : StoreError :=
  {| errName := "MongoError"; errCode := Some DUP_KEY_ERROR_CODE |}.

Definition validationError : StoreError :=
  {| errName := "ValidationError"; errCode := None |}.

(** The two collections, and the lines written by [console.log].

    The store is taken at its contract: reads succeed; a save runs the
    hooks and the validators of the schema and is then refused only by a
    unique index. *)
Record State : Type := mkState {
  badgeDocs : list Badge;
  instanceDocs : list BadgeInstance;
  consoleLog : list string
}.

(** What these sources call and do not hold: [Badge#makeAssertion], a
    method of a badge that calls back with an error or with the assertion
    for a recipient, and [util.hash]. *)
Record Externals : Type := mkExternals {
  makeAssertion : Badge -> string -> StoreError + string;
  util_hash : string -> string
}.

Definition setBadgeDocs (st : State) (bs : list Badge) : State :=
  {| badgeDocs := bs; instanceDocs := instanceDocs st;
     consoleLog := consoleLog st |}.

Definition insertInstance (st : State) (i : BadgeInstance) : State :=
  {| badgeDocs := badgeDocs st; instanceDocs := (instanceDocs st ++ [i])%list;
     consoleLog := consoleLog st |}.

Definition log (line : string) (st : State) : State :=
  {| badgeDocs := badgeDocs st; instanceDocs := instanceDocs st;
     consoleLog := (consoleLog st ++ [line])%list |}.

Definition optStringEqb (a b : option string) : bool :=
  match a, b with
  | Some x, Some y => String.eqb x y
  | None, None => true
  | _, _ => false
  end.

(** [new BadgeInstance({ user: email, badge: id })]: the setter of the
    [user] path trims, [seen] takes its default, the other paths are
    not set. *)
Definition newBadgeInstance (email id : string) : BadgeInstance :=
  {| user := trim email; badge := id; assertion := None; hash := None;
     userBadgeKey := None; seen := false |}.

(** [this.assertion = v]: the path has [trim: true]. *)
Definition setAssertion (i : BadgeInstance) (v : option string) : BadgeInstance :=
  {| user := user i; badge := badge i; assertion := trimSetter v;
     hash := hash i; userBadgeKey := userBadgeKey i; seen := seen i |}.

(** [this.hash = v] *)
Definition setHash (i : BadgeInstance) (v : option string) : BadgeInstance :=
  {| user := user i; badge := badge i; assertion := assertion i;
     hash := v; userBadgeKey := userBadgeKey i; seen := seen i |}.

(** [Badge.findOne({ shortname: name })] *)
Definition findOneByShortname (st : State) (name : string) : option Badge :=
  List.find (fun b => String.eqb (shortname b) name) (badgeDocs st).

(** The [assertionDefault] hook.  Without an assertion, the badge whose
    [shortname] is the [badge] field is looked up and asked for one;
    [badge.makeAssertion] on the [null] of an unsuccessful lookup is a
    TypeError, thrown in the callback of the store, where nothing
    catches it. *)
Definition assertionDefault (X : Externals) (st : State) (i : BadgeInstance)
    : completion BadgeInstance :=
  if truthy (assertion i) then Normal i
  else
    match findOneByShortname st (badge i) with
    | None => Throw TypeError
    | Some found =>
        match makeAssertion X found (user i) with
        | inl err => Errback err i
        | inr a => Normal (setAssertion i (Some a))
        end
    end.

(** The [hashDefault] hook; the assertion is a string by now. *)
Definition hashDefault (X : Externals) (i : BadgeInstance) : BadgeInstance :=
  if truthy (hash i) then i
  else setHash i (Some (util_hash X (default "" (assertion i)))).

(** The [userBadgeKeyDefault] hook. *)
Definition userBadgeKeyDefault (i : BadgeInstance) : BadgeInstance :=
  if truthy (userBadgeKey i) then i
  else {| user := user i; badge := badge i; assertion := assertion i;
          hash := hash i;
          userBadgeKey := Some (user i ++ "." ++ badge i);
          seen := seen i |}.

(** [required: true, match: regex.email] on [user]. *)
Definition validUser (u : string) : bool :=
  negb (String.eqb u "") && test regex_email u.

(** The validators of the instance: those of [user], and [required] on
    [assertion], [hash] and [userBadgeKey], which the empty string
    fails. *)
Definition validInstance (i : BadgeInstance) : bool :=
  validUser (user i) && truthy (assertion i) && truthy (hash i)
  && truthy (userBadgeKey i).

Definition hasKey (st : State) (key : option string) : bool :=
  existsb (fun i => optStringEqb (userBadgeKey i) key) (instanceDocs st).

(** [instance.save(callback)]: the three hooks in the order of their
    declaration, of which the first can throw or pass an error on; the
    validators; then the insert, which the unique index refuses when the
    key is taken.  On success the callback also sees the document as the
    hooks left it. *)
Definition saveInstance (X : Externals) (st : State) (instance : BadgeInstance)
    : completion (BadgeInstance * State) :=
  match assertionDefault X st instance with
  | Throw e => Throw e
  | Errback err i => Errback err (i, st)
  | Normal i =>
      let doc := userBadgeKeyDefault (hashDefault X i) in
      if negb (validInstance doc) then Errback validationError (doc, st)
      else if hasKey st (userBadgeKey doc)
           then Errback duplicateKeyError (doc, st)
           else Normal (doc, insertInstance st doc)
  end.

(** [BadgeInstance.userHasBadge]: is there a document whose key is
    [user + '.' + shortname]? *)
Definition userHasBadge (st : State) (u name : string) : bool :=
  hasKey st (Some (u ++ "." ++ name)).

(** [Badge.find({ categoryAward: category })] *)
Definition findByCategoryAward (st : State) (category : string) : list Badge :=
  List.filter (fun b => optStringEqb (categoryAward b) (Some category))
    (badgeDocs st).

Definition findBadgeById (st : State) (id : string) : option Badge :=
  List.find (fun b => String.eqb (_id b) id) (badgeDocs st).

Definition inArray (array : list string) (thing : string) : bool :=
  existsb (String.eqb thing) array.

(** Modelled from the spec: [BadgeInstance.findByCategory], which [award]
    calls and these sources do not define.  It yields the badges the user
    owns that tag the category: the instances of the user, each with its
    [badge] reference populated from the badge collection. *)
Definition findByCategory (st : State) (email category : string) : list Badge :=
  flat_map (fun inst =>
              if String.eqb (user inst) email then
                match findBadgeById st (badge inst) with
                | Some b => if inArray (categories b) category then [b] else []
                | None => []
                end
              else [])
    (instanceDocs st).

(** [Badge.getAllClaimCodes] *)
Definition getAllClaimCodes (st : State) : list string :=
  fold_left (fun codes b => (codes ++ List.map code (claimCodes b))%list)
    (badgeDocs st) [].

(** What [badge.save(callback)] does to a badge that its validators
    pass: the [normalizeCategoryInfo] hook runs, then the document
    replaces its stored copy (or is inserted when the collection has
    none). *)
Definition saveBadge (st : State) (self : Badge) : Badge * State :=
  let doc := normalizeCategoryInfo self in
  let stored := badgeDocs st in
  if existsb (fun b => String.eqb (_id b) (_id doc)) stored
  then (doc, setBadgeDocs st
               (List.map (fun b => if String.eqb (_id b) (_id doc) then doc else b)
                  stored))
  else (doc, setBadgeDocs st (stored ++ [doc])%list).

(** The validators of the paths of a badge that this record holds:
    [required] on [_id] and on the [code] of every claim, [required] on
    the [shortname] and [required] and [min: 0] on the [count] of every
    behaviour.  The [shortname] of the badge, which a hook fills from the
    [name], and the paths this record leaves out are taken as the store
    accepted them. *)
Definition validBehavior (behavior : Behavior) : bool :=
  negb (String.eqb (behaviorName behavior) "") && (0 <=? count behavior).

Definition validClaim (claim : ClaimCode) : bool :=
  negb (String.eqb (code claim) "").

Definition validBadge (doc : Badge) : bool :=
  negb (String.eqb (_id doc) "")
  && forallb validBehavior (behaviors doc)
  && forallb validClaim (claimCodes doc).

(** [this.save(callback)] on a badge: the hook, the validators, and then
    [saveBadge].  When a validator fails the callback gets the error, the
    store is not touched, and the badge in memory stays as the hook left
    it. *)
Definition save (st : State) (self : Badge)
    : StoreError * Badge + Badge * State :=
  let doc := normalizeCategoryInfo self in
  if validBadge doc then inr (saveBadge st self)
  else inl (validationError, doc).

(** ** Adding claim codes *)

Module AddOptions.
Record t : Type := mk {
  codes : list string;
  limit : option Z;
  multi : bool;
  reservedFor : option string;
  alreadyClean : bool
}.

(** [addClaimCodes(codes)] with a bare array. *)
Definition ofArray (l : list string) : t :=
  {| codes := l; limit := None; multi := false; reservedFor := None;
     alreadyClean := false |}.
End AddOptions.

(** [_.uniq]: the first occurrence of every element, in order. *)
Definition uniq (l : list string) : list string :=
  fold_left (fun result value =>
               if inArray result value then result else (result ++ [value])%list)
    l [].

Inductive Limit : Type :=
  | Finite (n : Z)
  | Infinity.

(** [options.limit || Infinity]: [undefined] and [0] are both falsy. *)
Definition limitOrInfinity (limit : option Z) : Limit :=
  match limit with
  | Some n => if n =? 0 then Infinity else Finite n
  | None => Infinity
  end.

(** [accepted.length >= limit] *)
Definition lengthGe (accepted : list string) (limit : Limit) : bool :=
  match limit with
  | Finite n => n <=? Z.of_nat (length accepted)
  | Infinity => false
  end.

(** The body of the [forEach] that sorts the candidates: one [push],
    onto [rejected] or onto [accepted]. *)
Definition sortStep (existingCodes : list string) (limit : Limit)
    (lists : list string * list string) (code : string)
    : list string * list string :=
  let '(accepted, rejected) := lists in
  if inArray existingCodes code || lengthGe accepted limit
  then (accepted, (rejected ++ [code])%list)
  else ((accepted ++ [code])%list, rejected).

Definition sortCodes (existingCodes : list string) (limit : Limit)
    (codes : list string) : list string * list string :=
  fold_left (sortStep existingCodes limit) codes ([], []).

Definition reservedForMessage : string :=
  "only one code can be reserved for the same email".

(** [addClaimCodes(options, callback)]: it throws before anything is
    read, or the callback receives [accepted] and [rejected], or the save
    fails and the callback receives the error.  The claims are pushed
    through the setters of [ClaimCodeSchema], which trim [code] and
    [reservedFor]; [accepted] holds the codes as they were given.  The
    badge and the store are returned as the call leaves them. *)
Definition addClaimCodes (options : AddOptions.t) (self : Badge) (st : State)
    : completion (list string * list string * Badge * State) :=
  if truthy (AddOptions.reservedFor options)
     && negb (Nat.eqb (length (AddOptions.codes options)) 1)
  then Throw (Error reservedForMessage)
  else
    let codes := if AddOptions.alreadyClean options
                 then AddOptions.codes options
                 else uniq (AddOptions.codes options) in
    let limit := limitOrInfinity (AddOptions.limit options) in
    let existingCodes := getAllClaimCodes st in
    let '(accepted, rejected) := sortCodes existingCodes limit codes in
    if Nat.eqb (length accepted) 0 then Normal (accepted, rejected, self, st)
    else
      let pushed :=
        setClaimCodes self
          (claimCodes self ++
             List.map (fun c =>
                         {| code := trim c; claimedBy := None;
                            reservedFor :=
                              trimSetter (AddOptions.reservedFor options);
                            multi := AddOptions.multi options |})
               accepted)%list in
      match save st pushed with
      | inl (err, doc) => Errback err (accepted, rejected, doc, st)
      | inr (doc, st') => Normal (accepted, rejected, doc, st')
      end.

(** ** Generating claim codes *)

Module GenerateOptions.
(** The code generator is any function of the count; what it returns
    may depend on what it was asked before, which the state [G] holds. *)
Record t (G : Type) : Type := mk {
  count : Z;
  codeGenerator : G -> Z -> list string * G;
  reservedFor : option string
}.
Arguments mk {G}.
Arguments count {G}.
Arguments codeGenerator {G}.
Arguments reservedFor {G}.
End GenerateOptions.

(** [async.until(isDone, addCodes, done)], one round per unit of fuel;
    [None] when the fuel is used up before [isDone] holds.  An error of
    a round ends the loop, with what was accepted before that round. *)
Fixpoint untilDone {G : Type} (fuel : nat)
    (codeGenerator : G -> Z -> list string * G)
    (count : Z) (reservedFor : option string)
    (g : G) (accepted : list string) (self : Badge) (st : State)
    : option (completion (list string * G * Badge * State)) :=
  match fuel with
  | O => None
  | S fuel' =>
      if Z.of_nat (length accepted) =? count
      then Some (Normal (accepted, g, self, st))
      else
        let numLeft := count - Z.of_nat (length accepted) in
        let '(phrases, g') := codeGenerator g numLeft in
        match addClaimCodes
                {| AddOptions.codes := phrases;
                   AddOptions.limit := Some numLeft;
                   AddOptions.multi := false;
                   AddOptions.reservedFor := reservedFor;
                   AddOptions.alreadyClean := true |} self st with
        | Throw e => Some (Throw e)
        | Errback err (_, _, self', st') =>
            Some (Errback err (accepted, g', self', st'))
        | Normal (acceptedCodes, _, self', st') =>
            untilDone fuel' codeGenerator count reservedFor g'
              (accepted ++ acceptedCodes)%list self' st'
        end
  end.

Definition generateClaimCodes {G : Type} (fuel : nat)
    (options : GenerateOptions.t G) (g : G) (self : Badge) (st : State)
    : option (completion (list string * G * Badge * State)) :=
  let reservedFor := GenerateOptions.reservedFor options in
  let count := if truthy reservedFor then 1 else GenerateOptions.count options in
  untilDone fuel (GenerateOptions.codeGenerator options) count reservedFor
    g [] self st.

(** ** Awarding a badge *)

Module AwardOptions.
Record t : Type := mk {
  user : string;
  sendEmail : bool
}.

(** [award(email, callback)] with a bare string. *)
Definition ofString (email : string) : t :=
  {| user := email; sendEmail := false |}.
End AwardOptions.

(** What a callback of [award] can find in its first result slot. *)
#[warnings="-register-all"]
Inductive Value : Type :=
  | VUndefined
  | VInstance (i : BadgeInstance)
  | VArray (l : list Value).

(** The arguments [award] passes to its callback:
    [callback()], [callback(err)] or [callback(null, first, second)]. *)
Inductive AwardCallback : Type :=
  | CbNothing
  | CbError (err : StoreError)
  | CbResult (first : Value) (second : list Value).

(** How a call of [award] ends: it calls its callback, or an exception
    thrown in a hook of a save escapes and no callback is called. *)
Inductive AwardOutcome : Type :=
  | Calls (cb : AwardCallback)
  | Throws (e : JsError).

(** How [async.map] and [async.concatSeries] end: an exception escaped,
    or the final callback gets an error, or it gets the results. *)
Inductive Gathered : Type :=
  | Threw (e : JsError)
  | Failed (err : StoreError)
  | Results (vs : list Value).

(** What [async.map] keeps of one callback: [results[i] = v]. *)
Definition firstResult (cb : AwardCallback) : StoreError + Value :=
  match cb with
  | CbNothing => inr VUndefined
  | CbError err => inl err
  | CbResult first _ => inr first
  end.

(** [async.map(badges, iterator, callback)].  Every iterator is started,
    so all of them take effect; they are run here in the order of the
    array, up to an exception.  The callback gets the first error, or
    else all the results. *)
Fixpoint asyncMap (iterator : Badge -> State -> option (AwardOutcome * State))
    (badges : list Badge) (st : State) : option (Gathered * State) :=
  match badges with
  | [] => Some (Results [], st)
  | b :: rest =>
      match iterator b st with
      | None => None
      | Some (Throws e, st1) => Some (Threw e, st1)
      | Some (Calls cb, st1) =>
          match asyncMap iterator rest st1 with
          | None => None
          | Some (results, st2) =>
              Some (match results, firstResult cb with
                    | Threw e, _ => Threw e
                    | _, inl err => Failed err
                    | Failed err, inr _ => Failed err
                    | Results vs, inr v => Results (v :: vs)
                    end, st2)
          end
      end
  end.

(** [async.concatSeries(arr, fn, callback)]: one element after the other,
    stopping at the first error; the arrays are concatenated. *)
Fixpoint concatSeries (fn : string -> State -> option (Gathered * State))
    (arr : list string) (st : State) : option (Gathered * State) :=
  match arr with
  | [] => Some (Results [], st)
  | x :: rest =>
      match fn x st with
      | None => None
      | Some (Results y, st1) =>
          match concatSeries fn rest st1 with
          | None => None
          | Some (Results r, st2) => Some (Results (y ++ r)%list, st2)
          | Some (stopped, st2) => Some (stopped, st2)
          end
      | Some (stopped, st1) => Some (stopped, st1)
      end
  end.

(** [instances.reduce(function (sum, inst) { ... inst.badge.categoryWeight }, 0)] *)
Definition categoryScore (st : State) (email category : string) : Z :=
  fold_left (fun sum b => sum + categoryWeight b)
    (findByCategory st email category) 0.

(** The first three steps of the waterfall: the capstones of the
    category, those whose requirement the score meets, and of these the
    ones [userHasBadge] does not report as owned. *)
Definition getCategoryBadges (st : State) (category : string) : list Badge :=
  findByCategoryAward st category.

Definition filterByScore (st : State) (email category : string)
    (badges : list Badge) : list Badge :=
  let score := categoryScore st email category in
  List.filter (fun b => categoryRequirement b <=? score) badges.

Definition filterByOwned (st : State) (email : string) (badges : list Badge)
    : list Badge :=
  List.filter (fun b => negb (userHasBadge st email (shortname b))) badges.

Definition checkForCategoryBadges (self : Badge) : bool :=
  negb (truthy (categoryAward self)) && negb (categoryWeight self =? 0).

(** The options of a cascaded award: [{ user: email, sendEmail: true }]. *)
Definition newOpts (email : string) : AwardOptions.t :=
  {| AwardOptions.user := email; AwardOptions.sendEmail := true |}.

(** [err.code === DUP_KEY_ERROR_CODE] *)
Definition isDuplicateKey (err : StoreError) : bool :=
  match errCode err with
  | Some c => c =? DUP_KEY_ERROR_CODE
  | None => false
  end.

(** [award(options, callback)].  The fuel bounds the depth of the
    recursion through [awardBadges]; [None] when it is used up. *)
Fixpoint award (X : Externals) (fuel : nat) (options : AwardOptions.t)
    (self : Badge) (st : State) : option (AwardOutcome * State) :=
  match fuel with
  | O => None
  | S fuel' =>
      let email := AwardOptions.user options in
      let instance := newBadgeInstance email (_id self) in
      match saveInstance X st instance with
      | Throw e => Some (Throws e, st)
      | Errback err _ =>
          if isDuplicateKey err then Some (Calls CbNothing, st)
          else Some (Calls (CbError err), st)
      | Normal (saved, st1) =>
          let st2 := if AwardOptions.sendEmail options
                     then log "WRITE SEND EMAIL CODE" st1 else st1 in
          if negb (checkForCategoryBadges self)
          then Some (Calls (CbResult (VInstance saved) []), st2)
          else
            match concatSeries
                    (fun category s =>
                       let badges := getCategoryBadges s category in
                       let eligible := filterByScore s email category badges in
                       let notOwned := filterByOwned s email eligible in
                       asyncMap (award X fuel' (newOpts email)) notOwned s)
                    (categories self) st2 with
            | None => None
            | Some (Threw e, st3) => Some (Throws e, st3)
            | Some (Failed err, st3) => Some (Calls (CbError err), st3)
            | Some (Results instances, st3) =>
                Some (Calls (CbResult (VArray instances) instances), st3)
            end
      end
  end.

(** ** Vocabulary of the properties *)

Definition keyFor (email id : string) : option string :=
  Some (trim email ++ "." ++ id).

(** The document that [award] saves for the user and the badge [id] when
    the hook has been given the assertion [a]. *)
Definition awarded (X : Externals) (email id a : string) : BadgeInstance :=
  {| user := trim email; badge := id; assertion := Some (trim a);
     hash := Some (util_hash X (trim a));
     userBadgeKey := keyFor email id; seen := false |}.

(** The hooks and validators of the save that [award] starts for the
    badge [id] pass what the user does not decide: a badge has [id] as
    its [shortname], it makes the assertion [a], and neither the
    assertion nor its hash is empty. *)
Definition assertable (X : Externals) (st : State) (email id a : string)
    : Prop :=
  exists found,
    findOneByShortname st id = Some found
    /\ makeAssertion X found (trim email) = inr a
    /\ trim a <> ""
    /\ util_hash X (trim a) <> "".

(** The unique index on [userBadgeKey]. *)
Definition keysUnique (st : State) : Prop :=
  List.NoDup (List.map userBadgeKey (instanceDocs st)).

(** How many instances the store holds under a key. *)
Definition countKey (st : State) (key : option string) : nat :=
  length (List.filter (fun i => optStringEqb (userBadgeKey i) key)
            (instanceDocs st)).

(** [s'] is [s] after some awards: the same badges, the instances of [s]
    followed by new ones, the index still unique, the console with more
    lines. *)
Definition grows (s s' : State) : Prop :=
  badgeDocs s' = badgeDocs s
  /\ (exists more, instanceDocs s' = (instanceDocs s ++ more)%list)
  /\ (keysUnique s -> keysUnique s')
  /\ (exists lines, consoleLog s' = (consoleLog s ++ lines)%list).

(** The stored badges the user has no instance of yet: what a cascade
    can still award. *)
Definition pending (st : State) (email : string) : nat :=
  length (List.filter (fun b => negb (hasKey st (keyFor email (_id b))))
            (badgeDocs st)).

(** The badges that one category's waterfall hands to [awardBadges]. *)
Definition cascadeTargets (st : State) (email category : string) : list Badge :=
  filterByOwned st email
    (filterByScore st email category (getCategoryBadges st category)).


(** The state in which the cascade of a fresh award starts: the instance
    is saved and, when asked for, the e-mail line is written. *)
Definition afterSave (saved : BadgeInstance) (sendEmail : bool) (st : State)
    : State :=
  let st1 := insertInstance st saved in
  if sendEmail then log "WRITE SEND EMAIL CODE" st1 else st1.

(** The badge in memory is a document of the store, and its stored
    copies hold the claim codes it holds. *)
Definition stored (self : Badge) (st : State) : Prop :=
  (exists d, In d (badgeDocs st) /\ _id d = _id self)
  /\ forall d, In d (badgeDocs st) -> _id d = _id self ->
               claimCodes d = claimCodes self.

(** The options [generateClaimCodes] passes to [addClaimCodes]. *)
Definition roundOptions (phrases : list string) (numLeft : Z)
    (reservedFor : option string) : AddOptions.t :=
  {| AddOptions.codes := phrases;
     AddOptions.limit := Some numLeft;
     AddOptions.multi := false;
     AddOptions.reservedFor := reservedFor;
     AddOptions.alreadyClean := true |}.

(** A code as the store keeps it: not empty, and without white space at
    its ends. *)
Definition clean (c : string) : Prop := trim c = c /\ c <> "".

(** What holds between the rounds of [generateClaimCodes] that started in
    the store [st0] and is to produce [n] codes with the generator [gen]:
    the badge is in step with the store and passes its validators, the
    codes accepted so far are no more than [n], were in use nowhere in
    [st0] and are stored now, and they are pairwise distinct if every
    batch of the generator is. *)
Definition betweenRounds {G : Type} (gen : G -> Z -> list string * G)
    (n : Z) (st0 : State) (accepted : list string) (self : Badge)
    (st : State) : Prop :=
  stored self st
  /\ validBadge self = true
  /\ Z.of_nat (length accepted) <= n
  /\ (forall c, In c (getAllClaimCodes st0) -> In c (getAllClaimCodes st))
  /\ (forall c, In c accepted ->
                ~ In c (getAllClaimCodes st0) /\ In c (getAllClaimCodes st))
  /\ ((forall g k, List.NoDup (fst (gen g k))) -> List.NoDup accepted).

(** ** Sample documents *)

Module Sample.

Definition emptyBadge : Badge :=
  {| _id := "b0"; shortname := "plain"; categoryAward := None;
     categoryRequirement := 0; categoryWeight := 0; categories := [];
     behaviors := []; claimCodes := [] |}.

(** A badge with one single-use code claimed by alice, one open code and
    one multi-use code. *)
Definition codedBadge : Badge :=
  setClaimCodes emptyBadge
    [ {| code := "my-code"; claimedBy := Some "alice@example.org";
         reservedFor := None; multi := false |};
      {| code := "open-code"; claimedBy := None;
         reservedFor := None; multi := false |};
      {| code := "party"; claimedBy := Some "alice@example.org";
         reservedFor := None; multi := true |} ].

Definition emptyState : State :=
  {| badgeDocs := []; instanceDocs := []; consoleLog := [] |}.

(** A store whose only badge holds no claim code. *)
Definition plainState : State :=
  {| badgeDocs := [emptyBadge]; instanceDocs := []; consoleLog := [] |}.

(** A store whose only badge holds the three codes above. *)
Definition codedState : State :=
  {| badgeDocs := [codedBadge]; instanceDocs := []; consoleLog := [] |}.

End Sample.

Module Scenario.

(** Badge A contributes 5 to category X, badge B is the capstone of X
    and asks for 5; the user holds neither.  As with generated ids, no
    badge has the [_id] of another as its [shortname]. *)
Definition A : Badge :=
  {| _id := "id-a"; shortname := "first-steps"; categoryAward := None;
     categoryRequirement := 0; categoryWeight := 5; categories := ["X"];
     behaviors := []; claimCodes := [] |}.

Definition B : Badge :=
  {| _id := "id-b"; shortname := "x-master"; categoryAward := Some "X";
     categoryRequirement := 5; categoryWeight := 0; categories := [];
     behaviors := []; claimCodes := [] |}.

Definition U : string := "u@example.org".

Definition store : State :=
  {| badgeDocs := [A; B]; instanceDocs := []; consoleLog := [] |}.

(** A badge that asks for no credit of the behaviour it names. *)
Definition freeBadge : Badge :=
  {| _id := "id-f"; shortname := "welcome"; categoryAward := None;
     categoryRequirement := 0; categoryWeight := 0; categories := [];
     behaviors := [ {| behaviorName := "attend"; count := 0 |} ];
     claimCodes := [] |}.

End Scenario.

Module Stub.

(** Stand-ins for the code outside these sources: an assertion that
    names the badge and the recipient, and a hash that marks it. *)
Definition assertionOf (b : Badge) (recipient : string) : StoreError + string :=
  inr (shortname b ++ " for " ++ recipient).

Definition hashOf (a : string) : string := "#" ++ a.

Definition externals : Externals :=
  {| makeAssertion := assertionOf; util_hash := hashOf |}.

End Stub.

Module Aligned.

(** The scenario again, with badges whose [shortname] is their [_id]:
    the only stores in which the hook of an award finds the badge it is
    awarding. *)
Definition A : Badge :=
  {| _id := "first-steps"; shortname := "first-steps"; categoryAward := None;
     categoryRequirement := 0; categoryWeight := 5; categories := ["X"];
     behaviors := []; claimCodes := [] |}.

Definition B : Badge :=
  {| _id := "x-master"; shortname := "x-master"; categoryAward := Some "X";
     categoryRequirement := 5; categoryWeight := 0; categories := [];
     behaviors := []; claimCodes := [] |}.

Definition store : State :=
  {| badgeDocs := [A; B]; instanceDocs := []; consoleLog := [] |}.

Definition instanceOfA : BadgeInstance :=
  {| user := "u@example.org"; badge := "first-steps";
     assertion := Some "first-steps for u@example.org";
     hash := Some "#first-steps for u@example.org";
     userBadgeKey := Some "u@example.org.first-steps"; seen := false |}.

Definition instanceOfB : BadgeInstance :=
  {| user := "u@example.org"; badge := "x-master";
     assertion := Some "x-master for u@example.org";
     hash := Some "#x-master for u@example.org";
     userBadgeKey := Some "u@example.org.x-master"; seen := false |}.

(** The same store when the user holds the capstone. *)
Definition heldStore : State :=
  {| badgeDocs := [A; B]; instanceDocs := [instanceOfB]; consoleLog := [] |}.

End Aligned.

Module Held.

(** A store in which the award of A and of the capstone B can be made,
    B under an [_id] that differs from its [shortname], and in which the
    user holds B. *)
Definition B : Badge :=
  {| _id := "id-b"; shortname := "x-master"; categoryAward := Some "X";
     categoryRequirement := 5; categoryWeight := 0; categories := [];
     behaviors := []; claimCodes := [] |}.

Definition D : Badge :=
  {| _id := "id-d"; shortname := "id-b"; categoryAward := None;
     categoryRequirement := 0; categoryWeight := 0; categories := [];
     behaviors := []; claimCodes := [] |}.

Definition instanceOfB : BadgeInstance :=
  awarded Stub.externals Scenario.U "id-b" "id-b for u@example.org".

Definition store : State :=
  {| badgeDocs := [Aligned.A; B; D]; instanceDocs := [instanceOfB];
     consoleLog := [] |}.

End Held.

Module Stubborn.

(** A generator that proposes the same code whatever it is asked, and a
    store in which that code is in use. *)
Definition codeGenerator (g : unit) (n : Z) : list string * unit :=
  (["my-code"], g).

Definition options : GenerateOptions.t unit :=
  {| GenerateOptions.count := 1;
     GenerateOptions.codeGenerator := codeGenerator;
     GenerateOptions.reservedFor := None |}.

End Stubborn.

Module Counting.

(** A generator that proposes one code per call, longer at every call:
    [g + 1] letters at the call in state [g]. *)
Fixpoint letters (g : nat) : string :=
  match g with
  | O => EmptyString
  | S g' => String "a"%char (letters g')
  end.

Definition codeGenerator (g : nat) (n : Z) : list string * nat :=
  ([letters (S g)], S g).

End Counting.

(** ** More of the badge: listings, lookups and behaviours *)

(** An entry of [getClaimCodes]: [reservedFor] is there only when the
    claim's is truthy. *)
Record ClaimListing : Type := mkClaimListing {
  listedCode : string;
  claimed : bool;
  listedReservedFor : option string
}.

(** [getClaimCodes(opts)], with [opts.unclaimed] defaulting to false. *)
Definition getClaimCodes (unclaimed : bool) (self : Badge) : list ClaimListing :=
  let filterFn :=
    if unclaimed then (fun o => negb (truthy (claimedBy o)))
    else (fun _ => true) in
  List.map (fun entry =>
              {| listedCode := code entry;
                 claimed := truthy (claimedBy entry);
                 listedReservedFor :=
                   if truthy (reservedFor entry) then reservedFor entry
                   else None |})
    (List.filter filterFn (claimCodes self)).

Definition setBehaviors (self : Badge) (bs : list Behavior) : Badge :=
  {| _id := _id self; shortname := shortname self;
     categoryAward := categoryAward self;
     categoryRequirement := categoryRequirement self;
     categoryWeight := categoryWeight self;
     categories := categories self;
     behaviors := bs;
     claimCodes := claimCodes self |}.

(** [removeBehavior(shortname)]: the filter keeps a behaviour when its
    callback returns the behaviour, drops it when it returns [null]. *)
Definition removeBehavior (self : Badge) (name : string) : Badge :=
  setBehaviors self
    (List.filter (fun behavior => negb (String.eqb (behaviorName behavior) name))
       (behaviors self)).

(** [Badge.findByBehavior(shortnames)]: the badges with a behaviour
    whose name is one of [shortnames]; a single name is wrapped into an
    array by the caller of this definition. *)
Definition findByBehavior (st : State) (shortnames : list string) : list Badge :=
  List.filter (fun b =>
                 existsb (fun behavior => inArray shortnames (behaviorName behavior))
                   (behaviors b))
    (badgeDocs st).

(** [Badge.getAll]: the badges as a dictionary keyed by [shortname]. *)
Definition getAll (st : State) : gmap string Badge :=
  fold_left (fun result b => <[shortname b := b]> result) (badgeDocs st) ∅.

(** [Badge.findByClaimCode(code)]: the first badge with a claim whose
    code is [code], as given. *)
Definition findByClaimCode (st : State) (c : string) : option Badge :=
  List.find (fun b => existsb (fun claim => String.eqb (code claim) c)
                        (claimCodes b))
    (badgeDocs st).

(** ** More of the badge instance *)

Definition setInstanceDocs (st : State) (l : list BadgeInstance) : State :=
  {| badgeDocs := badgeDocs st; instanceDocs := l;
     consoleLog := consoleLog st |}.

Definition setSeen (i : BadgeInstance) : BadgeInstance :=
  {| user := user i; badge := badge i; assertion := assertion i;
     hash := hash i; userBadgeKey := userBadgeKey i; seen := true |}.

(** [BadgeInstance.markAllAsSeen(email)]: the multi-update
    [{ user: email }] to [{ seen: true }]. *)
Definition markAllAsSeen (st : State) (email : string) : State :=
  setInstanceDocs st
    (List.map (fun i => if String.eqb (user i) email then setSeen i else i)
       (instanceDocs st)).

(** [BadgeInstance.deleteAllByUser(email)]: the instances found under
    [{ user: email }] are removed one by one and handed to the
    callback. *)
Definition deleteAllByUser (st : State) (email : string)
    : list BadgeInstance * State :=
  let instances :=
    List.filter (fun i => String.eqb (user i) email) (instanceDocs st) in
  (instances,
   setInstanceDocs st
     (List.filter (fun i => negb (String.eqb (user i) email)) (instanceDocs st))).

(** [x | 0]: the integer taken modulo 2^32 into the signed 32-bit
    range. *)
Definition toInt32 (x : Z) : Z :=
  let m := x mod 4294967296 in
  if 2147483648 <=? m then m - 4294967296 else m.

(** [issuedOnUnix()] for an [issuedOn] given in milliseconds since the
    epoch, or missing: [(this.issuedOn / 1000) | 0].  The quotient loses
    its fraction towards zero. *)
Definition issuedOnUnix (issuedOn : option Z) : Z :=
  match issuedOn with
  | None => 0
  | Some ms => toInt32 (Z.quot ms 1000)
  end.

(** ** [awardOrFind] *)

(** What becomes of a callback: it is never called, it is called with
    [a], or an exception escapes before it could be. *)
Inductive Called (A : Type) : Type :=
  | NeverCalled
  | CalledWith (a : A)
  | Escaped (e : JsError).
Arguments NeverCalled {A}.
Arguments CalledWith {A} a.
Arguments Escaped {A} e.

(** [!!v] for what [award] hands over: arrays and documents are
    truthy. *)
Definition truthyValue (v : Value) : bool :=
  match v with
  | VUndefined => false
  | _ => true
  end.

(** The [instance] parameter of the callback that [awardOrFind] gives to
    [award]. *)
Definition instanceArgument (cb : AwardCallback) : Value :=
  match cb with
  | CbResult first _ => first
  | _ => VUndefined
  end.

(** [BadgeInstance.findOne({ userBadgeKey: key })] *)
Definition findOneByKey (st : State) (key : string) : option BadgeInstance :=
  List.find (fun i => optStringEqb (userBadgeKey i) (Some key))
    (instanceDocs st).

(** [awardOrFind(email, callback)]: the callback is called only when
    [award] hands over no instance, and then with what [findOne] finds
    under [[email, this.id].join('.')]. *)
Definition awardOrFind (X : Externals) (fuel : nat) (email : string)
    (self : Badge) (st : State)
    : option (Called (option BadgeInstance) * State) :=
  match award X fuel (AwardOptions.ofString email) self st with
  | None => None
  | Some (Throws e, st') => Some (Escaped e, st')
  | Some (Calls cb, st') =>
      if truthyValue (instanceArgument cb) then Some (NeverCalled, st')
      else Some (CalledWith (findOneByKey st' (email ++ "." ++ _id self)), st')
  end.

(** ** Vocabulary of the further properties *)

(** What [normalizeCode] does to one code unit of the trimmed string. *)
Definition normalizeUnit (a : ascii) : ascii :=
  lowerUnit (if Ascii.eqb a " "%char then "-"%char else a).

Definition setReservedFor (claim : ClaimCode) (v : option string) : ClaimCode :=
  {| code := code claim; claimedBy := claimedBy claim;
     reservedFor := v; multi := multi claim |}.

(** The claim found by [getClaimCode], without its position. *)
Definition claimFound (self : Badge) (c : string) : option ClaimCode :=
  option_map snd (getClaimCode self c).

(** The candidates [addClaimCodes] sorts: the codes given, without
    duplicates unless the caller asserts there are none. *)
Definition candidates (options : AddOptions.t) : list string :=
  if AddOptions.alreadyClean options then AddOptions.codes options
  else uniq (AddOptions.codes options).

(** The claim [addClaimCodes] pushes for an accepted code, as the setters
    of its paths store it. *)
Definition newClaim (options : AddOptions.t) (c : string) : ClaimCode :=
  {| code := trim c; claimedBy := None;
     reservedFor := trimSetter (AddOptions.reservedFor options);
     multi := AddOptions.multi options |}.

(** The unique index on the [_id] of the badges. *)
Definition idsUnique (st : State) : Prop :=
  List.NoDup (List.map _id (badgeDocs st)).

(** The limit is reached by [accepted]. *)
Definition limitReached (limit : option Z) (accepted : list string) : Prop :=
  match limitOrInfinity limit with
  | Finite n => n <= Z.of_nat (length accepted)
  | Infinity => False
  end.

(** ** Reserving a code *)

(** [reserveAndNotify(email, callback)].  A user who has an instance
    under [email + '.' + self.id] gets [null].  Otherwise
    [generateClaimCodes({ reservedFor: email })] is called, and its first
    code handed over after the notice on the console.  The call names no
    [count] and no generator: [gen] stands for the phrase generator, and
    with a non-empty address [generateClaimCodes] sets the count to 1
    itself.  With the empty address the count stays [undefined], which
    [accepted.length] never equals, and the loop never ends. *)
Definition reserveAndNotify {G : Type} (fuel : nat)
    (gen : G -> Z -> list string * G) (g : G) (email : string)
    (self : Badge) (st : State)
    : option (completion (option string * G * Badge * State)) :=
  if hasKey st (Some (email ++ "." ++ _id self))
  then Some (Normal (None, g, self, st))
  else if String.eqb email "" then None
  else
    match generateClaimCodes fuel
            {| GenerateOptions.count := 1;
               GenerateOptions.codeGenerator := gen;
               GenerateOptions.reservedFor := Some email |} g self st with
    | None => None
    | Some (Throw e) => Some (Throw e)
    | Some (Errback err (_, g', self', st')) =>
        Some (Errback err (None, g', self', st'))
    | Some (Normal (accepted, g', self', st')) =>
        Some (Normal (List.nth_error accepted 0, g', self',
                      log "TODO: WRITE NOTIFICATION/WEBHOOK CODE." st'))
    end.

(** ** Vocabulary of the properties of instances *)

(** The string holds no full stop, as the hexadecimal [_id] of a
    document does. *)
Fixpoint dotless (s : string) : bool :=
  match s with
  | EmptyString => true
  | String a s' => negb (Ascii.eqb a "."%char) && dotless s'
  end.

(** Every instance is filed under the key its hook derives from its
    user and its badge, and the badge is referred to by an [_id]. *)
Definition wellKeyed (st : State) : Prop :=
  Forall (fun i => userBadgeKey i = Some (user i ++ "." ++ badge i)
                   /\ dotless (badge i) = true)
    (instanceDocs st).

(** How many instances the store holds for a user and a badge. *)
Definition countPair (st : State) (u id : string) : nat :=
  length (List.filter (fun i => String.eqb (user i) u && String.eqb (badge i) id)
            (instanceDocs st)).

(** The store after the awards of a cascade, one after the other: each
    instance is saved and, the cascade asking for it, each e-mail line
    is written. *)
Definition afterCascade (won : Badge -> BadgeInstance) (targets : list Badge)
    (st : State) : State :=
  fold_left (fun s B => afterSave (won B) true s) targets st.

(** ** The phrase generator *)

(** [iterator.random().join('-')] for the adverb, the adjective and the
    noun drawn. *)
Definition joinWords (w : string * string * string) : string :=
  let '(adverb, adjective, noun) := w in
  adverb ++ "-" ++ adjective ++ "-" ++ noun.

(** [!!v] for an entry of a dictionary of numbers. *)
Definition truthyNumber (v : option Z) : bool :=
  match v with
  | Some n => negb (n =? 0)
  | None => false
  end.

(** The loop of [phrases(count)].  [random] draws from the word lists;
    [matches] maps a word to what [results.push] returned for it; [len]
    is the variable [length].  The fuel bounds the number of tests of
    the loop condition. *)
Fixpoint phrasesLoop {G : Type} (fuel : nat)
    (random : G -> (string * string * string) * G) (count : Z) (g : G)
    (matches : gmap string Z) (results : list string) (len : Z)
    : option (list string * G) :=
  match fuel with
  | O => None
  | S fuel' =>
      if len <? count then
        let '(w, g') := random g in
        let word := joinWords w in
        if negb (truthyNumber (matches !! word)) then
          let results' := (results ++ [word])%list in
          phrasesLoop fuel' random count g'
            (<[word := Z.of_nat (length results')]> matches) results' (len + 1)
        else phrasesLoop fuel' random count g' matches results len
      else Some (results, g)
  end.

Definition phrases {G : Type} (fuel : nat)
    (random : G -> (string * string * string) * G) (count : Z) (g : G)
    : option (list string * G) :=
  phrasesLoop fuel random count g ∅ [] 0.

(** The words of the first [n] draws, and the source after them. *)
Fixpoint draws {G : Type} (random : G -> (string * string * string) * G)
    (g : G) (n : nat) : list string :=
  match n with
  | O => []
  | S n' => joinWords (fst (random g)) :: draws random (snd (random g)) n'
  end.

Fixpoint drawn {G : Type} (random : G -> (string * string * string) * G)
    (g : G) (n : nat) : G :=
  match n with
  | O => g
  | S n' => drawn random (snd (random g)) n'
  end.

(** What holds of the variables of [phrases] at every test of the loop
    condition. *)
Definition phrasesInv (count : Z) (matches : gmap string Z)
    (results : list string) (len : Z) : Prop :=
  len = Z.of_nat (length results)
  /\ len <= Z.max 0 count
  /\ List.NoDup results
  /\ forall w, truthyNumber (matches !! w) = true <-> In w results.

(** ** Rubric items *)

Record RubricItem : Type := mkRubricItem {
  text : string;
  required : bool
}.

(** [s.split(sep)] for a separator of one code unit. *)
Fixpoint split (sep : ascii) (s : string) : list string :=
  match s with
  | EmptyString => [EmptyString]
  | String a s' =>
      if Ascii.eqb a sep then EmptyString :: split sep s'
      else match split sep s' with
           | cur :: rest => String a cur :: rest
           | [] => [String a EmptyString]
           end
  end.

Fixpoint reString (s : string) : regexp :=
  match s with
  | EmptyString => ReEps
  | String a s' => ReSeq (reChar a) (reString s')
  end.

(** [/\(\s*optional\s*\)/] *)
Definition OPTIONAL_REGEXP : regexp :=
  ReSeq (reChar "("%char)
    (ReSeq (ReStar (ReClass isWhiteSpace))
       (ReSeq (reString "optional")
          (ReSeq (ReStar (ReClass isWhiteSpace)) (reChar ")"%char)))).

Definition newline : ascii := ascii_of_nat 10.

(** The callback of [lines.forEach]: what the line pushes. *)
Definition rubricItemOf (line : string) : list RubricItem :=
  match trim line with
  | String a rest =>
      if Ascii.eqb a "*"%char
      then [ {| text := trim rest;
                required := negb (test OPTIONAL_REGEXP (trim line)) |} ]
      else []
  | EmptyString => []
  end.

Definition fallbackItem (content : string) : RubricItem :=
  {| text := "Satisfies the following criteria:" ++ String newline content;
     required := true |}.

Definition parseRubricItems (content : string) : list RubricItem :=
  let rubricItems := flat_map rubricItemOf (split newline content) in
  if Nat.eqb (length rubricItems) 0 then [fallbackItem content]
  else rubricItems.

(** [getRubricItems()] on a badge whose [criteria.content] is
    [content]. *)
Definition getRubricItems (content : option string) : list RubricItem :=
  if truthy content
  then match content with
       | Some c => parseRubricItems c
       | None => []
       end
  else [].

(** The line is a bullet: trimmed, it starts with an asterisk. *)
Definition isBullet (line : string) : bool :=
  match trim line with
  | String a _ => Ascii.eqb a "*"%char
  | EmptyString => false
  end.

(** * Properties *)

(** ** The model at work *)

Example normalizeCode_example : normalizeCode "  My Code " = "my-code".
Proof. reflexivity. Qed.

Example getClaimCode_example :
  getClaimCode Sample.codedBadge "My Code"
  = Some (0%nat, {| code := "my-code"; claimedBy := Some "alice@example.org";
                    reservedFor := None; multi := false |}).
Proof. reflexivity. Qed.

Example uniq_example : uniq ["a"; "a"; "b"] = ["a"; "b"].
Proof. reflexivity. Qed.

Example addClaimCodes_dedup_example :
  exists doc st',
    addClaimCodes (AddOptions.ofArray ["a"; "a"; "b"])
      Sample.emptyBadge Sample.plainState
    = Normal (["a"; "b"], [], doc, st').
Proof. do 2 eexists. vm_compute. reflexivity. Qed.

Example addClaimCodes_limit_example :
  exists doc st',
    addClaimCodes
      {| AddOptions.codes := ["a"; "my-code"; "b"; "c"];
         AddOptions.limit := Some 2; AddOptions.multi := false;
         AddOptions.reservedFor := None; AddOptions.alreadyClean := false |}
      Sample.codedBadge Sample.codedState
    = Normal (["a"; "b"], ["my-code"; "c"], doc, st').
Proof. do 2 eexists. vm_compute. reflexivity. Qed.

Example regex_email_examples :
  test regex_email "u@example.org" = true
  /\ test regex_email "Some One <some.one@ex-ample.org>" = true
  /\ test regex_email "u@example" = false
  /\ test regex_email "u@-x.org" = false
  /\ test regex_email "U@EXAMPLE.ORG" = false.
Proof. repeat split; vm_compute; reflexivity. Qed.

Example addClaimCodes_trim_example :
  exists st',
    addClaimCodes (AddOptions.ofArray [" a "]) Sample.emptyBadge
      Sample.plainState
    = Normal ([" a "], [], setClaimCodes Sample.emptyBadge
                             [ {| code := "a"; claimedBy := None;
                                  reservedFor := None; multi := false |} ],
              st')
    /\ getAllClaimCodes st' = ["a"].
Proof. eexists. split; vm_compute; reflexivity. Qed.

Example addClaimCodes_empty_code_example :
  exists doc,
    addClaimCodes (AddOptions.ofArray [" "]) Sample.emptyBadge
      Sample.plainState
    = Errback validationError ([" "], [], doc, Sample.plainState).
Proof. eexists. vm_compute. reflexivity. Qed.

Example generateClaimCodes_padded_example :
  exists self' st',
    generateClaimCodes 3
      {| GenerateOptions.count := 2;
         GenerateOptions.codeGenerator :=
           (fun (g : unit) (n : Z) => ([" a"], g));
         GenerateOptions.reservedFor := None |}
      tt Sample.emptyBadge Sample.plainState
    = Some (Normal ([" a"; " a"], tt, self', st'))
    /\ getAllClaimCodes st' = ["a"; "a"].
Proof. do 2 eexists. split; vm_compute; reflexivity. Qed.

Example generateClaimCodes_empty_code_example :
  exists doc,
    generateClaimCodes 3
      {| GenerateOptions.count := 2;
         GenerateOptions.codeGenerator :=
           (fun (g : unit) (n : Z) => ([""], g));
         GenerateOptions.reservedFor := None |}
      tt Sample.emptyBadge Sample.plainState
    = Some (Errback validationError ([], tt, doc, Sample.plainState)).
Proof. eexists. vm_compute. reflexivity. Qed.

Example redeemClaimCode_trim_example :
  exists self',
    redeemClaimCode Sample.codedBadge "open-code" " bob@example.org "
    = (Some true, self')
    /\ option_map (fun found => claimedBy (snd found))
         (getClaimCode self' "open-code")
       = Some (Some "bob@example.org").
Proof. eexists. split; vm_compute; reflexivity. Qed.

Example award_unknown_shortname_example :
  award Stub.externals 1 (AwardOptions.ofString "u@example.org")
    Scenario.A Scenario.store
  = Some (Throws TypeError, Scenario.store).
Proof. vm_compute. reflexivity. Qed.

Example award_invalid_user_example :
  award Stub.externals 1 (AwardOptions.ofString "nobody")
    Aligned.A Aligned.store
  = Some (Calls (CbError validationError), Aligned.store).
Proof. vm_compute. reflexivity. Qed.

Example award_example :
  award Stub.externals 1 (AwardOptions.ofString " u@example.org ")
    Aligned.B Aligned.store
  = Some (Calls (CbResult (VInstance Aligned.instanceOfB) []),
          insertInstance Aligned.store Aligned.instanceOfB).
Proof. vm_compute. reflexivity. Qed.

(** ** Looking a claim code up *)

Section ClaimCodeLookup.

Variable normalizedCode : string.

Lemma scanClaimCodes_Some (codes : list ClaimCode) (k idx : nat)
    (claim : ClaimCode) :
  scanClaimCodes codes normalizedCode k = Some (idx, claim) ->
  (idx < k)%nat /\ codes !! idx = Some claim /\ code claim = normalizedCode.
Proof.
  induction k as [|k IH]; simpl; [discriminate|].
  destruct (codes !! k) as [x|] eqn:Hk; [|discriminate].
  destruct (String.eqb (code x) normalizedCode) eqn:Hx.
  - intros [= <- <-]. apply String.eqb_eq in Hx. auto.
  - intros H. destruct (IH H) as (? & ? & ?). auto with lia.
Qed.

Lemma scanClaimCodes_None (codes : list ClaimCode) (k : nat) :
  (k <= length codes)%nat ->
  scanClaimCodes codes normalizedCode k = None ->
  forall j claim, (j < k)%nat -> codes !! j = Some claim ->
                  code claim <> normalizedCode.
Proof.
  induction k as [|k IH]; intros Hk Hscan j claim Hj Hlook; [lia|].
  simpl in Hscan.
  destruct (codes !! k) as [x|] eqn:Hx.
  - destruct (String.eqb (code x) normalizedCode) eqn:Hc; [discriminate|].
    destruct (decide (j = k)) as [->|Hne].
    + rewrite Hx in Hlook. injection Hlook as <-.
      now apply String.eqb_neq.
    + apply (IH ltac:(lia) Hscan j claim ltac:(lia) Hlook).
  - apply lookup_ge_None in Hx. lia.
Qed.

Lemma scanClaimCodes_is_Some (codes : list ClaimCode) (k j : nat)
    (claim : ClaimCode) :
  (k <= length codes)%nat -> (j < k)%nat ->
  codes !! j = Some claim -> code claim = normalizedCode ->
  exists idx found, scanClaimCodes codes normalizedCode k = Some (idx, found).
Proof.
  intros Hk Hj Hlook Hcode.
  destruct (scanClaimCodes codes normalizedCode k) as [[idx found]|] eqn:Hscan.
  - eauto.
  - exfalso. exact (scanClaimCodes_None codes k Hk Hscan j claim Hj Hlook Hcode).
Qed.

(** Writing through the reference does not move it: after the claim at
    the position found is replaced by one with the same code, the scan
    finds the replacement at the same position. *)
Lemma scanClaimCodes_insert (codes : list ClaimCode) (k idx : nat)
    (claim claim' : ClaimCode) :
  code claim' = normalizedCode ->
  scanClaimCodes codes normalizedCode k = Some (idx, claim) ->
  scanClaimCodes (<[idx := claim']> codes) normalizedCode k
  = Some (idx, claim').
Proof.
  intros Hcode. induction k as [|k IH]; simpl; [discriminate|].
  destruct (codes !! k) as [x|] eqn:Hk; [|discriminate].
  destruct (String.eqb (code x) normalizedCode) eqn:Hx.
  - intros [= <- <-].
    rewrite list_lookup_insert_eq by (eapply lookup_lt_Some; eauto).
    rewrite Hcode, String.eqb_refl. reflexivity.
  - intros H. destruct (scanClaimCodes_Some _ _ _ _ H) as (Hlt & _ & _).
    rewrite list_lookup_insert_ne by lia.
    rewrite Hk, Hx. auto.
Qed.

End ClaimCodeLookup.

Lemma getClaimCode_Some (self : Badge) (c : string) (idx : nat)
    (claim : ClaimCode) :
  getClaimCode self c = Some (idx, claim) ->
  claimCodes self !! idx = Some claim /\ code claim = normalizeCode c.
Proof.
  intros H. apply scanClaimCodes_Some in H. tauto.
Qed.

Lemma getClaimCode_None (self : Badge) (c : string) :
  getClaimCode self c = None <->
  (forall claim, In claim (claimCodes self) -> code claim <> normalizeCode c).
Proof.
  unfold getClaimCode. split.
  - intros H claim Hin.
    apply list_elem_of_In, list_elem_of_lookup in Hin as [j Hj].
    eapply scanClaimCodes_None; eauto.
    eapply lookup_lt_Some; eauto.
  - intros H.
    destruct (scanClaimCodes _ _ _) as [[idx claim]|] eqn:Hscan; [|reflexivity].
    apply scanClaimCodes_Some in Hscan as (_ & Hlook & Hcode).
    exfalso. apply (H claim); [|assumption].
    apply list_elem_of_In, list_elem_of_lookup. eauto.
Qed.

Lemma getClaimCode_written (self : Badge) (c : string) (idx : nat)
    (claim : ClaimCode) (v : option string) :
  getClaimCode self c = Some (idx, claim) ->
  getClaimCode
    (setClaimCodes self (<[idx := setClaimedBy claim v]> (claimCodes self))) c
  = Some (idx, setClaimedBy claim v).
Proof.
  intros H. unfold getClaimCode in *. simpl.
  rewrite length_insert.
  apply scanClaimCodes_insert with (claim := claim); [|assumption].
  simpl. apply scanClaimCodes_Some in H. tauto.
Qed.

Lemma claimedByOther_test (claim : ClaimCode) (email : string) :
  negb (multi claim) && truthy (claimedBy claim)
  && strictNe (claimedBy claim) email = true
  <-> claimedByOther claim email.
Proof.
  unfold claimedByOther.
  rewrite !andb_true_iff, negb_true_iff.
  assert (strictNe (claimedBy claim) email = true
          <-> claimedBy claim <> Some email) as ->.
  { destruct (claimedBy claim) as [s|]; simpl.
    - rewrite negb_true_iff, String.eqb_neq. split; congruence.
    - split; [discriminate|reflexivity]. }
  tauto.
Qed.

(** C4, amended.  [redeemClaimCode(c, u)] returns [null] when no stored
    code is the normalization of [c]; it returns [false] and leaves the
    badge as it is when the claim found is single-use and claimed by
    another user; otherwise it writes [u] into [claimedBy] of that claim,
    where the setter of the path stores it trimmed, and returns [true];
    and for a [u] without white space at its ends, a redemption that
    returned [true] returns [true] again for the same user, without
    changing the badge any further. *)
Theorem redeemClaimCode_cases (self : Badge) (c u : string) :
  ((forall claim, In claim (claimCodes self) -> code claim <> normalizeCode c) ->
   redeemClaimCode self c u = (None, self))
  /\ (forall idx claim,
        getClaimCode self c = Some (idx, claim) ->
        claimedByOther claim u ->
        redeemClaimCode self c u = (Some false, self))
  /\ (forall idx claim,
        getClaimCode self c = Some (idx, claim) ->
        ~ claimedByOther claim u ->
        let self' :=
          setClaimCodes self
            (<[idx := setClaimedBy claim (Some u)]> (claimCodes self)) in
        redeemClaimCode self c u = (Some true, self')
        /\ getClaimCode self' c = Some (idx, setClaimedBy claim (Some u))
        /\ claimedBy (setClaimedBy claim (Some u)) = Some (trim u))
  /\ (trim u = u ->
      forall self1,
        redeemClaimCode self c u = (Some true, self1) ->
        redeemClaimCode self1 c u = (Some true, self1)).
Proof.
  split; [|split; [|split]].
  - intros H. apply getClaimCode_None in H.
    unfold redeemClaimCode. rewrite H. reflexivity.
  - intros idx claim Hget Hother.
    unfold redeemClaimCode. rewrite Hget.
    apply claimedByOther_test in Hother. rewrite Hother. reflexivity.
  - intros idx claim Hget Hnot self'.
    split; [|split].
    + unfold redeemClaimCode. rewrite Hget.
      destruct (negb (multi claim) && truthy (claimedBy claim)
                && strictNe (claimedBy claim) u) eqn:Htest.
      * exfalso. apply Hnot, claimedByOther_test, Htest.
      * reflexivity.
    + apply getClaimCode_written, Hget.
    + reflexivity.
  - intros Htrim self1. unfold redeemClaimCode at 1.
    destruct (getClaimCode self c) as [[idx claim]|] eqn:Hget; [|discriminate].
    destruct (negb (multi claim) && truthy (claimedBy claim)
              && strictNe (claimedBy claim) u); [discriminate|].
    intros [= <-].
    unfold redeemClaimCode.
    rewrite (getClaimCode_written self c idx claim (Some u) Hget).
    cbn [setClaimedBy claimedBy multi trimSetter option_map strictNe].
    rewrite Htrim, String.eqb_refl, andb_false_r.
    cbn [setClaimCodes claimCodes code reservedFor].
    rewrite list_insert_insert_eq. reflexivity.
Qed.

(** C4 as stated fails for an address with white space at its ends: the
    first redemption stores the trimmed address, which the second one
    compares with the address as given and takes for another user. *)
Lemma redeemClaimCode_padded_user :
  exists self1,
    redeemClaimCode Sample.codedBadge "open-code" " bob@example.org "
    = (Some true, self1)
    /\ redeemClaimCode self1 "open-code" " bob@example.org "
       = (Some false, self1)
    /\ option_map (fun found => claimedBy (snd found))
         (getClaimCode self1 "open-code")
       = Some (Some "bob@example.org").
Proof. eexists. repeat split; vm_compute; reflexivity. Qed.

Lemma redeemClaimCode_cases_witness :
  redeemClaimCode Sample.codedBadge "nothing" "bob@example.org"
  = (None, Sample.codedBadge)
  /\ redeemClaimCode Sample.codedBadge " My Code " "bob@example.org"
     = (Some false, Sample.codedBadge)
  /\ fst (redeemClaimCode Sample.codedBadge "Open Code" "bob@example.org")
     = Some true.
Proof.
  destruct (redeemClaimCode_cases Sample.codedBadge "nothing" "bob@example.org")
    as (Hnone & _).
  destruct (redeemClaimCode_cases Sample.codedBadge " My Code " "bob@example.org")
    as (_ & Hother & _).
  destruct (redeemClaimCode_cases Sample.codedBadge "Open Code" "bob@example.org")
    as (_ & _ & Hfree & _).
  split; [|split].
  - apply Hnone. simpl. intros claim [<-|[<-|[<-|[]]]]; vm_compute; discriminate.
  - apply (Hother 0%nat
             {| code := "my-code"; claimedBy := Some "alice@example.org";
                reservedFor := None; multi := false |}).
    + vm_compute. reflexivity.
    + unfold claimedByOther. simpl. repeat split. discriminate.
  - assert (getClaimCode Sample.codedBadge "Open Code"
            = Some (1%nat, {| code := "open-code"; claimedBy := None;
                              reservedFor := None; multi := false |})) as Hget
      by (vm_compute; reflexivity).
    assert (~ claimedByOther
                {| code := "open-code"; claimedBy := None;
                   reservedFor := None; multi := false |} "bob@example.org")
      as Hnot by (intros (_ & H & _); discriminate H).
    destruct (Hfree _ _ Hget Hnot) as (-> & _). reflexivity.
Defined.

(** C10. When a stored code is the normalization of the input,
    [releaseClaimCode] writes [claimedBy = null] into the claim found and
    returns [true]; when none is, it throws a TypeError, where the other
    lookups ([getClaimCode], [claimCodeIsClaimed], [redeemClaimCode])
    return [null]. *)
Theorem releaseClaimCode_cases (self : Badge) (c : string) :
  ((exists claim, In claim (claimCodes self) /\ code claim = normalizeCode c) ->
   exists idx claim,
     getClaimCode self c = Some (idx, claim)
     /\ let self' :=
          setClaimCodes self
            (<[idx := setClaimedBy claim None]> (claimCodes self)) in
        releaseClaimCode self c = Normal (true, self')
        /\ getClaimCode self' c = Some (idx, setClaimedBy claim None)
        /\ claimedBy (setClaimedBy claim None) = None)
  /\ ((forall claim, In claim (claimCodes self) -> code claim <> normalizeCode c) ->
      releaseClaimCode self c = Throw TypeError
      /\ getClaimCode self c = None
      /\ claimCodeIsClaimed self c = None
      /\ forall u, redeemClaimCode self c u = (None, self)).
Proof.
  split.
  - intros (claim0 & Hin & Hcode).
    destruct (getClaimCode self c) as [[idx claim]|] eqn:Hget.
    + exists idx, claim. split; [reflexivity|]. intros self'.
      split; [|split].
      * unfold releaseClaimCode. rewrite Hget. reflexivity.
      * apply getClaimCode_written, Hget.
      * reflexivity.
    + exfalso. exact (proj1 (getClaimCode_None self c) Hget claim0 Hin Hcode).
  - intros H. apply getClaimCode_None in H.
    unfold releaseClaimCode, claimCodeIsClaimed, redeemClaimCode.
    rewrite H. auto.
Qed.

Lemma releaseClaimCode_cases_witness :
  (exists self', releaseClaimCode Sample.codedBadge "My Code" = Normal (true, self'))
  /\ releaseClaimCode Sample.codedBadge "nothing" = Throw TypeError.
Proof.
  destruct (releaseClaimCode_cases Sample.codedBadge "My Code") as (Hfound & _).
  destruct (releaseClaimCode_cases Sample.codedBadge "nothing") as (_ & Hnone).
  split.
  - destruct Hfound as (idx & claim & _ & Hrel & _).
    + eexists. split; [left; reflexivity|]. vm_compute. reflexivity.
    + eexists. exact Hrel.
  - apply Hnone. simpl. intros claim [<-|[<-|[<-|[]]]]; vm_compute; discriminate.
Defined.

(** ** Adding claim codes *)

(** C7. When [reservedFor] is given and [options.codes] does not hold
    exactly one code, [addClaimCodes] throws before it reads or writes
    anything: the completion carries no badge and no store, both stay as
    they were, so no code is added.  In every other case it does not
    throw. *)
Theorem addClaimCodes_reservedFor (options : AddOptions.t) (self : Badge)
    (st : State) :
  (truthy (AddOptions.reservedFor options) = true ->
   length (AddOptions.codes options) <> 1%nat ->
   addClaimCodes options self st = Throw (Error reservedForMessage))
  /\ (forall e, addClaimCodes options self st = Throw e ->
        truthy (AddOptions.reservedFor options) = true
        /\ length (AddOptions.codes options) <> 1%nat).
Proof.
  unfold addClaimCodes. split.
  - intros Hres Hlen. rewrite Hres.
    apply Nat.eqb_neq in Hlen. rewrite Hlen. reflexivity.
  - intros e.
    destruct (truthy (AddOptions.reservedFor options)); simpl.
    + destruct (Nat.eqb_spec (length (AddOptions.codes options)) 1).
      * simpl. destruct (sortCodes _ _ _) as [accepted rejected].
        destruct (Nat.eqb (length accepted) 0); [discriminate|].
        destruct (save _ _) as [[err doc]|[doc st']]; discriminate.
      * auto.
    + destruct (sortCodes _ _ _) as [accepted rejected].
      destruct (Nat.eqb (length accepted) 0); [discriminate|].
      destruct (save _ _) as [[err doc]|[doc st']]; discriminate.
Qed.

Lemma addClaimCodes_reservedFor_witness :
  addClaimCodes
    {| AddOptions.codes := ["a"; "b"]; AddOptions.limit := None;
       AddOptions.multi := false;
       AddOptions.reservedFor := Some "bob@example.org";
       AddOptions.alreadyClean := false |}
    Sample.emptyBadge Sample.plainState
  = Throw (Error reservedForMessage).
Proof.
  apply (proj1 (addClaimCodes_reservedFor _ _ _)).
  - reflexivity.
  - simpl. lia.
Defined.

(** ** The category fields after validation *)

(** C8. The document that the [normalizeCategoryInfo] hook leaves behind,
    which is the one [save] stores, is a capstone or a contributor and
    never both: with [categoryAward] set, its weight is 0 and it tags no
    category; without, its requirement is 0. *)
Theorem normalizeCategoryInfo_exclusive (self : Badge) (st : State) :
  let doc := normalizeCategoryInfo self in
  (truthy (categoryAward doc) = true ->
   categoryWeight doc = 0 /\ categories doc = [])
  /\ (truthy (categoryAward doc) = false -> categoryRequirement doc = 0)
  /\ ~ (categoryWeight doc <> 0 /\ categoryRequirement doc <> 0)
  /\ fst (saveBadge st self) = doc
  /\ In doc (badgeDocs (snd (saveBadge st self))).
Proof.
  intros doc. subst doc.
  assert (truthy (categoryAward (normalizeCategoryInfo self))
          = truthy (categoryAward self)) as Hsame.
  { unfold normalizeCategoryInfo.
    destruct (truthy (categoryAward self)) eqn:H; simpl; rewrite H; reflexivity. }
  rewrite Hsame.
  split; [|split; [|split; [|split]]].
  - intros H. unfold normalizeCategoryInfo. rewrite H. auto.
  - intros H. unfold normalizeCategoryInfo. rewrite H. reflexivity.
  - unfold normalizeCategoryInfo.
    destruct (truthy (categoryAward self)); simpl; tauto.
  - unfold saveBadge. destruct (existsb _ _); reflexivity.
  - unfold saveBadge.
    destruct (existsb _ _) eqn:Hex; simpl.
    + apply existsb_exists in Hex as (b & Hin & Hb).
      apply in_map_iff. exists b. rewrite Hb. auto.
    + apply in_or_app. right. left. reflexivity.
Qed.

(** ** The sorting of candidates into accepted and rejected *)

Section SortCodes.

Variable existingCodes : list string.
Variable limit : Limit.

Lemma sortStep_saturated (accepted rejected codes : list string) :
  lengthGe accepted limit = true ->
  fold_left (sortStep existingCodes limit) codes (accepted, rejected)
  = (accepted, (rejected ++ codes)%list).
Proof.
  intros Hfull. revert rejected.
  induction codes as [|c codes IH]; intros rejected; simpl.
  - now rewrite app_nil_r.
  - rewrite Hfull, orb_true_r, IH, <- app_assoc. reflexivity.
Qed.

(** What is accepted comes from the candidates and is in use nowhere. *)
Lemma sortStep_accepted (codes accepted rejected accepted' rejected' : list string) :
  fold_left (sortStep existingCodes limit) codes (accepted, rejected)
  = (accepted', rejected') ->
  exists new,
    accepted' = (accepted ++ new)%list
    /\ (forall c, In c new -> In c codes /\ inArray existingCodes c = false)
    /\ (List.NoDup codes -> List.NoDup new).
Proof.
  revert accepted rejected.
  induction codes as [|c codes IH]; intros accepted rejected; simpl.
  - intros [= <- <-]. exists []. rewrite app_nil_r.
    split; [reflexivity|]. split; [intros ? []|constructor].
  - destruct (inArray existingCodes c || lengthGe accepted limit) eqn:Htest.
    + intros H. destruct (IH _ _ H) as (new & -> & Hnew & Hnd).
      exists new. split; [reflexivity|]. split.
      * intros x Hx. destruct (Hnew x Hx). auto.
      * intros Hcs. apply Hnd. now inversion Hcs.
    + intros H. destruct (IH _ _ H) as (new & -> & Hnew & Hnd).
      apply orb_false_iff in Htest as [Hfresh _].
      exists (c :: new). rewrite <- app_assoc. split; [reflexivity|]. split.
      * intros x [<-|Hx]; [auto|]. destruct (Hnew x Hx). auto.
      * intros Hcs. inversion Hcs as [|? ? Hc Hcs']; subst.
        constructor; [|auto]. intros Hin. apply Hc. now apply Hnew.
Qed.

(** Candidates that are all unused are all accepted while there is
    room. *)
Lemma sortStep_all_fresh (codes accepted rejected : list string) :
  (forall c, In c codes -> inArray existingCodes c = false) ->
  (forall len, (length accepted <= len < length accepted + length codes)%nat ->
               forall l, length l = len -> lengthGe l limit = false) ->
  fold_left (sortStep existingCodes limit) codes (accepted, rejected)
  = ((accepted ++ codes)%list, rejected).
Proof.
  revert accepted.
  induction codes as [|c codes IH]; intros accepted Hfresh Hroom; simpl.
  - now rewrite app_nil_r.
  - rewrite (Hfresh c) by (left; reflexivity).
    rewrite (Hroom (length accepted)) by (simpl; lia || reflexivity). simpl.
    rewrite IH.
    + now rewrite <- app_assoc.
    + intros x Hx. apply Hfresh. now right.
    + intros len Hlen. apply Hroom. rewrite length_app in Hlen. simpl in *. lia.
Qed.

End SortCodes.

(** With a limit that is not zero, no more than [limit] candidates are
    accepted. *)
Lemma sortStep_bounded (existingCodes : list string) (n : Z)
    (codes accepted rejected accepted' rejected' : list string) :
  fold_left (sortStep existingCodes (Finite n)) codes (accepted, rejected)
  = (accepted', rejected') ->
  Z.of_nat (length accepted) <= n ->
  Z.of_nat (length accepted') <= n.
Proof.
  revert accepted rejected.
  induction codes as [|c codes IH]; intros accepted rejected; simpl.
  - intros [= <- <-]. auto.
  - destruct (inArray existingCodes c || (n <=? Z.of_nat (length accepted)))
      eqn:Htest.
    + intros H Hle. eapply IH; eauto.
    + intros H Hle. eapply IH; eauto.
      apply orb_false_iff in Htest as [_ Hlt]. apply Z.leb_gt in Hlt.
      rewrite length_app. simpl. lia.
Qed.

(** Once [n] candidates are accepted, the rest of the batch is rejected. *)
Lemma sortCodes_beyond_limit (existingCodes : list string) (n : Z)
    (before after : list string) :
  let '(accepted, rejected) := sortCodes existingCodes (Finite n) before in
  n <= Z.of_nat (length accepted) ->
  sortCodes existingCodes (Finite n) (before ++ after)
  = (accepted, (rejected ++ after)%list).
Proof.
  unfold sortCodes. rewrite fold_left_app.
  destruct (fold_left _ before _) as [accepted rejected].
  intros Hfull. apply sortStep_saturated. simpl. now apply Z.leb_le.
Qed.

(** A limit of [0] is no limit: [0 || Infinity] is [Infinity]. *)
Lemma limitOrInfinity_zero : limitOrInfinity (Some 0) = limitOrInfinity None.
Proof. reflexivity. Qed.

Lemma limitOrInfinity_nonzero (n : Z) :
  n <> 0 -> limitOrInfinity (Some n) = Finite n.
Proof.
  intros Hn. unfold limitOrInfinity.
  destruct (Z.eqb_spec n 0); [contradiction|reflexivity].
Qed.

Lemma sortCodes_zero_limit_accepts (existingCodes codes : list string) :
  (forall c, In c codes -> inArray existingCodes c = false) ->
  sortCodes existingCodes (limitOrInfinity (Some 0)) codes = (codes, []).
Proof.
  intros Hfresh. unfold sortCodes.
  rewrite sortStep_all_fresh; [reflexivity|assumption|reflexivity].
Qed.

(** C1, at the input of the scenario.  The store holds no claim code and
    [addClaimCodes] is called with [codes = ["a"]] and [limit = 0]: the
    code is accepted, and pushed onto the badge, where the scenario
    expects it rejected.  The limit takes effect only when it is not 0
    ([sortCodes_beyond_limit], [sortStep_bounded]). *)
Theorem addClaimCodes_limit_zero :
  exists doc st',
    addClaimCodes
      {| AddOptions.codes := ["a"]; AddOptions.limit := Some 0;
         AddOptions.multi := false; AddOptions.reservedFor := None;
         AddOptions.alreadyClean := false |}
      Sample.emptyBadge Sample.plainState
    = Normal (["a"], [], doc, st')
    /\ List.map code (claimCodes doc) = ["a"]
    /\ getAllClaimCodes Sample.plainState = []
    /\ getAllClaimCodes st' = ["a"].
Proof.
  do 2 eexists. split; [vm_compute; reflexivity|].
  repeat split.
Qed.

(** ** Behaviours and credits *)

Lemma fold_andb_true (values : list bool) (result : bool) :
  fold_left (fun result value => result && value) values result = true
  <-> result = true /\ Forall (fun value => value = true) values.
Proof.
  revert result. induction values as [|v values IH]; intros result; simpl.
  - split; [auto|tauto].
  - rewrite IH, andb_true_iff, Forall_cons_iff. tauto.
Qed.

Lemma earnableBy_true (self : Badge) (credit : gmap string Z) :
  earnableBy self credit = true
  <-> Forall (fun behavior =>
                exists c, credit !! behaviorName behavior = Some c
                          /\ count behavior <= c)
        (behaviors self).
Proof.
  unfold earnableBy. rewrite fold_andb_true, Forall_map.
  split.
  - intros [_ H]. eapply Forall_impl; [exact H|]. simpl.
    intros behavior. destruct (credit !! behaviorName behavior) as [c|].
    + intros Hle. exists c. split; [reflexivity|]. now apply Z.leb_le.
    + discriminate.
  - intros H. split; [reflexivity|].
    eapply Forall_impl; [exact H|]. simpl.
    intros behavior (c & -> & Hle). now apply Z.leb_le.
Qed.

Lemma gapStep_fold_empty (credit : gmap string Z) (bs : list Behavior)
    (result : gmap string Z) :
  fold_left (gapStep credit) bs result = ∅
  <-> result = ∅
      /\ Forall (fun behavior =>
                   count behavior <= creditOrZero credit (behaviorName behavior))
           bs.
Proof.
  revert result. induction bs as [|b bs IH]; intros result; simpl.
  - split; [auto|tauto].
  - rewrite IH, Forall_cons_iff. unfold gapStep.
    destruct (Z.ltb_spec (creditOrZero credit (behaviorName b)) (count b)).
    + split.
      * intros [Hempty _]. now apply insert_non_empty in Hempty.
      * intros [_ [Hle _]]. lia.
    + tauto.
Qed.

Lemma creditsUntilAward_empty (self : Badge) (credit : gmap string Z) :
  creditsUntilAward self credit = ∅
  <-> Forall (fun behavior =>
                count behavior <= creditOrZero credit (behaviorName behavior))
        (behaviors self).
Proof.
  unfold creditsUntilAward. rewrite gapStep_fold_empty. tauto.
Qed.

(** The two methods agree as long as every behaviour of the badge either
    has an entry in the tally or asks for some credit. *)
Lemma earnableBy_iff_no_gap (self : Badge) (credit : gmap string Z) :
  Forall (fun behavior =>
            is_Some (credit !! behaviorName behavior) \/ 0 < count behavior)
    (behaviors self) ->
  earnableBy self credit = true <-> creditsUntilAward self credit = ∅.
Proof.
  rewrite earnableBy_true, creditsUntilAward_empty.
  induction 1 as [|b bs Hb _ IH]; [split; constructor|].
  rewrite !Forall_cons_iff, IH.
  assert ((exists c, credit !! behaviorName b = Some c /\ count b <= c)
          <-> count b <= creditOrZero credit (behaviorName b)) as ->; [|tauto].
  unfold creditOrZero.
  destruct (credit !! behaviorName b) as [c|] eqn:Hc.
  - destruct (Z.eqb_spec c 0) as [->|_].
    + split; [intros (c & [= <-] & Hle); exact Hle|eauto].
    + split; [intros (c' & [= <-] & Hle); exact Hle|eauto].
  - destruct Hb as [[c' Hc']|Hpos]; [discriminate|].
    split; [intros (c & Hc' & _); discriminate|lia].
Qed.

(** C9, at the input where the two methods part.  The badge names one
    behaviour with a threshold of 0 and the tally has no entry for it:
    [creditsUntilAward] reads the missing entry as 0 and reports no gap,
    [earnableBy] compares [undefined >= 0] and answers false.  Everywhere
    else the two agree ([earnableBy_iff_no_gap]). *)
Theorem earnableBy_missing_entry :
  creditsUntilAward Scenario.freeBadge ∅ = ∅
  /\ earnableBy Scenario.freeBadge ∅ = false.
Proof.
  split.
  - apply creditsUntilAward_empty. repeat constructor. vm_compute. discriminate.
  - reflexivity.
Qed.

(** ** The store under awards *)

Lemma optStringEqb_eq (a b : option string) :
  optStringEqb a b = true <-> a = b.
Proof.
  destruct a as [x|], b as [y|]; simpl;
    rewrite ?String.eqb_eq; split; congruence.
Qed.

Lemma hasKey_true (st : State) (key : option string) :
  hasKey st key = true <-> In key (List.map userBadgeKey (instanceDocs st)).
Proof.
  unfold hasKey. rewrite existsb_exists, in_map_iff.
  split; intros (i & H1 & H2).
  - apply optStringEqb_eq in H2. eauto.
  - exists i. rewrite optStringEqb_eq. auto.
Qed.

Lemma hasKey_false (st : State) (key : option string) :
  hasKey st key = false <-> ~ In key (List.map userBadgeKey (instanceDocs st)).
Proof.
  rewrite <- hasKey_true. destruct (hasKey st key); split; congruence.
Qed.

Lemma grows_refl (s : State) : grows s s.
Proof.
  split; [reflexivity|]. split; [|split; [auto|]].
  - exists []. now rewrite app_nil_r.
  - exists []. now rewrite app_nil_r.
Qed.

Lemma grows_trans (s1 s2 s3 : State) :
  grows s1 s2 -> grows s2 s3 -> grows s1 s3.
Proof.
  intros (Hb1 & (m1 & Hi1) & Hu1 & (l1 & Hc1))
         (Hb2 & (m2 & Hi2) & Hu2 & (l2 & Hc2)).
  split; [congruence|]. split; [|split; [auto|]].
  - exists (m1 ++ m2)%list. rewrite Hi2, Hi1, app_assoc. reflexivity.
  - exists (l1 ++ l2)%list. rewrite Hc2, Hc1, app_assoc. reflexivity.
Qed.

Lemma grows_log (line : string) (s : State) : grows s (log line s).
Proof.
  split; [reflexivity|]. split; [|split; [auto|]].
  - exists []. simpl. now rewrite app_nil_r.
  - exists [line]. reflexivity.
Qed.

Lemma grows_insert (s : State) (i : BadgeInstance) :
  hasKey s (userBadgeKey i) = false -> grows s (insertInstance s i).
Proof.
  intros Hfree. split; [reflexivity|].
  split; [exists [i]; reflexivity|].
  split; [|exists []; simpl; now rewrite app_nil_r].
  unfold keysUnique. simpl. rewrite map_app. simpl.
  intros Hnd. apply NoDup_ListNoDup. apply NoDup_ListNoDup in Hnd.
  apply NoDup_app. split; [assumption|]. split; [|apply NoDup_singleton].
  intros k Hk Hk'. apply list_elem_of_singleton in Hk'. subst k.
  apply hasKey_false in Hfree. apply Hfree. now apply list_elem_of_In.
Qed.

Lemma grows_console (s s' : State) (line : string) :
  grows s s' -> In line (consoleLog s) -> In line (consoleLog s').
Proof.
  intros (_ & _ & _ & (lines & Hc)). rewrite Hc, in_app_iff. auto.
Qed.

Lemma grows_hasKey (s s' : State) (key : option string) :
  grows s s' -> hasKey s key = true -> hasKey s' key = true.
Proof.
  intros (_ & (more & Hi) & _). rewrite !hasKey_true, Hi, map_app, in_app_iff.
  auto.
Qed.

Lemma grows_In (s s' : State) (i : BadgeInstance) :
  grows s s' -> In i (instanceDocs s) -> In i (instanceDocs s').
Proof.
  intros (_ & (more & Hi) & _). rewrite Hi, in_app_iff. auto.
Qed.

Lemma filter_length_le {A : Type} (p q : A -> bool) (l : list A) :
  (forall x, In x l -> q x = true -> p x = true) ->
  (length (List.filter q l) <= length (List.filter p l))%nat.
Proof.
  induction l as [|x l IH]; intros H; simpl; [lia|].
  assert (length (List.filter q l) <= length (List.filter p l))%nat
    by (apply IH; intros; apply H; simpl; auto).
  destruct (q x) eqn:Hq.
  - rewrite (H x) by (simpl; auto). simpl. lia.
  - destruct (p x); simpl; lia.
Qed.

Lemma filter_length_lt {A : Type} (p q : A -> bool) (l : list A) (a : A) :
  (forall x, In x l -> q x = true -> p x = true) ->
  In a l -> p a = true -> q a = false ->
  (length (List.filter q l) < length (List.filter p l))%nat.
Proof.
  induction l as [|x l IH]; intros H Hin Hp Hq; simpl; [destruct Hin|].
  destruct Hin as [->|Hin].
  - rewrite Hp, Hq. simpl.
    pose proof (filter_length_le p q l) as Hle.
    specialize (Hle ltac:(intros; apply H; simpl; auto)). lia.
  - assert (length (List.filter q l) < length (List.filter p l))%nat
      by (apply IH; auto; intros; apply H; simpl; auto).
    destruct (q x) eqn:Hqx.
    + rewrite (H x) by (simpl; auto). simpl. lia.
    + destruct (p x); simpl; lia.
Qed.

Lemma pending_grows (s s' : State) (email : string) :
  grows s s' -> (pending s' email <= pending s email)%nat.
Proof.
  intros Hg. unfold pending. pose proof Hg as (Hb & _). rewrite Hb.
  apply filter_length_le. intros b _.
  rewrite !negb_true_iff. intros Hfree.
  destruct (hasKey s (keyFor email (_id b))) eqn:Hk; [|reflexivity].
  rewrite (grows_hasKey s s' _ Hg Hk) in Hfree. discriminate.
Qed.

Lemma pending_le_badges (s : State) (email : string) :
  (pending s email <= length (badgeDocs s))%nat.
Proof. unfold pending. apply List.filter_length_le. Qed.

Lemma pending_insert (s : State) (email : string) (self : Badge) (i : BadgeInstance) :
  In self (badgeDocs s) ->
  userBadgeKey i = keyFor email (_id self) ->
  hasKey s (userBadgeKey i) = false ->
  (pending (insertInstance s i) email < pending s email)%nat.
Proof.
  intros Hin Hkey Hfree. unfold pending. simpl.
  apply filter_length_lt with (a := self); [| assumption | |].
  - intros b _. rewrite !negb_true_iff. intros Hb.
    destruct (hasKey s (keyFor email (_id b))) eqn:Hk; [|reflexivity].
    rewrite (grows_hasKey s (insertInstance s i) _ (grows_insert s i Hfree) Hk) in Hb.
    discriminate.
  - rewrite <- Hkey, Hfree. reflexivity.
  - rewrite negb_false_iff, hasKey_true. simpl.
    rewrite map_app, in_app_iff. right. left. exact Hkey.
Qed.

Lemma filter_key_absent (l : list BadgeInstance) (key : option string) :
  ~ In key (List.map userBadgeKey l) ->
  List.filter (fun i => optStringEqb (userBadgeKey i) key) l = [].
Proof.
  induction l as [|i l IH]; simpl; [reflexivity|].
  intros Hnot.
  destruct (optStringEqb (userBadgeKey i) key) eqn:Hi.
  - apply optStringEqb_eq in Hi. tauto.
  - apply IH. tauto.
Qed.

(** Under a unique index, a key that is present is present once. *)
Lemma countKey_one (st : State) (key : option string) :
  keysUnique st -> hasKey st key = true -> countKey st key = 1%nat.
Proof.
  unfold keysUnique, hasKey, countKey.
  induction (instanceDocs st) as [|i l IH]; simpl; [discriminate|].
  intros Hnd. inversion Hnd as [|? ? Hnot Hnd']; subst.
  destruct (optStringEqb (userBadgeKey i) key) eqn:Hi; simpl.
  - intros _. apply optStringEqb_eq in Hi. subst key.
    now rewrite filter_key_absent.
  - auto.
Qed.

(** ** The callbacks of [async] *)

Lemma asyncMap_cons
    (iterator : Badge -> State -> option (AwardOutcome * State))
    (b : Badge) (rest : list Badge) (s : State) :
  asyncMap iterator (b :: rest) s
  = match iterator b s with
    | None => None
    | Some (Throws e, s1) => Some (Threw e, s1)
    | Some (Calls cb, s1) =>
        match asyncMap iterator rest s1 with
        | None => None
        | Some (results, s2) =>
            Some (match results, firstResult cb with
                  | Threw e, _ => Threw e
                  | _, inl err => Failed err
                  | Failed err, inr _ => Failed err
                  | Results vs, inr v => Results (v :: vs)
                  end, s2)
        end
    end.
Proof. reflexivity. Qed.

(** [async.map] ends when its iterator does. *)
Lemma asyncMap_ends
    (iterator : Badge -> State -> option (AwardOutcome * State))
    (good : Badge -> State -> Prop) :
  (forall b s s', good b s -> grows s s' -> good b s') ->
  (forall b s, good b s ->
     exists out s', iterator b s = Some (out, s') /\ grows s s') ->
  forall badges s,
    Forall (fun b => good b s) badges ->
    exists r s', asyncMap iterator badges s = Some (r, s') /\ grows s s'.
Proof.
  intros Hmono Hstep badges.
  induction badges as [|b rest IH]; intros s Hgood.
  - exists (Results []), s. split; [reflexivity|apply grows_refl].
  - inversion Hgood as [|? ? Hb Hrest]; subst.
    rewrite asyncMap_cons.
    destruct (Hstep b s Hb) as (out & s1 & -> & Hg1).
    destruct out as [cb|e]; [|eauto].
    assert (Forall (fun b => good b s1) rest) as Hrest1
      by (eapply Forall_impl; [exact Hrest|]; intros x Hx;
          exact (Hmono _ _ _ Hx Hg1)).
    destruct (IH s1 Hrest1) as (r & s2 & -> & Hg2).
    eexists _, s2. split; [reflexivity|eapply grows_trans; eauto].
Qed.

Lemma concatSeries_cons (fn : string -> State -> option (Gathered * State))
    (x : string) (rest : list string) (s : State) :
  concatSeries fn (x :: rest) s
  = match fn x s with
    | None => None
    | Some (Results y, s1) =>
        match concatSeries fn rest s1 with
        | None => None
        | Some (Results r, s2) => Some (Results (y ++ r)%list, s2)
        | Some (stopped, s2) => Some (stopped, s2)
        end
    | Some (stopped, s1) => Some (stopped, s1)
    end.
Proof. reflexivity. Qed.

Lemma concatSeries_ends (fn : string -> State -> option (Gathered * State))
    (goodS : State -> Prop) :
  (forall s s', goodS s -> grows s s' -> goodS s') ->
  (forall x s, goodS s -> exists y s', fn x s = Some (y, s') /\ grows s s') ->
  forall arr s,
    goodS s ->
    exists r s', concatSeries fn arr s = Some (r, s') /\ grows s s'.
Proof.
  intros Hmono Hstep arr.
  induction arr as [|x rest IH]; intros s Hgood.
  - exists (Results []), s. split; [reflexivity|apply grows_refl].
  - rewrite concatSeries_cons.
    destruct (Hstep x s Hgood) as (y & s1 & -> & Hg1).
    destruct y as [e|err|y]; [eauto|eauto|].
    destruct (IH s1 (Hmono _ _ Hgood Hg1)) as (r & s2 & -> & Hg2).
    destruct r as [e|err|r]; eexists _, s2;
      (split; [reflexivity|eapply grows_trans; eauto]).
Qed.

(** ** The save of the instance that [award] creates *)

Lemma key_not_empty (u id : string) :
  String.eqb (u ++ "." ++ id) "" = false.
Proof. destruct u; reflexivity. Qed.

Lemma saveInstance_new (X : Externals) (st : State) (email id : string) :
  saveInstance X st (newBadgeInstance email id)
  = match findOneByShortname st id with
    | None => Throw TypeError
    | Some found =>
        match makeAssertion X found (trim email) with
        | inl err => Errback err (newBadgeInstance email id, st)
        | inr a =>
            if negb (validUser (trim email)
                     && truthy (Some (trim a))
                     && truthy (Some (util_hash X (trim a))))
            then Errback validationError (awarded X email id a, st)
            else if hasKey st (keyFor email id)
                 then Errback duplicateKeyError (awarded X email id a, st)
                 else Normal (awarded X email id a,
                              insertInstance st (awarded X email id a))
        end
    end.
Proof.
  unfold saveInstance, assertionDefault, newBadgeInstance.
  cbn [assertion truthy badge user].
  destruct (findOneByShortname st id) as [found|]; [|reflexivity].
  destruct (makeAssertion X found (trim email)) as [err|a]; [reflexivity|].
  unfold hashDefault, userBadgeKeyDefault, setAssertion, setHash, validInstance.
  cbn [hash truthy userBadgeKey user badge assertion trimSetter option_map
       default seen].
  rewrite key_not_empty. cbn [negb]. rewrite andb_true_r.
  reflexivity.
Qed.

(** The first thing [award] does decides how it goes on. *)
Lemma award_S (X : Externals) (fuel : nat) (email : string) (sendEmail : bool)
    (self : Badge) (st : State) :
  award X (S fuel) {| AwardOptions.user := email;
                      AwardOptions.sendEmail := sendEmail |} self st
  = match saveInstance X st (newBadgeInstance email (_id self)) with
    | Throw e => Some (Throws e, st)
    | Errback err _ =>
        if isDuplicateKey err then Some (Calls CbNothing, st)
        else Some (Calls (CbError err), st)
    | Normal (saved, st1) =>
        if negb (checkForCategoryBadges self)
        then Some (Calls (CbResult (VInstance saved) []),
                   if sendEmail then log "WRITE SEND EMAIL CODE" st1 else st1)
        else
          match concatSeries
                  (fun category s =>
                     asyncMap (award X fuel (newOpts email))
                       (cascadeTargets s email category) s)
                  (categories self)
                  (if sendEmail then log "WRITE SEND EMAIL CODE" st1 else st1)
          with
          | None => None
          | Some (Threw e, st3) => Some (Throws e, st3)
          | Some (Failed err, st3) => Some (Calls (CbError err), st3)
          | Some (Results instances, st3) =>
              Some (Calls (CbResult (VArray instances) instances), st3)
          end
    end.
Proof. reflexivity. Qed.

Lemma cascadeTargets_stored (s : State) (email category : string) (b : Badge) :
  In b (cascadeTargets s email category) -> In b (badgeDocs s).
Proof.
  unfold cascadeTargets, filterByOwned, filterByScore, getCategoryBadges,
    findByCategoryAward.
  rewrite !filter_In. tauto.
Qed.

Lemma awarded_key (X : Externals) (email id a : string) :
  userBadgeKey (awarded X email id a) = keyFor email id.
Proof. reflexivity. Qed.

Lemma afterSave_grows (saved : BadgeInstance) (sendEmail : bool) (st : State) :
  hasKey st (userBadgeKey saved) = false ->
  grows st (afterSave saved sendEmail st).
Proof.
  intros Hkey. unfold afterSave.
  assert (grows st (insertInstance st saved)) as Hg
    by (apply grows_insert; exact Hkey).
  destruct sendEmail; [|exact Hg].
  eapply grows_trans; [exact Hg|apply grows_log].
Qed.

Lemma afterSave_In (saved : BadgeInstance) (sendEmail : bool) (st : State) :
  In saved (instanceDocs (afterSave saved sendEmail st)).
Proof.
  unfold afterSave. destruct sendEmail; simpl;
    rewrite in_app_iff; right; left; reflexivity.
Qed.

(** ** [award] ends *)

(** With enough fuel [award] ends, whatever the hooks and the validators
    do: a badge of the store needs more fuel than the user has badges
    pending, any other badge one unit more. *)
Lemma award_ends (X : Externals) (email : string) (fuel : nat) :
  forall (sendEmail : bool) (self : Badge) (st : State),
    (In self (badgeDocs st) /\ (pending st email < fuel)%nat)
    \/ (pending st email + 1 < fuel)%nat ->
    exists out st',
      award X fuel {| AwardOptions.user := email;
                      AwardOptions.sendEmail := sendEmail |} self st
      = Some (out, st')
      /\ grows st st'.
Proof.
  induction fuel as [|fuel IH]; intros sendEmail self st Hfuel; [lia|].
  rewrite award_S, saveInstance_new.
  destruct (findOneByShortname st (_id self)) as [found|];
    [|eexists _, st; split; [reflexivity|apply grows_refl]].
  destruct (makeAssertion X found (trim email)) as [err|a].
  { destruct (isDuplicateKey err); eexists _, st;
      (split; [reflexivity|apply grows_refl]). }
  destruct (negb _).
  { eexists _, st; split; [reflexivity|apply grows_refl]. }
  destruct (hasKey st (keyFor email (_id self))) eqn:Hkey.
  { eexists _, st; split; [reflexivity|apply grows_refl]. }
  set (saved := awarded X email (_id self) a).
  change (if sendEmail
          then log "WRITE SEND EMAIL CODE" (insertInstance st saved)
          else insertInstance st saved)
    with (afterSave saved sendEmail st).
  set (st2 := afterSave saved sendEmail st).
  assert (grows st st2) as Hg2 by (apply afterSave_grows; exact Hkey).
  destruct (checkForCategoryBadges self); cbn [negb]; [|eauto].
  assert (pending st2 email < fuel)%nat as Hpending.
  { assert (grows (insertInstance st saved) st2) as Hg12
      by (subst st2; unfold afterSave; destruct sendEmail;
          [apply grows_log|apply grows_refl]).
    pose proof (pending_grows _ _ email Hg12).
    destruct Hfuel as [[Hin Hlt]|Hlt].
    - pose proof (pending_insert st email self saved Hin eq_refl Hkey). lia.
    - pose proof (pending_grows st _ email
                    (grows_insert st saved Hkey)). lia. }
  destruct (concatSeries_ends
              (fun category s =>
                 asyncMap (award X fuel (newOpts email))
                   (cascadeTargets s email category) s)
              (fun s => (pending s email < fuel)%nat))
    with (arr := categories self) (s := st2)
    as (r & st3 & -> & Hg3).
  - intros s s' Hs Hg. pose proof (pending_grows s s' email Hg). lia.
  - intros category s Hs.
    apply (asyncMap_ends (award X fuel (newOpts email))
             (fun b s => In b (badgeDocs s) /\ (pending s email < fuel)%nat)).
    + intros b s0 s' [Hin Hlt] Hg. split.
      * destruct Hg as (-> & _). exact Hin.
      * pose proof (pending_grows s0 s' email Hg). lia.
    + intros b s0 Hb. exact (IH true b s0 (or_introl Hb)).
    + apply List.Forall_forall. intros b Hb. split; [|exact Hs].
      eapply cascadeTargets_stored; exact Hb.
  - exact Hpending.
  - destruct r as [e|err|instances]; eexists _, st3;
      (split; [reflexivity|eapply grows_trans; eauto]).
Qed.

(** ** The cascade of one category *)

Lemma append_cancel_l (p a b : string) : (p ++ a = p ++ b)%string -> a = b.
Proof.
  induction p as [|c p IH]; simpl; [auto|].
  intros [= H]. auto.
Qed.

Lemma keyFor_inj (email id1 id2 : string) :
  keyFor email id1 = keyFor email id2 -> id1 = id2.
Proof.
  unfold keyFor. intros [= H].
  apply append_cancel_l in H. now injection H.
Qed.

(** The badges handed to [awardBadges] are the capstones of the category
    whose requirement the score meets and that [userHasBadge] does not
    find under the user's address and their shortname. *)
Lemma cascadeTargets_spec (s : State) (email category : string) (B : Badge) :
  In B (cascadeTargets s email category)
  <-> In B (badgeDocs s)
      /\ categoryAward B = Some category
      /\ categoryRequirement B <= categoryScore s email category
      /\ userHasBadge s email (shortname B) = false.
Proof.
  unfold cascadeTargets, filterByOwned, filterByScore, getCategoryBadges,
    findByCategoryAward.
  rewrite !filter_In, optStringEqb_eq, Z.leb_le, negb_true_iff. tauto.
Qed.

(** A capstone of a category with a name is no contributor. *)
Lemma capstone_plain (category : string) (B : Badge) :
  category <> "" -> categoryAward B = Some category ->
  checkForCategoryBadges B = false.
Proof.
  intros Hname HB. unfold checkForCategoryBadges. rewrite HB. simpl.
  apply String.eqb_neq in Hname. now rewrite Hname.
Qed.

(** ** How an award goes on after the save *)

Lemma assertable_save (X : Externals) (st : State) (email id a : string) :
  assertable X st email id a ->
  validUser (trim email) = true ->
  saveInstance X st (newBadgeInstance email id)
  = if hasKey st (keyFor email id)
    then Errback duplicateKeyError (awarded X email id a, st)
    else Normal (awarded X email id a,
                 insertInstance st (awarded X email id a)).
Proof.
  intros (found & Hfound & Hmade & Ha & Hh) Hvalid.
  rewrite saveInstance_new, Hfound, Hmade, Hvalid.
  apply String.eqb_neq in Ha, Hh. cbn [truthy]. rewrite Ha, Hh.
  reflexivity.
Qed.

Lemma assertable_grows (X : Externals) (st st' : State) (email id a : string) :
  grows st st' -> assertable X st email id a -> assertable X st' email id a.
Proof.
  intros (Hb & _) (found & Hfound & Hrest). exists found.
  split; [|exact Hrest]. unfold findOneByShortname in *. now rewrite Hb.
Qed.

(** No badge has the [_id] as its [shortname]: the hook throws. *)
Lemma award_throws (X : Externals) (fuel : nat) (options : AwardOptions.t)
    (self : Badge) (st : State) :
  findOneByShortname st (_id self) = None ->
  award X (S fuel) options self st = Some (Throws TypeError, st).
Proof.
  intros Hnone. destruct options as [email sendEmail].
  rewrite award_S, saveInstance_new, Hnone. reflexivity.
Qed.

Section Assertable.

Variable X : Externals.
Variable email : string.
Hypothesis email_valid : validUser (trim email) = true.

(** The key is taken: the save is refused by the index, and the callback
    gets nothing. *)
Lemma award_held (fuel : nat) (sendEmail : bool) (self : Badge) (st : State)
    (a : string) :
  assertable X st email (_id self) a ->
  hasKey st (keyFor email (_id self)) = true ->
  award X (S fuel) {| AwardOptions.user := email;
                      AwardOptions.sendEmail := sendEmail |} self st
  = Some (Calls CbNothing, st).
Proof.
  intros Ha Hkey.
  rewrite award_S, (assertable_save X st email _ a Ha email_valid), Hkey.
  reflexivity.
Qed.

(** [award] on a badge that is no contributor: one save, one callback. *)
Lemma award_plain (fuel : nat) (sendEmail : bool) (self : Badge) (st : State)
    (a : string) :
  assertable X st email (_id self) a ->
  hasKey st (keyFor email (_id self)) = false ->
  checkForCategoryBadges self = false ->
  award X (S fuel) {| AwardOptions.user := email;
                      AwardOptions.sendEmail := sendEmail |} self st
  = Some (Calls (CbResult (VInstance (awarded X email (_id self) a)) []),
          afterSave (awarded X email (_id self) a) sendEmail st).
Proof.
  intros Ha Hkey Hcheck.
  rewrite award_S, (assertable_save X st email _ a Ha email_valid), Hkey,
    Hcheck.
  reflexivity.
Qed.

(** A fresh award of a contributor is the series of its categories'
    waterfalls, started after the save. *)
Lemma award_contributor (fuel : nat) (sendEmail : bool) (self : Badge)
    (st : State) (a : string) :
  assertable X st email (_id self) a ->
  hasKey st (keyFor email (_id self)) = false ->
  checkForCategoryBadges self = true ->
  award X (S fuel) {| AwardOptions.user := email;
                      AwardOptions.sendEmail := sendEmail |} self st
  = match concatSeries
            (fun category s =>
               asyncMap (award X fuel (newOpts email))
                 (cascadeTargets s email category) s)
            (categories self)
            (afterSave (awarded X email (_id self) a) sendEmail st) with
    | None => None
    | Some (Threw e, st3) => Some (Throws e, st3)
    | Some (Failed err, st3) => Some (Calls (CbError err), st3)
    | Some (Results instances, st3) =>
        Some (Calls (CbResult (VArray instances) instances), st3)
    end.
Proof.
  intros Ha Hkey Hcheck.
  rewrite award_S, (assertable_save X st email _ a Ha email_valid), Hkey,
    Hcheck.
  reflexivity.
Qed.

(** Awards of badges the user holds, one after the other: every callback
    gets nothing, and [async.map] keeps [undefined] for each. *)
Lemma asyncMap_held (fuel : nat) (badges : list Badge) (s : State) :
  Forall (fun B => hasKey s (keyFor email (_id B)) = true
                   /\ exists a, assertable X s email (_id B) a) badges ->
  asyncMap (award X (S fuel) (newOpts email)) badges s
  = Some (Results (List.map (fun _ => VUndefined) badges), s).
Proof.
  induction 1 as [|B rest [HB [a Ha]] _ IH]; [reflexivity|].
  rewrite asyncMap_cons. unfold newOpts at 1.
  rewrite (award_held fuel true B s a Ha HB), IH. reflexivity.
Qed.

End Assertable.

(** What a contributor's callback finds in its slots, whenever it gets
    results: the array of the cascade in the first as in the second,
    never the instance. *)
Lemma award_contributor_slots (X : Externals) (fuel : nat)
    (options : AwardOptions.t) (self : Badge) (st st' : State)
    (first : Value) (second : list Value) :
  checkForCategoryBadges self = true ->
  award X fuel options self st = Some (Calls (CbResult first second), st') ->
  first = VArray second.
Proof.
  intros Hcheck. destruct fuel as [|fuel]; [discriminate|].
  destruct options as [email sendEmail]. rewrite award_S, Hcheck.
  destruct (saveInstance X st _) as [[saved st1]|e|err p]; cbn [negb].
  - destruct (concatSeries _ _ _) as [[[e|err|instances] st3]|];
      try discriminate.
    intros [= <- <- _]. reflexivity.
  - discriminate.
  - destruct (isDuplicateKey err); discriminate.
Qed.

(** ** Awarding twice *)

(** C5, at an input where it fails and at one where it holds.  [award]
    is called for U and A in the store of the scenario, whose badges have
    ids of their own.  The save of the instance runs the
    [assertionDefault] hook, which looks for the badge whose [shortname]
    is the [badge] field; [award] has put the [_id] there, no badge is
    found, and the hook calls a method of [null]: a TypeError that
    nothing catches.  No instance is saved and no callback is called, the
    index is never asked, and a second call goes the same way: the store
    holds no instance at all, where the claim has exactly one.  This
    holds whatever [makeAssertion] and [util.hash] do.  In the store
    whose badges have their [_id] as [shortname] the hook finds the
    badge: the first award of B saves the instance and hands it over,
    the second is refused by the index and calls back with nothing, and
    the store holds the one instance. *)
Theorem award_twice (X : Externals) (fuel fuel' : nat) :
  (findOneByShortname Scenario.store (_id Scenario.A) = None
   /\ exists st1,
        award X (S fuel) (AwardOptions.ofString Scenario.U) Scenario.A
          Scenario.store
        = Some (Throws TypeError, st1)
        /\ award X (S fuel') (AwardOptions.ofString Scenario.U) Scenario.A st1
           = Some (Throws TypeError, st1)
        /\ instanceDocs st1 = [])
  /\ (findOneByShortname Aligned.store (_id Aligned.B) = Some Aligned.B
      /\ exists st1,
           award Stub.externals (S fuel) (AwardOptions.ofString Scenario.U)
             Aligned.B Aligned.store
           = Some (Calls (CbResult (VInstance Aligned.instanceOfB) []), st1)
           /\ award Stub.externals (S fuel')
                (AwardOptions.ofString Scenario.U) Aligned.B st1
              = Some (Calls CbNothing, st1)
           /\ instanceDocs st1 = [Aligned.instanceOfB]).
Proof.
  split.
  - split; [reflexivity|]. exists Scenario.store.
    split; [apply award_throws; reflexivity|].
    split; [apply award_throws; reflexivity|reflexivity].
  - split; [reflexivity|].
    assert (validUser (trim Scenario.U) = true) as Hvalid
      by (vm_compute; reflexivity).
    assert (forall st, badgeDocs st = badgeDocs Aligned.store ->
                       assertable Stub.externals st Scenario.U
                         (_id Aligned.B) "x-master for u@example.org")
      as Ha.
    { intros st Hst. exists Aligned.B. unfold findOneByShortname.
      rewrite Hst. repeat split; discriminate. }
    exists (insertInstance Aligned.store Aligned.instanceOfB).
    split; [|split; [|reflexivity]].
    + apply (award_plain Stub.externals Scenario.U Hvalid fuel false
               Aligned.B Aligned.store "x-master for u@example.org");
        [apply Ha|..]; reflexivity.
    + apply (award_held Stub.externals Scenario.U Hvalid fuel' false
               Aligned.B _ "x-master for u@example.org");
        [apply Ha|]; reflexivity.
Qed.

(** ** What the callback of a contributor's award receives *)

(** C2, at an input where the award completes.  In the store whose badges
    have their [_id] as [shortname], badge A contributes to category X
    and the award to U completes: the instance of A is saved, and the
    callback receives the array of cascaded instances in its first slot
    as well as in its second, not the instance of A.  Every award of a
    contributor that hands results to its callback does so
    ([award_contributor_slots]); the branch for the other badges passes
    the instance ([award_plain]). *)
Theorem award_contributor_callback :
  exists st',
    award Stub.externals 4 (AwardOptions.ofString Scenario.U) Aligned.A
      Aligned.store
    = Some (Calls (CbResult (VArray [VInstance Aligned.instanceOfB])
                     [VInstance Aligned.instanceOfB]), st')
    /\ checkForCategoryBadges Aligned.A = true
    /\ In Aligned.instanceOfA (instanceDocs st')
    /\ VArray [VInstance Aligned.instanceOfB]
       <> VInstance Aligned.instanceOfA.
Proof.
  eexists. split; [vm_compute; reflexivity|].
  split; [reflexivity|]. split; [left; reflexivity|discriminate].
Qed.

(** ** The cascade of a fresh award *)

(** C6, at the input of the scenario and where the hook passes.  A has
    weight 5 and tags X, B is the capstone of X and asks for 5, U holds
    neither, and A is awarded to U.  With ids of their own, the save of
    the instance of A throws in the [assertionDefault] hook, which looks
    A up by [shortname] with its [_id]: nothing is saved, no cascade
    starts, and B is not awarded, whatever [makeAssertion] and
    [util.hash] do.  With badges whose [_id] is their [shortname] the
    award goes as the claim says: A is saved, B is awarded with the
    e-mail line written, and its instance is handed over.  Whether the
    user holds a capstone is asked under the address and the capstone's
    [shortname], while instances are filed under the [_id]: where the
    two are the same a capstone the user holds is left out, where they
    differ it is handed to [award] again, which calls back with
    nothing. *)
Theorem award_cascade (X : Externals) (fuel : nat) :
  (categoryWeight Scenario.A = 5
   /\ categories Scenario.A = ["X"]
   /\ categoryAward Scenario.B = Some "X"
   /\ categoryRequirement Scenario.B = 5
   /\ instanceDocs Scenario.store = []
   /\ findOneByShortname Scenario.store (_id Scenario.A) = None
   /\ award X (S fuel) (AwardOptions.ofString Scenario.U) Scenario.A
        Scenario.store
      = Some (Throws TypeError, Scenario.store))
  /\ award Stub.externals 2 (AwardOptions.ofString Scenario.U) Aligned.A
       Aligned.store
     = Some (Calls (CbResult (VArray [VInstance Aligned.instanceOfB])
                      [VInstance Aligned.instanceOfB]),
             log "WRITE SEND EMAIL CODE"
               (insertInstance
                  (insertInstance Aligned.store Aligned.instanceOfA)
                  Aligned.instanceOfB))
  /\ award Stub.externals 2 (AwardOptions.ofString Scenario.U) Aligned.A
       Aligned.heldStore
     = Some (Calls (CbResult (VArray []) []),
             insertInstance Aligned.heldStore Aligned.instanceOfA)
  /\ (hasKey Held.store (keyFor Scenario.U (_id Held.B)) = true
      /\ userHasBadge Held.store Scenario.U (shortname Held.B) = false
      /\ award Stub.externals 2 (AwardOptions.ofString Scenario.U) Aligned.A
           Held.store
         = Some (Calls (CbResult (VArray [VUndefined]) [VUndefined]),
                 insertInstance Held.store Aligned.instanceOfA)).
Proof.
  split; [|split; [|split]].
  - repeat (split; [reflexivity|]). apply award_throws. reflexivity.
  - vm_compute. reflexivity.
  - vm_compute. reflexivity.
  - repeat split; vm_compute; reflexivity.
Qed.

(** ** The codes in use *)

Lemma getAllClaimCodes_fold (docs : list Badge) (codes : list string) (c : string) :
  In c (fold_left (fun codes b => (codes ++ List.map code (claimCodes b))%list)
          docs codes)
  <-> In c codes
      \/ exists b claim, In b docs /\ In claim (claimCodes b) /\ code claim = c.
Proof.
  revert codes. induction docs as [|d docs IH]; intros codes; simpl.
  - split; [auto|]. intros [H|(b & claim & [] & _)]. exact H.
  - rewrite IH, in_app_iff, in_map_iff. split.
    + intros [[H|(claim & Hc & Hin)]|(b & claim & Hb & Hin & Hc)]; eauto 8.
    + intros [H|(b & claim & [<-|Hb] & Hin & Hc)]; eauto 8.
Qed.

Lemma getAllClaimCodes_In (st : State) (c : string) :
  In c (getAllClaimCodes st)
  <-> exists b claim,
        In b (badgeDocs st) /\ In claim (claimCodes b) /\ code claim = c.
Proof.
  unfold getAllClaimCodes. rewrite getAllClaimCodes_fold. simpl. tauto.
Qed.

Lemma inArray_true (array : list string) (thing : string) :
  inArray array thing = true <-> In thing array.
Proof.
  unfold inArray. rewrite existsb_exists. split.
  - intros (x & Hin & Heq). apply String.eqb_eq in Heq. now subst.
  - intros H. exists thing. split; [exact H|apply String.eqb_refl].
Qed.

Lemma inArray_false (array : list string) (thing : string) :
  inArray array thing = false <-> ~ In thing array.
Proof.
  rewrite <- inArray_true. destruct (inArray array thing); split; congruence.
Qed.

(** Saving a stored badge after a push: the codes in use are the ones
    from before and the ones pushed. *)
Lemma saveBadge_pushed (st : State) (self : Badge) (new : list ClaimCode) :
  stored self st ->
  let '(doc, st') :=
    saveBadge st (setClaimCodes self (claimCodes self ++ new)%list) in
  stored doc st'
  /\ instanceDocs st' = instanceDocs st
  /\ forall c, In c (getAllClaimCodes st')
               <-> In c (getAllClaimCodes st) \/ In c (List.map code new).
Proof.
  intros [(d0 & Hd0 & Hid0) Hsame].
  unfold saveBadge.
  set (doc := normalizeCategoryInfo _).
  assert (_id doc = _id self) as Hid
    by (unfold doc, normalizeCategoryInfo; destruct (truthy _); reflexivity).
  assert (claimCodes doc = (claimCodes self ++ new)%list) as Hcodes
    by (unfold doc, normalizeCategoryInfo; destruct (truthy _); reflexivity).
  assert (existsb (fun b => String.eqb (_id b) (_id doc)) (badgeDocs st) = true)
    as ->.
  { apply existsb_exists. exists d0. split; [exact Hd0|].
    rewrite Hid, Hid0. apply String.eqb_refl. }
  split; [|split; [reflexivity|]].
  - split.
    + exists doc. split; [|reflexivity]. simpl.
      apply in_map_iff. exists d0. split; [|exact Hd0].
      rewrite Hid, Hid0, String.eqb_refl. reflexivity.
    + simpl. intros d Hd Hdid. apply in_map_iff in Hd as (b & <- & Hb).
      destruct (String.eqb (_id b) (_id doc)) eqn:Hb'; [reflexivity|].
      apply String.eqb_neq in Hb'. contradiction.
  - intros c. rewrite !getAllClaimCodes_In. simpl. split.
    + intros (b & claim & Hb & Hclaim & Hc).
      apply in_map_iff in Hb as (b0 & <- & Hb0).
      destruct (String.eqb_spec (_id b0) (_id doc)) as [Heq|Hne].
      * rewrite Hcodes, in_app_iff in Hclaim. destruct Hclaim as [Hold|Hnew].
        -- left. exists b0, claim. split; [exact Hb0|]. split; [|exact Hc].
           rewrite (Hsame b0 Hb0) by congruence. exact Hold.
        -- right. apply in_map_iff. eauto.
      * left. eauto.
    + intros [(b & claim & Hb & Hclaim & Hc)|Hnew].
      * destruct (String.eqb_spec (_id b) (_id doc)) as [Heq|Hne].
        -- exists doc, claim. split; [|split; [|exact Hc]].
           ++ apply in_map_iff. exists b. split; [|exact Hb].
              apply String.eqb_eq in Heq. now rewrite Heq.
           ++ rewrite Hcodes, in_app_iff. left.
              rewrite <- (Hsame b Hb) by congruence. exact Hclaim.
        -- exists b, claim. split; [|auto].
           apply in_map_iff. exists b. split; [|exact Hb].
           apply String.eqb_neq in Hne. now rewrite Hne.
      * apply in_map_iff in Hnew as (claim & Hc & Hclaim).
        exists doc, claim. split; [|split; [|exact Hc]].
        -- apply in_map_iff. exists d0. split; [|exact Hd0].
           rewrite Hid, Hid0, String.eqb_refl. reflexivity.
        -- rewrite Hcodes, in_app_iff. auto.
Qed.

(** ** The validators of a badge after a push *)

Lemma normalizeCategoryInfo_fields (self : Badge) :
  _id (normalizeCategoryInfo self) = _id self
  /\ behaviors (normalizeCategoryInfo self) = behaviors self
  /\ claimCodes (normalizeCategoryInfo self) = claimCodes self.
Proof.
  unfold normalizeCategoryInfo. destruct (truthy _); auto.
Qed.

Lemma validBadge_normalizeCategoryInfo (self : Badge) :
  validBadge (normalizeCategoryInfo self) = validBadge self.
Proof.
  unfold validBadge.
  destruct (normalizeCategoryInfo_fields self) as (-> & -> & ->).
  reflexivity.
Qed.

Lemma validBadge_setClaimCodes (self : Badge) (new : list ClaimCode) :
  validBadge self = true ->
  forallb validClaim new = true ->
  validBadge (setClaimCodes self (claimCodes self ++ new)%list) = true.
Proof.
  unfold validBadge. simpl. rewrite !andb_true_iff, forallb_app.
  intros [[Hid Hbehaviors] Hclaims] Hnew.
  rewrite Hclaims, Hnew. auto.
Qed.

Lemma clean_claims (l : list string) (r : option string) (m : bool) :
  Forall clean l ->
  List.map (fun c => {| code := trim c; claimedBy := None;
                        reservedFor := r; multi := m |}) l
  = List.map (fun c => {| code := c; claimedBy := None;
                          reservedFor := r; multi := m |}) l
  /\ forallb validClaim
       (List.map (fun c => {| code := c; claimedBy := None;
                              reservedFor := r; multi := m |}) l) = true.
Proof.
  induction 1 as [|c l [Htrim Hne] _ [IH1 IH2]]; [auto|].
  simpl. rewrite Htrim, IH1, IH2. split; [reflexivity|].
  unfold validClaim. simpl. apply String.eqb_neq in Hne. now rewrite Hne.
Qed.

(** Saving a valid stored badge after a push of valid claims succeeds. *)
Lemma save_pushed (st : State) (self : Badge) (new : list ClaimCode) :
  stored self st ->
  validBadge self = true ->
  forallb validClaim new = true ->
  exists doc st',
    save st (setClaimCodes self (claimCodes self ++ new)%list)
    = inr (doc, st')
    /\ stored doc st'
    /\ validBadge doc = true
    /\ claimCodes doc = (claimCodes self ++ new)%list
    /\ _id doc = _id self
    /\ instanceDocs st' = instanceDocs st
    /\ forall c, In c (getAllClaimCodes st')
                 <-> In c (getAllClaimCodes st) \/ In c (List.map code new).
Proof.
  intros Hstored Hvalid Hnew.
  pose proof (validBadge_setClaimCodes self new Hvalid Hnew) as Hpushed.
  pose proof (saveBadge_pushed st self new Hstored) as Hsave.
  unfold save. rewrite validBadge_normalizeCategoryInfo, Hpushed.
  destruct (saveBadge st _) as [doc st'] eqn:Heq.
  destruct Hsave as (Hstored' & Hinst & Hcodes).
  exists doc, st'. split; [reflexivity|]. split; [exact Hstored'|].
  assert (doc = normalizeCategoryInfo
                  (setClaimCodes self (claimCodes self ++ new)%list)) as ->.
  { unfold saveBadge in Heq. destruct (existsb _ _); now injection Heq. }
  rewrite validBadge_normalizeCategoryInfo.
  destruct (normalizeCategoryInfo_fields
              (setClaimCodes self (claimCodes self ++ new)%list))
    as (Hid & _ & Hcc).
  rewrite Hid, Hcc. auto.
Qed.

(** ** One round of [generateClaimCodes] *)

Lemma sortStep_progress (existingCodes : list string) (limit : Limit)
    (codes rejected : list string) :
  lengthGe [] limit = false ->
  (exists c, In c codes /\ inArray existingCodes c = false) ->
  fst (fold_left (sortStep existingCodes limit) codes ([], rejected)) <> [].
Proof.
  intros Hroom. revert rejected.
  induction codes as [|c0 codes IH]; intros rejected (c & Hin & Hfresh);
    [destruct Hin|].
  simpl. rewrite Hroom, orb_false_r.
  destruct (inArray existingCodes c0) eqn:Hc0.
  - destruct Hin as [->|Hin]; [congruence|]. apply IH. eauto.
  - destruct (fold_left _ codes _) as [accepted' rejected'] eqn:Hfold.
    apply sortStep_accepted in Hfold as (new & -> & _). simpl. discriminate.
Qed.

Lemma sortCodes_progress (existingCodes : list string) (limit : Limit)
    (codes : list string) :
  lengthGe [] limit = false ->
  (exists c, In c codes /\ inArray existingCodes c = false) ->
  fst (sortCodes existingCodes limit codes) <> [].
Proof. apply sortStep_progress. Qed.

(** A round of the loop: the candidates are sorted against the codes in
    use with the number still wanted as the limit, and what is accepted
    is in use afterwards. *)
Lemma addClaimCodes_round (phrases : list string) (numLeft : Z)
    (self : Badge) (st : State) :
  0 < numLeft ->
  stored self st ->
  validBadge self = true ->
  Forall clean phrases ->
  exists accepted rejected self' st',
    addClaimCodes (roundOptions phrases numLeft None) self st
    = Normal (accepted, rejected, self', st')
    /\ sortCodes (getAllClaimCodes st) (Finite numLeft) phrases
       = (accepted, rejected)
    /\ stored self' st'
    /\ validBadge self' = true
    /\ forall c, In c (getAllClaimCodes st')
                 <-> In c (getAllClaimCodes st) \/ In c accepted.
Proof.
  intros Hpos Hstored Hvalid Hclean. unfold addClaimCodes, roundOptions.
  cbn [AddOptions.reservedFor AddOptions.codes AddOptions.limit
       AddOptions.multi AddOptions.alreadyClean truthy andb trimSetter
       option_map].
  rewrite limitOrInfinity_nonzero by lia.
  destruct (sortCodes _ _ phrases) as [accepted rejected] eqn:Hsort.
  destruct accepted as [|a accepted]; simpl Nat.eqb; cbv iota.
  - exists [], rejected, self, st.
    split; [reflexivity|]. split; [reflexivity|]. split; [exact Hstored|].
    split; [exact Hvalid|].
    intros c. split; [auto|]. intros [H|[]]. exact H.
  - assert (Forall clean (a :: accepted)) as Hacc.
    { unfold sortCodes in Hsort.
      destruct (sortStep_accepted _ _ _ _ _ _ _ Hsort) as (new & Hnew & Hin & _).
      simpl in Hnew. subst new. rewrite List.Forall_forall in *.
      intros c Hc. apply Hclean. apply Hin, Hc. }
    destruct (clean_claims (a :: accepted) None false Hacc) as [-> Hclaims].
    destruct (save_pushed st self _ Hstored Hvalid Hclaims)
      as (doc & st' & -> & Hstored' & Hvalid' & _ & _ & _ & Hcodes).
    exists (a :: accepted), rejected, doc, st'.
    split; [reflexivity|]. split; [reflexivity|]. split; [exact Hstored'|].
    split; [exact Hvalid'|].
    intros c. rewrite Hcodes, map_map. simpl List.map at 1.
    rewrite map_id. reflexivity.
Qed.

Lemma untilDone_S {G : Type} (fuel : nat)
    (codeGenerator : G -> Z -> list string * G) (count : Z)
    (reservedFor : option string) (g : G) (accepted : list string)
    (self : Badge) (st : State) :
  untilDone (S fuel) codeGenerator count reservedFor g accepted self st
  = if Z.of_nat (length accepted) =? count
    then Some (Normal (accepted, g, self, st))
    else
      match addClaimCodes
              (roundOptions
                 (fst (codeGenerator g (count - Z.of_nat (length accepted))))
                 (count - Z.of_nat (length accepted)) reservedFor)
              self st with
      | Throw e => Some (Throw e)
      | Errback err (_, _, self', st') =>
          Some (Errback err
                  (accepted,
                   snd (codeGenerator g (count - Z.of_nat (length accepted))),
                   self', st'))
      | Normal (acceptedCodes, _, self', st') =>
          untilDone fuel codeGenerator count reservedFor
            (snd (codeGenerator g (count - Z.of_nat (length accepted))))
            (accepted ++ acceptedCodes)%list self' st'
      end.
Proof.
  simpl. destruct (Z.of_nat (length accepted) =? count); [reflexivity|].
  destruct (codeGenerator g _) as [phrases g']. reflexivity.
Qed.

Section Generate.

Context {G : Type}.
Variable gen : G -> Z -> list string * G.
Variable n : Z.
Variable st0 : State.

Hypothesis gen_clean : forall g k, Forall clean (fst (gen g k)).

(** A round keeps what holds between the rounds, and accepts a code
    whenever the batch has one that is in use nowhere. *)
Lemma round_betweenRounds (g : G) (accepted : list string) (self : Badge)
    (st : State) :
  betweenRounds gen n st0 accepted self st ->
  Z.of_nat (length accepted) <> n ->
  let numLeft := n - Z.of_nat (length accepted) in
  let phrases := fst (gen g numLeft) in
  exists acceptedCodes rejectedCodes self' st',
    addClaimCodes (roundOptions phrases numLeft None) self st
    = Normal (acceptedCodes, rejectedCodes, self', st')
    /\ betweenRounds gen n st0 (accepted ++ acceptedCodes)%list self' st'
    /\ (forall c, In c acceptedCodes -> In c phrases)
    /\ (forall c, In c (getAllClaimCodes st')
                  <-> In c (getAllClaimCodes st) \/ In c acceptedCodes)
    /\ ((exists c, In c phrases /\ ~ In c (getAllClaimCodes st)) ->
        acceptedCodes <> []).
Proof.
  intros (Hstored & Hvalid & Hlen & Hold & Hnew & Hdistinct) Hmore numLeft
    phrases.
  assert (0 < numLeft) as Hpos by (subst numLeft; lia).
  destruct (addClaimCodes_round phrases numLeft self st Hpos Hstored Hvalid
              (gen_clean g numLeft))
    as (acc & rej & self' & st' & Hadd & Hsort & Hstored' & Hvalid' & Hcodes).
  exists acc, rej, self', st'. split; [exact Hadd|].
  pose proof Hsort as Hsort'. unfold sortCodes in Hsort'.
  destruct (sortStep_accepted _ _ _ _ _ _ _ Hsort')
    as (new & Hacc & Hfresh & Hnd).
  simpl in Hacc. subst new.
  pose proof (sortStep_bounded _ _ _ _ _ _ _ Hsort') as Hbound.
  simpl in Hbound. specialize (Hbound ltac:(lia)).
  split; [|split; [|split; [exact Hcodes|]]].
  - split; [exact Hstored'|]. split; [exact Hvalid'|].
    split; [|split; [|split]].
    + rewrite length_app. subst numLeft. lia.
    + intros c Hc. apply Hcodes. left. auto.
    + intros c Hc. apply in_app_iff in Hc as [Hc|Hc].
      * destruct (Hnew c Hc). split; [assumption|]. apply Hcodes. auto.
      * split; [|apply Hcodes; auto].
        intros Hc0. destruct (Hfresh c Hc) as (_ & Hf).
        apply inArray_false in Hf. auto.
    + intros Hbatches. apply List.NoDup_app.
      * auto.
      * apply Hnd, Hbatches.
      * intros c Hc Hc'. destruct (Hnew c Hc) as (_ & Hin).
        destruct (Hfresh c Hc') as (_ & Hf). apply inArray_false in Hf. auto.
  - intros c Hc. apply Hfresh, Hc.
  - intros (c & Hc & Hfree).
    pose proof (sortCodes_progress (getAllClaimCodes st) (Finite numLeft) phrases)
      as Hprogress.
    rewrite Hsort in Hprogress. apply Hprogress.
    + simpl. apply Z.leb_gt. lia.
    + exists c. split; [exact Hc|]. apply inArray_false, Hfree.
Qed.

(** Whatever the loop returns, it returns after the last round: exactly
    [n] codes, with what holds between the rounds. *)
Lemma untilDone_returns (fuel : nat) :
  forall (g : G) (accepted : list string) (self : Badge) (st : State)
         (result : completion (list string * G * Badge * State)),
    betweenRounds gen n st0 accepted self st ->
    untilDone fuel gen n None g accepted self st = Some result ->
    exists codes g' self' st',
      result = Normal (codes, g', self', st')
      /\ Z.of_nat (length codes) = n
      /\ betweenRounds gen n st0 codes self' st'.
Proof.
  induction fuel as [|fuel IH]; intros g accepted self st result Hinv;
    [discriminate|].
  rewrite untilDone_S.
  destruct (Z.eqb_spec (Z.of_nat (length accepted)) n) as [Hdone|Hmore].
  - intros [= <-]. exists accepted, g, self, st. auto.
  - destruct (round_betweenRounds g accepted self st Hinv Hmore)
      as (acc & rej & self' & st' & -> & Hinv' & _).
    apply IH, Hinv'.
Qed.

(** The loop returns within as many rounds as codes are wanted, when an
    invariant [Inv] of the generator's state and the codes in use makes
    every batch propose a code that is in use nowhere. *)
Lemma untilDone_terminates (Inv : G -> list string -> Prop) :
  (forall g used k,
     Inv g used -> 0 < k ->
     exists c, In c (fst (gen g k)) /\ ~ In c used) ->
  (forall g used used' k,
     Inv g used -> 0 < k ->
     (forall c, In c used -> In c used') ->
     (forall c, In c used' -> In c used \/ In c (fst (gen g k))) ->
     Inv (snd (gen g k)) used') ->
  forall (fuel : nat) (g : G) (accepted : list string) (self : Badge)
         (st : State),
    betweenRounds gen n st0 accepted self st ->
    Inv g (getAllClaimCodes st) ->
    (Z.to_nat (n - Z.of_nat (length accepted)) < fuel)%nat ->
    exists result,
      untilDone fuel gen n None g accepted self st = Some (Normal result).
Proof.
  intros Hprogress Hkeep.
  induction fuel as [|fuel IH]; intros g accepted self st Hinv HInv Hfuel;
    [lia|].
  rewrite untilDone_S.
  destruct (Z.eqb_spec (Z.of_nat (length accepted)) n) as [Hdone|Hmore];
    [eauto|].
  pose proof Hinv as (_ & _ & Hlen & _).
  set (numLeft := n - Z.of_nat (length accepted)) in *.
  assert (0 < numLeft) as Hpos by (subst numLeft; lia).
  destruct (round_betweenRounds g accepted self st Hinv Hmore)
    as (acc & rej & self' & st' & Hadd & Hinv' & Hsub & Hcodes & Hsome).
  fold numLeft in Hadd, Hsub, Hsome. rewrite Hadd.
  apply IH; [exact Hinv'| |].
  - apply (Hkeep g (getAllClaimCodes st) _ numLeft HInv Hpos).
    + intros c Hc. apply Hcodes. auto.
    + intros c Hc. apply Hcodes in Hc as [Hc|Hc]; auto.
  - assert (acc <> []) as Hne
      by (apply Hsome, (Hprogress g _ numLeft HInv Hpos)).
    destruct acc as [|a acc]; [congruence|].
    rewrite length_app. simpl length. lia.
Qed.

End Generate.

Lemma betweenRounds_start {G : Type} (gen : G -> Z -> list string * G)
    (n : Z) (self : Badge) (st : State) :
  0 <= n -> stored self st -> validBadge self = true ->
  betweenRounds gen n st [] self st.
Proof.
  intros Hn Hstored Hvalid. split; [exact Hstored|]. split; [exact Hvalid|].
  split; [simpl; lia|].
  split; [auto|]. split; [intros c []|constructor].
Qed.

(** ** Generating claim codes *)

(** C3, amended.  For a count [n] of at least 0, a badge of the store
    that its validators pass, and a generator whose codes are not empty
    and have no white space at their ends (they are stored trimmed, and
    compared as given): every call of [generateClaimCodes] that calls
    back does so without an error and with exactly [n] codes, none of
    which was in use in the store before the call and all of which are in
    use after it, pairwise distinct when every batch of the generator is;
    and the call does call back, within [n] rounds, when an invariant of
    the generator's state and the codes in use makes every batch propose
    a code that is in use nowhere.  The loop itself has no budget of
    rounds. *)
Theorem generateClaimCodes_exact {G : Type}
    (gen : G -> Z -> list string * G) (n : Z) (g : G) (self : Badge)
    (st : State) :
  0 <= n ->
  stored self st ->
  validBadge self = true ->
  (forall g k, Forall clean (fst (gen g k))) ->
  let options :=
    {| GenerateOptions.count := n;
       GenerateOptions.codeGenerator := gen;
       GenerateOptions.reservedFor := None |} in
  (forall fuel result,
     generateClaimCodes fuel options g self st = Some result ->
     exists codes g' self' st',
       result = Normal (codes, g', self', st')
       /\ Z.of_nat (length codes) = n
       /\ (forall c, In c codes ->
                     ~ In c (getAllClaimCodes st)
                     /\ In c (getAllClaimCodes st'))
       /\ ((forall g k, List.NoDup (fst (gen g k))) -> List.NoDup codes))
  /\ (forall Inv : G -> list string -> Prop,
        Inv g (getAllClaimCodes st) ->
        (forall g used k,
           Inv g used -> 0 < k ->
           exists c, In c (fst (gen g k)) /\ ~ In c used) ->
        (forall g used used' k,
           Inv g used -> 0 < k ->
           (forall c, In c used -> In c used') ->
           (forall c, In c used' -> In c used \/ In c (fst (gen g k))) ->
           Inv (snd (gen g k)) used') ->
        exists result,
          generateClaimCodes (S (Z.to_nat n)) options g self st
          = Some (Normal result)).
Proof.
  intros Hn Hstored Hvalid Hclean options.
  pose proof (betweenRounds_start gen n self st Hn Hstored Hvalid) as Hstart.
  unfold generateClaimCodes, options.
  cbn [GenerateOptions.reservedFor GenerateOptions.count
       GenerateOptions.codeGenerator truthy].
  split.
  - intros fuel result Hrun.
    destruct (untilDone_returns gen n st Hclean fuel g [] self st result
                Hstart Hrun)
      as (codes & g' & self' & st' & -> & Hlen & _ & _ & _ & _ & Hnew & Hnd).
    exists codes, g', self', st'. auto.
  - intros Inv HInv Hprogress Hkeep.
    apply (untilDone_terminates gen n st Hclean Inv Hprogress Hkeep); auto.
    simpl. lia.
Qed.

Lemma letters_length (g : nat) : String.length (Counting.letters g) = g.
Proof. induction g as [|g IH]; simpl; congruence. Qed.

Lemma letters_clean (g : nat) : clean (Counting.letters (S g)).
Proof.
  split; [|discriminate].
  unfold trim. change (trimStart (Counting.letters (S g)))
    with (Counting.letters (S g)).
  induction g as [|g IH]; [reflexivity|].
  change (Counting.letters (S (S g)))
    with (String "a"%char (Counting.letters (S g))).
  cbn [trimEnd]. rewrite IH. reflexivity.
Qed.

Lemma generateClaimCodes_exact_witness :
  exists codes g' self' st',
    generateClaimCodes 3
      {| GenerateOptions.count := 2;
         GenerateOptions.codeGenerator := Counting.codeGenerator;
         GenerateOptions.reservedFor := None |}
      10%nat Sample.codedBadge Sample.codedState
    = Some (Normal (codes, g', self', st'))
    /\ length codes = 2%nat
    /\ List.NoDup codes
    /\ forall c, In c codes -> ~ In c (getAllClaimCodes Sample.codedState).
Proof.
  destruct (generateClaimCodes_exact Counting.codeGenerator 2 10%nat
              Sample.codedBadge Sample.codedState) as [Hreturns Hterminates].
  - lia.
  - split.
    + exists Sample.codedBadge. split; [left; reflexivity|reflexivity].
    + intros d [<-|[]] _. reflexivity.
  - reflexivity.
  - intros g k. constructor; [|constructor]. apply letters_clean.
  - destruct (Hterminates
                (fun g used => forall c, In c used -> (String.length c <= g)%nat))
      as [result Hrun].
    + intros c [<-|[<-|[<-|[]]]]; simpl; lia.
    + intros g used k Hused _. exists (Counting.letters (S g)).
      split; [left; reflexivity|].
      intros Hin. apply Hused in Hin. rewrite letters_length in Hin. lia.
    + intros g used used' k Hused _ _ Hsub c Hc. simpl.
      destruct (Hsub c Hc) as [Hold|[<-|[]]].
      * apply Hused in Hold. lia.
      * rewrite letters_length. lia.
    + destruct (Hreturns _ _ Hrun)
        as (codes & g' & self' & st' & Hresult & Hlen & Hfresh & Hdistinct).
      injection Hresult as ->. exists codes, g', self', st'.
      split; [exact Hrun|]. split; [lia|]. split.
      * apply Hdistinct. intros g k. simpl.
        constructor; [intros []|constructor].
      * intros c Hc. apply Hfresh, Hc.
Defined.

(** The loop has no budget: a generator that proposes a code in use at
    every call keeps it going round after round. *)
Lemma untilDone_stubborn (fuel : nat) :
  untilDone fuel Stubborn.codeGenerator 1 None tt [] Sample.codedBadge
    Sample.codedState
  = None.
Proof.
  induction fuel as [|fuel IH]; [reflexivity|].
  rewrite untilDone_S. exact IH.
Qed.

(** C3 as stated fails: asked for one code, with a generator that returns
    one code per call, [generateClaimCodes] never calls back when that
    code is in use; no amount of fuel makes the loop end. *)
Lemma generateClaimCodes_retries_forever :
  ~ exists fuel result,
      generateClaimCodes fuel Stubborn.options tt Sample.codedBadge
        Sample.codedState
      = Some result.
Proof.
  intros (fuel & result & Hrun).
  unfold generateClaimCodes, Stubborn.options in Hrun.
  cbn [GenerateOptions.reservedFor GenerateOptions.count
       GenerateOptions.codeGenerator truthy] in Hrun.
  rewrite untilDone_stubborn in Hrun. discriminate.
Qed.

(** * More properties of the code *)

(** ** Normalized codes *)

Lemma trimStart_idem (s : string) : trimStart (trimStart s) = trimStart s.
Proof.
  induction s as [|a r IH]; simpl; [reflexivity|].
  destruct (isWhiteSpace a) eqn:Ha; [exact IH|].
  simpl. now rewrite Ha.
Qed.

Lemma trimEnd_idem (s : string) : trimEnd (trimEnd s) = trimEnd s.
Proof.
  induction s as [|a r IH]; simpl; [reflexivity|].
  destruct (trimEnd r) as [|b r'] eqn:Hr.
  - destruct (isWhiteSpace a) eqn:Ha; simpl; [reflexivity|].
    now rewrite Ha.
  - simpl in *. rewrite IH. reflexivity.
Qed.

(** Trimming the end leaves a clean start clean. *)
Lemma trimStart_trimEnd (s : string) :
  trimStart s = s -> trimStart (trimEnd s) = trimEnd s.
Proof.
  destruct s as [|a r]; simpl; [reflexivity|].
  destruct (isWhiteSpace a) eqn:Ha.
  - intros H. exfalso.
    assert (String.length (trimStart r) <= String.length r)%nat as Hle.
    { clear. induction r as [|b r IH]; simpl; [lia|].
      destruct (isWhiteSpace b); simpl; lia. }
    rewrite H in Hle. simpl in Hle. lia.
  - intros _. destruct (trimEnd r); simpl; now rewrite Ha.
Qed.

Lemma trim_idem (s : string) : trim (trim s) = trim s.
Proof.
  unfold trim.
  rewrite (trimStart_trimEnd (trimStart s) (trimStart_idem s)).
  apply trimEnd_idem.
Qed.

Lemma trim_clean (s : string) :
  trimStart (trim s) = trim s /\ trimEnd (trim s) = trim s.
Proof.
  unfold trim. split.
  - apply trimStart_trimEnd, trimStart_idem.
  - apply trimEnd_idem.
Qed.

Section MapClean.

Variable f : ascii -> ascii.
Hypothesis f_keeps_ink : forall a, isWhiteSpace a = false -> isWhiteSpace (f a) = false.

Lemma trimStart_mapString (s : string) :
  trimStart s = s -> trimStart (mapString f s) = mapString f s.
Proof.
  destruct s as [|a r]; simpl; [reflexivity|].
  destruct (isWhiteSpace a) eqn:Ha.
  - intros H. exfalso.
    assert (String.length (trimStart r) <= String.length r)%nat as Hle.
    { clear. induction r as [|b r IH]; simpl; [lia|].
      destruct (isWhiteSpace b); simpl; lia. }
    rewrite H in Hle. simpl in Hle. lia.
  - intros _. now rewrite (f_keeps_ink a Ha).
Qed.

Lemma trimEnd_mapString (s : string) :
  trimEnd s = s -> trimEnd (mapString f s) = mapString f s.
Proof.
  induction s as [|a r IH]; simpl; [reflexivity|].
  destruct (trimEnd r) as [|b r'] eqn:Hr.
  - destruct (isWhiteSpace a) eqn:Ha; [discriminate|].
    intros [= <-]. simpl. now rewrite (f_keeps_ink a Ha).
  - intros [= Hr']. rewrite IH by exact Hr'.
    rewrite <- Hr'. simpl. reflexivity.
Qed.

Lemma trim_mapString (s : string) :
  trimStart s = s -> trimEnd s = s -> trim (mapString f s) = mapString f s.
Proof.
  intros Hs He. unfold trim.
  rewrite (trimStart_mapString s Hs). apply trimEnd_mapString, He.
Qed.

End MapClean.

Lemma mapString_compose (f g : ascii -> ascii) (s : string) :
  mapString f (mapString g s) = mapString (fun a => f (g a)) s.
Proof. induction s as [|a r IH]; simpl; congruence. Qed.

Lemma mapString_ext (f g : ascii -> ascii) (s : string) :
  (forall a, f a = g a) -> mapString f s = mapString g s.
Proof. intros H. induction s as [|a r IH]; simpl; congruence. Qed.

Lemma normalizeUnit_keeps_ink (a : ascii) :
  isWhiteSpace a = false -> isWhiteSpace (normalizeUnit a) = false.
Proof.
  destruct a as [[] [] [] [] [] [] [] []]; vm_compute; congruence.
Qed.

Lemma normalizeUnit_idem (a : ascii) :
  normalizeUnit (normalizeUnit a) = normalizeUnit a.
Proof. destruct a as [[] [] [] [] [] [] [] []]; vm_compute; reflexivity. Qed.

Lemma normalizeCode_mapString (c : string) :
  normalizeCode c = mapString normalizeUnit (trim c).
Proof.
  unfold normalizeCode, toLowerCase, replaceSpaces.
  rewrite mapString_compose. reflexivity.
Qed.

Lemma normalizeCode_idem (c : string) :
  normalizeCode (normalizeCode c) = normalizeCode c.
Proof.
  rewrite !normalizeCode_mapString.
  destruct (trim_clean c) as [Hs He].
  rewrite (trim_mapString normalizeUnit normalizeUnit_keeps_ink _ Hs He).
  rewrite mapString_compose. apply mapString_ext, normalizeUnit_idem.
Qed.

(** X1. Every lookup of a claim code sees its input through
    [normalizeCode], which is idempotent: a code and its normalized form
    are the same to [getClaimCode], [hasClaimCode], [claimCodeIsClaimed],
    [redeemClaimCode] and [releaseClaimCode]. *)
Theorem lookups_normalize (self : Badge) (c u : string) :
  normalizeCode (normalizeCode c) = normalizeCode c
  /\ getClaimCode self (normalizeCode c) = getClaimCode self c
  /\ hasClaimCode self (normalizeCode c) = hasClaimCode self c
  /\ claimCodeIsClaimed self (normalizeCode c) = claimCodeIsClaimed self c
  /\ redeemClaimCode self (normalizeCode c) u = redeemClaimCode self c u
  /\ releaseClaimCode self (normalizeCode c) = releaseClaimCode self c.
Proof.
  assert (getClaimCode self (normalizeCode c) = getClaimCode self c) as Hget
    by (unfold getClaimCode; now rewrite normalizeCode_idem).
  split; [apply normalizeCode_idem|]. split; [exact Hget|].
  unfold hasClaimCode, claimCodeIsClaimed, redeemClaimCode, releaseClaimCode.
  rewrite Hget. auto.
Qed.

Lemma scanClaimCodes_last (normalizedCode : string) (codes : list ClaimCode)
    (k idx : nat) (claim : ClaimCode) :
  scanClaimCodes codes normalizedCode k = Some (idx, claim) ->
  forall j other, (idx < j < k)%nat -> codes !! j = Some other ->
                  code other <> normalizedCode.
Proof.
  induction k as [|k IH]; simpl; [discriminate|].
  destruct (codes !! k) as [x|] eqn:Hk; [|discriminate].
  destruct (String.eqb (code x) normalizedCode) eqn:Hx.
  - intros [= <- <-] j other Hj. lia.
  - intros Hscan j other Hj Hother.
    destruct (decide (j = k)) as [->|Hne].
    + rewrite Hk in Hother. injection Hother as <-. now apply String.eqb_neq.
    + apply (IH Hscan j other); [lia|exact Hother].
Qed.

Lemma hasClaimCode_true (self : Badge) (c : string) :
  hasClaimCode self c = true
  <-> exists claim, In claim (claimCodes self) /\ code claim = normalizeCode c.
Proof.
  unfold hasClaimCode.
  destruct (getClaimCode self c) as [[idx claim]|] eqn:Hget.
  - split; [intros _|reflexivity].
    apply getClaimCode_Some in Hget as (Hlook & Hcode).
    exists claim. split; [|exact Hcode].
    apply list_elem_of_In, list_elem_of_lookup. eauto.
  - split; [discriminate|]. intros (claim & Hin & Hcode). exfalso.
    exact (proj1 (getClaimCode_None self c) Hget claim Hin Hcode).
Qed.

Lemma getClaimCode_found (self : Badge) (c : string) (idx : nat)
    (claim : ClaimCode) :
  getClaimCode self c = Some (idx, claim) ->
  claimCodes self !! idx = Some claim
  /\ code claim = normalizeCode c
  /\ forall j other,
       (idx < j)%nat -> claimCodes self !! j = Some other ->
       code other <> normalizeCode c.
Proof.
  intros Hget.
  pose proof (getClaimCode_Some self c idx claim Hget) as (Hlook & Hcode).
  split; [exact Hlook|]. split; [exact Hcode|].
  intros j other Hj Hother.
  apply (scanClaimCodes_last _ _ _ _ _ Hget j other); [|exact Hother].
  split; [exact Hj|]. eapply lookup_lt_Some; eauto.
Qed.

(** X2. [hasClaimCode] answers true exactly when the badge holds a claim
    whose code is the normalized input, and [getClaimCode] then returns
    the last such claim of the array. *)
Theorem getClaimCode_last (self : Badge) (c : string) :
  (hasClaimCode self c = true
   <-> exists claim, In claim (claimCodes self) /\ code claim = normalizeCode c)
  /\ forall idx claim,
       getClaimCode self c = Some (idx, claim) ->
       claimCodes self !! idx = Some claim
       /\ code claim = normalizeCode c
       /\ forall j other,
            (idx < j)%nat -> claimCodes self !! j = Some other ->
            code other <> normalizeCode c.
Proof.
  split; [apply hasClaimCode_true|].
  intros idx claim. apply getClaimCode_found.
Qed.

Lemma claimCodeIsClaimed_written (self : Badge) (c : string) (idx : nat)
    (claim : ClaimCode) (v : option string) :
  getClaimCode self c = Some (idx, claim) ->
  claimCodeIsClaimed
    (setClaimCodes self (<[idx := setClaimedBy claim v]> (claimCodes self))) c
  = Some (truthy (trimSetter v) && negb (multi claim)).
Proof.
  intros Hget. unfold claimCodeIsClaimed.
  rewrite (getClaimCode_written self c idx claim v Hget). reflexivity.
Qed.

Lemma redeemClaimCode_open (self : Badge) (c u : string) (idx : nat)
    (claim : ClaimCode) :
  getClaimCode self c = Some (idx, claim) ->
  negb (multi claim) && truthy (claimedBy claim)
  && strictNe (claimedBy claim) u = false ->
  redeemClaimCode self c u
  = (Some true,
     setClaimCodes self
       (<[idx := setClaimedBy claim (Some u)]> (claimCodes self))).
Proof.
  intros Hget Htest. unfold redeemClaimCode. now rewrite Hget, Htest.
Qed.

(** X3. The life of a single-use code.  An open code redeemed by a user
    whose address is more than white space holds the trimmed address, is
    reported claimed and refuses every user who gives another address
    than the trimmed one, without changing; released, it is reported
    unclaimed, its [claimedBy] is [null], and any user can redeem it. *)
Theorem redeem_release_cycle (self : Badge) (c u v : string) (idx : nat)
    (claim : ClaimCode) :
  getClaimCode self c = Some (idx, claim) ->
  multi claim = false ->
  truthy (claimedBy claim) = false ->
  trim u <> "" ->
  exists redeemed released,
    redeemClaimCode self c u = (Some true, redeemed)
    /\ option_map (fun found => claimedBy (snd found)) (getClaimCode redeemed c)
       = Some (Some (trim u))
    /\ claimCodeIsClaimed redeemed c = Some true
    /\ (v <> trim u -> redeemClaimCode redeemed c v = (Some false, redeemed))
    /\ releaseClaimCode redeemed c = Normal (true, released)
    /\ claimCodes released
       = <[idx := setClaimedBy claim None]> (claimCodes self)
    /\ claimCodeIsClaimed released c = Some false
    /\ fst (redeemClaimCode released c v) = Some true.
Proof.
  intros Hget Hsingle Hopen Hu.
  set (redeemed := setClaimCodes self
                     (<[idx := setClaimedBy claim (Some u)]> (claimCodes self))).
  assert (getClaimCode redeemed c = Some (idx, setClaimedBy claim (Some u)))
    as Hget1 by (apply getClaimCode_written, Hget).
  set (released := setClaimCodes redeemed
                     (<[idx := setClaimedBy (setClaimedBy claim (Some u)) None]>
                        (claimCodes redeemed))).
  assert (getClaimCode released c
          = Some (idx, setClaimedBy (setClaimedBy claim (Some u)) None))
    as Hget2 by (apply getClaimCode_written, Hget1).
  assert (truthy (Some (trim u)) = true) as Htruthy
    by (simpl; apply String.eqb_neq in Hu; now rewrite Hu).
  exists redeemed, released.
  split; [|split; [|split; [|split; [|split; [|split; [|split]]]]]].
  - apply redeemClaimCode_open; [exact Hget|]. now rewrite Hopen, andb_false_r.
  - rewrite Hget1. reflexivity.
  - unfold redeemed. rewrite (claimCodeIsClaimed_written _ _ _ _ _ Hget).
    cbn [trimSetter option_map]. now rewrite Htruthy, Hsingle.
  - intros Hv. unfold redeemClaimCode. rewrite Hget1.
    cbn [setClaimedBy multi claimedBy trimSetter option_map strictNe].
    rewrite Hsingle, Htruthy.
    assert (String.eqb (trim u) v = false) as ->
      by (apply String.eqb_neq; congruence).
    reflexivity.
  - unfold releaseClaimCode. now rewrite Hget1.
  - unfold released, redeemed. simpl. rewrite list_insert_insert_eq.
    reflexivity.
  - unfold released. rewrite (claimCodeIsClaimed_written _ _ _ _ _ Hget1).
    reflexivity.
  - rewrite (redeemClaimCode_open released c v idx _ Hget2); [reflexivity|].
    simpl. now rewrite andb_false_r.
Qed.

Lemma redeem_release_cycle_witness :
  exists redeemed released,
    redeemClaimCode Sample.codedBadge "Open Code" "bob@example.org"
    = (Some true, redeemed)
    /\ claimCodeIsClaimed redeemed "Open Code" = Some true
    /\ redeemClaimCode redeemed "Open Code" "eve@example.org"
       = (Some false, redeemed)
    /\ releaseClaimCode redeemed "Open Code" = Normal (true, released)
    /\ claimCodeIsClaimed released "Open Code" = Some false.
Proof.
  destruct (redeem_release_cycle Sample.codedBadge "Open Code"
              "bob@example.org" "eve@example.org" 1%nat
              {| code := "open-code"; claimedBy := None;
                 reservedFor := None; multi := false |})
    as (redeemed & released & H1 & _ & H2 & H3 & H4 & _ & H5 & _).
  - vm_compute. reflexivity.
  - reflexivity.
  - reflexivity.
  - discriminate.
  - exists redeemed, released.
    split; [exact H1|]. split; [exact H2|].
    split; [apply H3; discriminate|]. split; [exact H4|exact H5].
Defined.

(** X4. A multi-use code is never reported claimed and never refuses a
    user: every redemption succeeds and records the address of the
    latest claimant, trimmed. *)
Theorem multi_use_code (self : Badge) (c u : string) (idx : nat)
    (claim : ClaimCode) :
  getClaimCode self c = Some (idx, claim) ->
  multi claim = true ->
  claimCodeIsClaimed self c = Some false
  /\ exists redeemed,
       redeemClaimCode self c u = (Some true, redeemed)
       /\ getClaimCode redeemed c = Some (idx, setClaimedBy claim (Some u))
       /\ claimedBy (setClaimedBy claim (Some u)) = Some (trim u)
       /\ claimCodeIsClaimed redeemed c = Some false.
Proof.
  intros Hget Hmulti. split.
  - unfold claimCodeIsClaimed. rewrite Hget, Hmulti. now rewrite andb_false_r.
  - eexists. split; [|split; [|split]].
    + apply (redeemClaimCode_open self c u idx claim Hget).
      now rewrite Hmulti.
    + apply getClaimCode_written, Hget.
    + reflexivity.
    + rewrite (claimCodeIsClaimed_written _ _ _ _ _ Hget), Hmulti.
      now rewrite andb_false_r.
Qed.

Lemma multi_use_code_witness :
  claimCodeIsClaimed Sample.codedBadge "party" = Some false
  /\ fst (redeemClaimCode Sample.codedBadge "party" "bob@example.org")
     = Some true.
Proof.
  destruct (multi_use_code Sample.codedBadge "party" "bob@example.org" 2%nat
              {| code := "party"; claimedBy := Some "alice@example.org";
                 reservedFor := None; multi := true |})
    as (Hclaimed & redeemed & Hredeem & _).
  - vm_compute. reflexivity.
  - reflexivity.
  - split; [exact Hclaimed|]. now rewrite Hredeem.
Defined.

(** X5. [redeemClaimCode] does not look at [reservedFor]: whoever the
    code is reserved for, the answer is the same, so a user the code is
    not reserved for can redeem it. *)
Theorem redeem_ignores_reservedFor (self : Badge) (c u : string) (idx : nat)
    (claim : ClaimCode) (r : option string) :
  getClaimCode self c = Some (idx, claim) ->
  fst (redeemClaimCode
         (setClaimCodes self
            (<[idx := setReservedFor claim r]> (claimCodes self))) c u)
  = fst (redeemClaimCode self c u).
Proof.
  intros Hget.
  assert (getClaimCode
            (setClaimCodes self
               (<[idx := setReservedFor claim r]> (claimCodes self))) c
          = Some (idx, setReservedFor claim r)) as Hget'.
  { unfold getClaimCode in *. simpl. rewrite length_insert.
    apply scanClaimCodes_insert with (claim := claim); [|exact Hget].
    simpl. apply scanClaimCodes_Some in Hget. tauto. }
  unfold redeemClaimCode. rewrite Hget, Hget'. simpl.
  destruct (negb (multi claim) && truthy (claimedBy claim)
            && strictNe (claimedBy claim) u); reflexivity.
Qed.

Lemma redeem_ignores_reservedFor_witness :
  fst (redeemClaimCode
         (setClaimCodes Sample.codedBadge
            (<[1%nat := {| code := "open-code"; claimedBy := None;
                           reservedFor := Some "alice@example.org";
                           multi := false |}]>
               (claimCodes Sample.codedBadge)))
         "open-code" "bob@example.org")
  = Some true.
Proof.
  refine (eq_trans
            (redeem_ignores_reservedFor Sample.codedBadge "open-code"
               "bob@example.org" 1%nat
               {| code := "open-code"; claimedBy := None;
                  reservedFor := None; multi := false |}
               (Some "alice@example.org") _) _).
  - vm_compute. reflexivity.
  - reflexivity.
Defined.

(** ** Removing, listing and keeping codes *)

Lemma scanClaimCodes_app (normalizedCode : string) (l m : list ClaimCode)
    (k : nat) :
  (k <= length l)%nat ->
  scanClaimCodes (l ++ m) normalizedCode k = scanClaimCodes l normalizedCode k.
Proof.
  induction k as [|k IH]; intros Hk; simpl; [reflexivity|].
  rewrite lookup_app_l by lia.
  destruct (l !! k) as [x|]; [|reflexivity].
  destruct (String.eqb (code x) normalizedCode); [reflexivity|].
  apply IH. lia.
Qed.

(** The claim found is the first match from the end of the array. *)
Lemma claimFound_rev (self : Badge) (c : string) :
  claimFound self c
  = List.find (fun claim => String.eqb (code claim) (normalizeCode c))
      (rev (claimCodes self)).
Proof.
  unfold claimFound, getClaimCode.
  induction (claimCodes self) as [|x l IH] using rev_ind; [reflexivity|].
  rewrite rev_app_distr, length_app. simpl rev. simpl List.find.
  replace (length l + length [x])%nat with (S (length l)) by (simpl; lia).
  simpl scanClaimCodes.
  rewrite lookup_app_r by lia. rewrite Nat.sub_diag. simpl.
  destruct (String.eqb (code x) (normalizeCode c)); [reflexivity|].
  rewrite scanClaimCodes_app by lia. exact IH.
Qed.

Lemma find_filter {A : Type} (q p : A -> bool) (l : list A) :
  (forall x, q x = true -> p x = true) ->
  List.find q (List.filter p l) = List.find q l.
Proof.
  intros Hqp. induction l as [|x l IH]; simpl; [reflexivity|].
  destruct (q x) eqn:Hq.
  - rewrite (Hqp x Hq). simpl. now rewrite Hq.
  - destruct (p x); simpl; [now rewrite Hq|exact IH].
Qed.

Lemma setClaimCodes_same (self : Badge) :
  setClaimCodes self (claimCodes self) = self.
Proof. destruct self. reflexivity. Qed.

(** X6. [removeClaimCode(code)] compares the stored codes with its input
    as given.  Afterwards no lookup that normalizes to [code] finds a
    claim, every other lookup finds the claim it found before, and a
    [code] that no claim carries leaves the badge as it is. *)
Theorem removeClaimCode_effect (self : Badge) (c c' : string) :
  (normalizeCode c' = c -> hasClaimCode (removeClaimCode self c) c' = false)
  /\ (normalizeCode c' <> c ->
      claimFound (removeClaimCode self c) c' = claimFound self c')
  /\ ((forall claim, In claim (claimCodes self) -> code claim <> c) ->
      removeClaimCode self c = self).
Proof.
  split; [|split].
  - intros Hc. unfold hasClaimCode.
    rewrite (proj2 (getClaimCode_None (removeClaimCode self c) c'));
      [reflexivity|].
    simpl. intros claim Hin. apply filter_In in Hin as [_ Hne].
    apply negb_true_iff, String.eqb_neq in Hne. congruence.
  - intros Hc. rewrite !claimFound_rev. simpl.
    rewrite <- List.filter_rev. apply find_filter.
    intros claim Hclaim. apply String.eqb_eq in Hclaim.
    apply negb_true_iff, String.eqb_neq. congruence.
  - intros Hnone. unfold removeClaimCode.
    rewrite forallb_filter_id; [apply setClaimCodes_same|].
    apply forallb_forall. intros claim Hin.
    apply negb_true_iff, String.eqb_neq. auto.
Qed.

Lemma map_insert_same {A B : Type} (f : A -> B) (l : list A) (i : nat)
    (x y : A) :
  l !! i = Some y -> f x = f y -> List.map f (<[i := x]> l) = List.map f l.
Proof.
  revert i. induction l as [|a l IH]; intros [|i]; simpl; try discriminate.
  - intros [= ->] Hf. now rewrite Hf.
  - intros Hl Hf. f_equal. now apply IH.
Qed.

(** X7. Redeeming or releasing a code rewrites [claimedBy] of one claim
    and nothing else: the badge keeps its codes, in their order, with
    their [multi] and [reservedFor], and all its other fields. *)
Theorem redeem_release_keep_codes (self : Badge) (c u : string) :
  let kept (self' : Badge) :=
    List.map code (claimCodes self') = List.map code (claimCodes self)
    /\ List.map multi (claimCodes self') = List.map multi (claimCodes self)
    /\ List.map reservedFor (claimCodes self')
       = List.map reservedFor (claimCodes self)
    /\ setClaimCodes self' (claimCodes self) = self in
  kept (snd (redeemClaimCode self c u))
  /\ forall r self', releaseClaimCode self c = Normal (r, self') -> kept self'.
Proof.
  intros kept.
  assert (kept self) as Hself
    by (repeat split; apply setClaimCodes_same).
  assert (forall idx claim v,
             getClaimCode self c = Some (idx, claim) ->
             kept (setClaimCodes self
                     (<[idx := setClaimedBy claim v]> (claimCodes self))))
    as Hwritten.
  { intros idx claim v Hget.
    apply getClaimCode_Some in Hget as (Hlook & _).
    unfold kept. simpl.
    rewrite !(map_insert_same _ _ _ _ _ Hlook) by reflexivity.
    repeat split. destruct self. reflexivity. }
  split.
  - unfold redeemClaimCode.
    destruct (getClaimCode self c) as [[idx claim]|] eqn:Hget; [|exact Hself].
    destruct (negb (multi claim) && truthy (claimedBy claim)
              && strictNe (claimedBy claim) u); [exact Hself|].
    apply Hwritten. reflexivity.
  - intros r self'. unfold releaseClaimCode.
    destruct (getClaimCode self c) as [[idx claim]|] eqn:Hget; [|discriminate].
    intros [= _ <-]. apply Hwritten. reflexivity.
Qed.

Lemma filter_map_commute {A B : Type} (f : B -> bool) (g : A -> B)
    (l : list A) :
  List.filter f (List.map g l)
  = List.map g (List.filter (fun x => f (g x)) l).
Proof.
  induction l as [|x l IH]; simpl; [reflexivity|].
  destruct (f (g x)); simpl; now rewrite IH.
Qed.

(** X8. [getClaimCodes()] lists every claim of the badge, in order;
    [getClaimCodes({ unclaimed: true })] is that list without the
    entries marked claimed.  A code of a badge without duplicate codes
    leaves the unclaimed list once a user whose address is more than
    white space has redeemed it, a multi-use code too, and is on it
    after a release. *)
Theorem getClaimCodes_listing (self : Badge) (c u : string) (idx : nat)
    (claim : ClaimCode) :
  List.map listedCode (getClaimCodes false self)
  = List.map code (claimCodes self)
  /\ getClaimCodes true self
     = List.filter (fun e => negb (claimed e)) (getClaimCodes false self)
  /\ (getClaimCode self c = Some (idx, claim) ->
      (forall released,
         releaseClaimCode self c = Normal (true, released) ->
         In (normalizeCode c) (List.map listedCode (getClaimCodes true released)))
      /\ (List.NoDup (List.map code (claimCodes self)) ->
          trim u <> "" ->
          forall redeemed,
            redeemClaimCode self c u = (Some true, redeemed) ->
            ~ In (normalizeCode c)
                (List.map listedCode (getClaimCodes true redeemed)))).
Proof.
  split; [|split].
  - unfold getClaimCodes. rewrite List.filter_true, map_map. reflexivity.
  - unfold getClaimCodes. rewrite List.filter_true, filter_map_commute.
    reflexivity.
  - intros Hget.
    pose proof (getClaimCode_Some self c idx claim Hget) as (Hlook & Hcode).
    assert (idx < length (claimCodes self))%nat as Hidx
      by (eapply lookup_lt_Some; eauto).
    split.
    + intros released. unfold releaseClaimCode. rewrite Hget.
      intros [= <-]. unfold getClaimCodes. rewrite map_map. simpl.
      apply in_map_iff. exists (setClaimedBy claim None).
      split; [exact Hcode|]. apply filter_In. split; [|reflexivity].
      apply list_elem_of_In, list_elem_of_lookup. exists idx.
      now apply list_lookup_insert_eq.
    + intros Hnodup Hu redeemed. unfold redeemClaimCode. rewrite Hget.
      destruct (negb (multi claim) && truthy (claimedBy claim)
                && strictNe (claimedBy claim) u); [discriminate|].
      intros [= <-]. unfold getClaimCodes. rewrite map_map. simpl.
      intros Hin. apply in_map_iff in Hin as (other & Hother & Hin).
      apply filter_In in Hin as [Hin Hopen].
      apply list_elem_of_In, list_elem_of_lookup in Hin as [j Hj].
      destruct (decide (j = idx)) as [->|Hne].
      * rewrite list_lookup_insert_eq in Hj by exact Hidx.
        injection Hj as <-. simpl in Hopen.
        apply String.eqb_neq in Hu. rewrite Hu in Hopen. discriminate.
      * rewrite list_lookup_insert_ne in Hj by congruence.
        apply NoDup_ListNoDup in Hnodup.
        apply Hne.
        apply (NoDup_lookup (List.map code (claimCodes self)) j idx
                 (normalizeCode c) Hnodup).
        -- change (List.map code (claimCodes self))
             with (code <$> claimCodes self).
           rewrite list_lookup_fmap, Hj. simpl. now rewrite Hother.
        -- change (List.map code (claimCodes self))
             with (code <$> claimCodes self).
           rewrite list_lookup_fmap, Hlook. simpl. now rewrite Hcode.
Qed.

(** ** More on adding claim codes *)

Lemma addClaimCodes_normal (options : AddOptions.t) (self : Badge)
    (st : State) (accepted rejected : list string) (self' : Badge)
    (st' : State) :
  addClaimCodes options self st = Normal (accepted, rejected, self', st') ->
  sortCodes (getAllClaimCodes st) (limitOrInfinity (AddOptions.limit options))
    (candidates options)
  = (accepted, rejected)
  /\ (accepted = [] -> self' = self /\ st' = st)
  /\ (accepted <> [] ->
      save st
        (setClaimCodes self
           (claimCodes self ++ List.map (newClaim options) accepted)%list)
      = inr (self', st')).
Proof.
  unfold addClaimCodes, candidates.
  destruct (truthy (AddOptions.reservedFor options)
            && negb (Nat.eqb (length (AddOptions.codes options)) 1));
    [discriminate|].
  destruct (sortCodes _ _ _) as [acc rej].
  destruct acc as [|a acc]; simpl Nat.eqb; cbv iota.
  - intros [= <- <- <- <-]. split; [reflexivity|]. split; [auto|congruence].
  - fold (newClaim options).
    destruct (save st _) as [[err doc]|[doc st1]] eqn:Hsave; [discriminate|].
    intros [= <- <- <- <-]. split; [reflexivity|].
    split; [discriminate|]. intros _. exact Hsave.
Qed.

(** A save that succeeds is the save of a badge that passes its
    validators. *)
Lemma save_inr (st : State) (self doc : Badge) (st' : State) :
  save st self = inr (doc, st') ->
  validBadge doc = true /\ saveBadge st self = (doc, st')
  /\ doc = normalizeCategoryInfo self.
Proof.
  unfold save.
  destruct (validBadge (normalizeCategoryInfo self)) eqn:Hvalid;
    [|discriminate].
  intros [= Hsave]. split; [|split; [exact Hsave|]].
  - unfold saveBadge in Hsave. destruct (existsb _ _); injection Hsave as <- _;
      exact Hvalid.
  - unfold saveBadge in Hsave. destruct (existsb _ _); now injection Hsave.
Qed.

Lemma sortStep_partition (existingCodes : list string) (limit : Limit)
    (codes accepted rejected accepted' rejected' : list string) :
  fold_left (sortStep existingCodes limit) codes (accepted, rejected)
  = (accepted', rejected') ->
  exists a r,
    accepted' = (accepted ++ a)%list
    /\ rejected' = (rejected ++ r)%list
    /\ sublist a codes /\ sublist r codes
    /\ Permutation (a ++ r) codes
    /\ (forall c, In c r ->
                  inArray existingCodes c = true
                  \/ lengthGe accepted' limit = true).
Proof.
  revert accepted rejected.
  induction codes as [|c codes IH]; intros accepted rejected; simpl.
  - intros [= <- <-]. exists [], []. rewrite !app_nil_r.
    split; [reflexivity|]. split; [reflexivity|].
    split; [constructor|]. split; [constructor|].
    split; [constructor|]. intros x [].
  - destruct (inArray existingCodes c || lengthGe accepted limit) eqn:Htest.
    + intros H. destruct (IH _ _ H) as (a & r & -> & -> & Ha & Hr & Hp & Hwhy).
      exists a, (c :: r). rewrite <- app_assoc.
      split; [reflexivity|]. split; [reflexivity|].
      split; [now apply sublist_cons|]. split; [now apply sublist_skip|].
      split; [symmetry; apply Permutation_cons_app; now symmetry|].
      intros x [<-|Hx]; [|auto].
      apply orb_true_iff in Htest as [Hused|Hfull]; [auto|right].
      destruct limit as [n|]; [|discriminate]. simpl in *.
      apply Z.leb_le in Hfull. apply Z.leb_le.
      rewrite length_app. lia.
    + intros H. destruct (IH _ _ H) as (a & r & -> & -> & Ha & Hr & Hp & Hwhy).
      exists (c :: a), r. rewrite <- app_assoc.
      split; [reflexivity|]. split; [reflexivity|].
      split; [now apply sublist_skip|]. split; [now apply sublist_cons|].
      split; [simpl; now constructor|].
      intros x Hx. destruct (Hwhy x Hx) as [Hused|Hfull]; [auto|right].
      now rewrite <- app_assoc in Hfull.
Qed.

Lemma addClaimCodes_rejected (options : AddOptions.t) (self : Badge)
    (st : State) (accepted rejected : list string) (self' : Badge)
    (st' : State) :
  addClaimCodes options self st = Normal (accepted, rejected, self', st') ->
  Permutation (accepted ++ rejected) (candidates options)
  /\ (forall c, In c rejected ->
                In c (getAllClaimCodes st)
                \/ limitReached (AddOptions.limit options) accepted).
Proof.
  intros Hadd. apply addClaimCodes_normal in Hadd as (Hsort & _).
  unfold sortCodes in Hsort.
  destruct (sortStep_partition _ _ _ _ _ _ _ Hsort)
    as (a & r & Ha & Hr & _ & _ & Hperm & Hwhy).
  simpl in Ha, Hr. subst a r. split; [exact Hperm|].
  intros c Hc. destruct (Hwhy c Hc) as [Hused|Hfull].
  - left. now apply inArray_true.
  - right. unfold limitReached.
    destruct (limitOrInfinity (AddOptions.limit options)); [|discriminate].
    simpl in Hfull. now apply Z.leb_le.
Qed.

(** X9. What [addClaimCodes] hands to its callback: [accepted] and
    [rejected] split the candidates, each in the order of the input;
    no accepted code was in use; a code is rejected only if it was in use
    or the limit was reached; and a limit other than 0 bounds the number
    of accepted codes. *)
Theorem addClaimCodes_partition (options : AddOptions.t) (self : Badge)
    (st : State) (accepted rejected : list string) (self' : Badge)
    (st' : State) :
  addClaimCodes options self st = Normal (accepted, rejected, self', st') ->
  sublist accepted (candidates options)
  /\ sublist rejected (candidates options)
  /\ Permutation (accepted ++ rejected) (candidates options)
  /\ (forall c, In c accepted -> ~ In c (getAllClaimCodes st))
  /\ (forall c, In c rejected ->
                In c (getAllClaimCodes st)
                \/ limitReached (AddOptions.limit options) accepted)
  /\ (forall n, AddOptions.limit options = Some n -> n <> 0 ->
                Z.of_nat (length accepted) <= Z.max n 0).
Proof.
  intros Hadd. apply addClaimCodes_normal in Hadd as (Hsort & _).
  unfold sortCodes in Hsort.
  destruct (sortStep_partition _ _ _ _ _ _ _ Hsort)
    as (a & r & Ha & Hr & Hsuba & Hsubr & Hperm & Hwhy).
  simpl in Ha, Hr. subst a r.
  destruct (sortStep_accepted _ _ _ _ _ _ _ Hsort) as (new & Hnew & Hfresh & _).
  simpl in Hnew. subst new.
  split; [exact Hsuba|]. split; [exact Hsubr|]. split; [exact Hperm|].
  split; [|split].
  - intros c Hc. apply inArray_false. apply Hfresh, Hc.
  - intros c Hc. destruct (Hwhy c Hc) as [Hused|Hfull].
    + left. now apply inArray_true.
    + right. unfold limitReached.
      destruct (limitOrInfinity (AddOptions.limit options)); [|discriminate].
      simpl in Hfull. now apply Z.leb_le.
  - intros n Hn Hn0. rewrite Hn, (limitOrInfinity_nonzero n Hn0) in Hsort.
    destruct (Z.le_gt_cases 0 n) as [Hpos|Hneg].
    + pose proof (sortStep_bounded _ _ _ _ _ _ _ Hsort) as Hb.
      simpl in Hb. lia.
    + assert (accepted = []) as ->; [|simpl; lia].
      rewrite sortStep_saturated in Hsort by (simpl; apply Z.leb_le; lia).
      now injection Hsort as <- _.
Qed.

Lemma addClaimCodes_partition_witness :
  exists doc st',
    addClaimCodes
      {| AddOptions.codes := ["a"; "my-code"; "b"; "c"];
         AddOptions.limit := Some 2; AddOptions.multi := false;
         AddOptions.reservedFor := None; AddOptions.alreadyClean := false |}
      Sample.codedBadge Sample.codedState
    = Normal (["a"; "b"], ["my-code"; "c"], doc, st')
    /\ Permutation (["a"; "b"] ++ ["my-code"; "c"]) ["a"; "my-code"; "b"; "c"].
Proof.
  do 2 eexists. split; [vm_compute; reflexivity|].
  refine (proj1 (proj2 (proj2
            (addClaimCodes_partition
               {| AddOptions.codes := ["a"; "my-code"; "b"; "c"];
                  AddOptions.limit := Some 2; AddOptions.multi := false;
                  AddOptions.reservedFor := None;
                  AddOptions.alreadyClean := false |}
               Sample.codedBadge Sample.codedState
               ["a"; "b"] ["my-code"; "c"] _ _ _)))).
  vm_compute. reflexivity.
Defined.

Lemma normalizeCategoryInfo_claimCodes (self : Badge) :
  claimCodes (normalizeCategoryInfo self) = claimCodes self
  /\ _id (normalizeCategoryInfo self) = _id self.
Proof.
  unfold normalizeCategoryInfo. destruct (truthy _); split; reflexivity.
Qed.

Lemma newClaim_codes (options : AddOptions.t) (l : list string) :
  List.map code (List.map (newClaim options) l) = List.map trim l.
Proof. rewrite map_map. reflexivity. Qed.

Lemma map_trim_id (l : list string) :
  (forall c, In c l -> trim c = c) -> List.map trim l = l.
Proof.
  intros Hl. rewrite <- (map_id l) at 2. apply map_ext_in. exact Hl.
Qed.

(** What the call leaves on the badge and in the store. *)
Lemma addClaimCodes_pushed (options : AddOptions.t) (self : Badge)
    (st : State) (accepted rejected : list string) (self' : Badge)
    (st' : State) :
  stored self st ->
  addClaimCodes options self st = Normal (accepted, rejected, self', st') ->
  claimCodes self'
  = (claimCodes self ++ List.map (newClaim options) accepted)%list
  /\ stored self' st'
  /\ instanceDocs st' = instanceDocs st
  /\ (forall c, In c (getAllClaimCodes st')
                <-> In c (getAllClaimCodes st) \/ In c (List.map trim accepted))
  /\ (forall c, In c accepted -> trim c <> "").
Proof.
  intros Hstored Hadd.
  apply addClaimCodes_normal in Hadd as (_ & Hnone & Hsome).
  destruct accepted as [|a accepted].
  - destruct (Hnone eq_refl) as [-> ->]. simpl. rewrite app_nil_r.
    split; [reflexivity|]. split; [exact Hstored|]. split; [reflexivity|].
    split; [|intros c []].
    intros c. split; [auto|]. intros [H|[]]. exact H.
  - specialize (Hsome ltac:(discriminate)).
    apply save_inr in Hsome as (Hvalid & Hsome & Hdoc).
    pose proof (saveBadge_pushed st self
                  (List.map (newClaim options) (a :: accepted)) Hstored) as Hsave.
    rewrite Hsome in Hsave. destruct Hsave as (Hstored' & Hinst & Hcodes).
    assert (claimCodes self'
            = (claimCodes self
               ++ List.map (newClaim options) (a :: accepted))%list) as Hcc
      by (rewrite Hdoc; apply normalizeCategoryInfo_claimCodes).
    split; [exact Hcc|]. split; [exact Hstored'|]. split; [exact Hinst|].
    split.
    + intros c. rewrite Hcodes, newClaim_codes. reflexivity.
    + intros c Hc. unfold validBadge in Hvalid.
      apply andb_true_iff in Hvalid as [_ Hclaims].
      rewrite Hcc, forallb_app in Hclaims.
      apply andb_true_iff in Hclaims as [_ Hnew].
      rewrite forallb_forall in Hnew.
      specialize (Hnew (newClaim options c) (in_map _ _ _ Hc)).
      unfold validClaim in Hnew. simpl in Hnew.
      now apply negb_true_iff, String.eqb_neq in Hnew.
Qed.

(** X10. Adding codes to a badge of the store, when the save succeeds:
    the accepted codes are pushed onto the badge, trimmed, as unclaimed
    claims with the [multi] and the trimmed [reservedFor] of the call;
    its other fields are as the hook of the save leaves them, or as they
    were when nothing is accepted; no accepted code is empty once
    trimmed; the codes in use afterwards are those from before and the
    accepted ones, trimmed; no badge instance is touched; and an accepted
    code whose trimmed form is in normal form is found on the badge under
    that form, unclaimed. *)
Theorem addClaimCodes_effect (options : AddOptions.t) (self : Badge)
    (st : State) (accepted rejected : list string) (self' : Badge)
    (st' : State) :
  stored self st ->
  addClaimCodes options self st = Normal (accepted, rejected, self', st') ->
  claimCodes self'
  = (claimCodes self ++ List.map (newClaim options) accepted)%list
  /\ setClaimCodes self' (claimCodes self)
     = (if Nat.eqb (length accepted) 0 then self
        else normalizeCategoryInfo self)
  /\ stored self' st'
  /\ instanceDocs st' = instanceDocs st
  /\ (forall c, In c (getAllClaimCodes st')
                <-> In c (getAllClaimCodes st) \/ In c (List.map trim accepted))
  /\ (forall c, In c accepted ->
                trim c <> ""
                /\ (normalizeCode (trim c) = trim c ->
                    hasClaimCode self' (trim c) = true
                    /\ claimCodeIsClaimed self' (trim c) = Some false)).
Proof.
  intros Hstored Hadd.
  destruct (addClaimCodes_pushed _ _ _ _ _ _ _ Hstored Hadd)
    as (Hcodes & Hstored' & Hinst & Hused & Hfull).
  split; [exact Hcodes|]. split; [|split; [exact Hstored'|]].
  { apply addClaimCodes_normal in Hadd as (_ & Hnone & Hsome).
    destruct accepted as [|a accepted].
    - destruct (Hnone eq_refl) as [-> _]. apply setClaimCodes_same.
    - specialize (Hsome ltac:(discriminate)).
      apply save_inr in Hsome as (_ & _ & ->).
      unfold normalizeCategoryInfo. simpl.
      destruct (truthy (categoryAward self)); destruct self; reflexivity. }
  split; [exact Hinst|]. split; [exact Hused|].
  intros c Hc. split; [now apply Hfull|]. intros Hnormal.
  assert (In (newClaim options c) (claimCodes self')) as Hin
    by (rewrite Hcodes, in_app_iff; right; now apply in_map).
  pose proof (hasClaimCode_true self' (trim c)) as Hhas.
  pose proof (getClaimCode_found self' (trim c)) as Hlast.
  assert (hasClaimCode self' (trim c) = true) as Hfound
    by (apply Hhas; exists (newClaim options c); rewrite Hnormal; auto).
  split; [exact Hfound|].
  unfold hasClaimCode in Hfound. unfold claimCodeIsClaimed.
  destruct (getClaimCode self' (trim c)) as [[idx claim]|] eqn:Hget;
    [|discriminate].
  destruct (Hlast idx claim eq_refl) as (Hlook & Hcode & Hafter).
  assert (claimedBy claim = None) as ->; [|reflexivity].
  rewrite Hcodes in Hlook.
  destruct (Nat.lt_ge_cases idx (length (claimCodes self))) as [Hold|Hnew].
  - exfalso.
    assert (In (newClaim options c) (List.map (newClaim options) accepted))
      as Hin' by now apply in_map.
    apply list_elem_of_In, list_elem_of_lookup in Hin' as [j Hj].
    apply (Hafter (length (claimCodes self) + j)%nat (newClaim options c));
      [lia| |now rewrite Hnormal].
    rewrite Hcodes, lookup_app_r by lia.
    now replace (length (claimCodes self) + j - length (claimCodes self))%nat
      with j by lia.
  - rewrite lookup_app_r in Hlook by exact Hnew.
    apply list_elem_of_lookup_2, list_elem_of_In, in_map_iff in Hlook
      as (x & <- & _).
    reflexivity.
Qed.

Lemma addClaimCodes_effect_witness :
  exists doc st',
    addClaimCodes (AddOptions.ofArray ["fresh-code"])
      Sample.codedBadge Sample.codedState
    = Normal (["fresh-code"], [], doc, st')
    /\ hasClaimCode doc "fresh-code" = true
    /\ claimCodeIsClaimed doc "fresh-code" = Some false.
Proof.
  destruct (addClaimCodes (AddOptions.ofArray ["fresh-code"])
              Sample.codedBadge Sample.codedState)
    as [[[[accepted rejected] doc] st']|e|err x] eqn:Hadd;
    [|vm_compute in Hadd; discriminate..].
  assert (accepted = ["fresh-code"] /\ rejected = []) as [-> ->]
    by (vm_compute in Hadd; injection Hadd as <- <- _ _; auto).
  exists doc, st'. split; [reflexivity|].
  assert (stored Sample.codedBadge Sample.codedState) as Hstored.
  { split.
    - exists Sample.codedBadge. split; [left; reflexivity|reflexivity].
    - intros d [<-|[]] _. reflexivity. }
  destruct (addClaimCodes_effect _ _ _ _ _ _ _ Hstored Hadd)
    as (_ & _ & _ & _ & _ & Hfound).
  exact (proj2 (Hfound "fresh-code" (or_introl eq_refl)) eq_refl).
Defined.

Lemma sortStep_all_used (existingCodes : list string) (limit : Limit)
    (codes accepted rejected : list string) :
  (forall c, In c codes -> inArray existingCodes c = true) ->
  fold_left (sortStep existingCodes limit) codes (accepted, rejected)
  = (accepted, (rejected ++ codes)%list).
Proof.
  revert rejected. induction codes as [|c codes IH]; intros rejected Hused;
    simpl.
  - now rewrite app_nil_r.
  - rewrite (Hused c) by (left; reflexivity). simpl.
    rewrite IH by (intros x Hx; apply Hused; now right).
    now rewrite <- app_assoc.
Qed.

(** X11. Without a limit, adding the same codes to the badge a second
    time, when they have no white space around them, accepts none of
    them, rejects every candidate and changes neither the badge nor the
    store. *)
Theorem addClaimCodes_again (options : AddOptions.t) (self : Badge)
    (st : State) (accepted rejected : list string) (self' : Badge)
    (st' : State) :
  stored self st ->
  limitOrInfinity (AddOptions.limit options) = Infinity ->
  (forall c, In c (candidates options) -> trim c = c) ->
  addClaimCodes options self st = Normal (accepted, rejected, self', st') ->
  addClaimCodes options self' st'
  = Normal ([], candidates options, self', st').
Proof.
  intros Hstored Hlimit Htrim Hadd.
  destruct (addClaimCodes_rejected _ _ _ _ _ _ _ Hadd) as (Hperm & Hwhy).
  destruct (addClaimCodes_pushed _ _ _ _ _ _ _ Hstored Hadd)
    as (_ & _ & _ & Hused & _).
  assert (forall c, In c (candidates options) ->
                    inArray (getAllClaimCodes st') c = true) as Hall.
  { intros c Hc. apply inArray_true, Hused.
    pose proof (Htrim c Hc) as Hc'.
    apply (Permutation_in _ (Permutation_sym Hperm)) in Hc.
    apply in_app_iff in Hc as [Hc|Hc];
      [right; rewrite <- Hc'; now apply in_map|].
    destruct (Hwhy c Hc) as [Hin|Hfull]; [auto|].
    unfold limitReached in Hfull. now rewrite Hlimit in Hfull. }
  unfold addClaimCodes in *. fold (candidates options).
  destruct (truthy (AddOptions.reservedFor options)
            && negb (Nat.eqb (length (AddOptions.codes options)) 1));
    [discriminate|].
  unfold sortCodes. rewrite sortStep_all_used by exact Hall.
  reflexivity.
Qed.

Lemma addClaimCodes_again_witness :
  exists doc st',
    addClaimCodes (AddOptions.ofArray ["a"; "a"; "b"])
      Sample.emptyBadge Sample.plainState
    = Normal (["a"; "b"], [], doc, st')
    /\ addClaimCodes (AddOptions.ofArray ["a"; "a"; "b"]) doc st'
       = Normal ([], ["a"; "b"], doc, st').
Proof.
  destruct (addClaimCodes (AddOptions.ofArray ["a"; "a"; "b"])
              Sample.emptyBadge Sample.plainState)
    as [[[[accepted rejected] doc] st']|e|err x] eqn:Hadd;
    [|vm_compute in Hadd; discriminate..].
  assert (accepted = ["a"; "b"] /\ rejected = []) as [-> ->]
    by (vm_compute in Hadd; injection Hadd as <- <- _ _; auto).
  exists doc, st'. split; [reflexivity|].
  apply (addClaimCodes_again (AddOptions.ofArray ["a"; "a"; "b"])
           Sample.emptyBadge Sample.plainState ["a"; "b"] []).
  - split.
    + exists Sample.emptyBadge. split; [left; reflexivity|reflexivity].
    + intros d [<-|[]] _. reflexivity.
  - reflexivity.
  - intros c Hc. vm_compute in Hc. destruct Hc as [<-|[<-|[]]]; reflexivity.
  - exact Hadd.
Defined.

(** ** Codes stay unique across the store *)

Lemma fold_app_concat {A B : Type} (f : A -> list B) (l : list A)
    (acc : list B) :
  fold_left (fun codes b => (codes ++ f b)%list) l acc
  = (acc ++ concat (List.map f l))%list.
Proof.
  revert acc. induction l as [|x l IH]; intros acc; simpl.
  - now rewrite app_nil_r.
  - rewrite IH, app_assoc. reflexivity.
Qed.

Lemma getAllClaimCodes_concat (st : State) :
  getAllClaimCodes st
  = concat (List.map (fun b => List.map code (claimCodes b)) (badgeDocs st)).
Proof. unfold getAllClaimCodes. now rewrite fold_app_concat. Qed.

Lemma uniq_fold (l acc : list string) :
  List.NoDup acc ->
  let result :=
    fold_left (fun result value =>
                 if inArray result value then result
                 else (result ++ [value])%list) l acc in
  List.NoDup result /\ forall x, In x result <-> In x acc \/ In x l.
Proof.
  revert acc. induction l as [|v l IH]; intros acc Hacc; simpl.
  - split; [exact Hacc|]. intros x. tauto.
  - destruct (inArray acc v) eqn:Hv.
    + destruct (IH acc Hacc) as [Hnd Hin]. split; [exact Hnd|].
      intros x. rewrite Hin. apply inArray_true in Hv.
      split; [tauto|]. intros [H|[<-|H]]; auto.
    + assert (List.NoDup (acc ++ [v])) as Hacc'.
      { apply List.NoDup_app; [exact Hacc|repeat constructor; intros []|].
        intros x Hx [<-|[]]. apply inArray_false in Hv. contradiction. }
      destruct (IH _ Hacc') as [Hnd Hin]. split; [exact Hnd|].
      intros x. rewrite Hin, in_app_iff. simpl. tauto.
Qed.

Lemma uniq_spec (l : list string) :
  List.NoDup (uniq l) /\ forall x, In x (uniq l) <-> In x l.
Proof.
  destruct (uniq_fold l [] (List.NoDup_nil _)) as [Hnd Hin].
  split; [exact Hnd|]. intros x. rewrite (Hin x). simpl. tauto.
Qed.

Lemma replace_by_id (docs : list Badge) (d doc : Badge) (pre post : list Badge) :
  docs = (pre ++ d :: post)%list ->
  List.NoDup (List.map _id docs) ->
  _id doc = _id d ->
  List.map (fun b => if String.eqb (_id b) (_id doc) then doc else b) docs
  = (pre ++ doc :: post)%list.
Proof.
  intros -> Hnd Hid. rewrite map_app in Hnd. simpl in Hnd.
  assert (forall b, In b pre \/ In b post -> _id b <> _id d) as Hother.
  { intros b Hb Heq. apply NoDup_remove_2 in Hnd. apply Hnd.
    rewrite in_app_iff, <- Heq. destruct Hb; [left|right]; now apply in_map. }
  rewrite map_app. simpl. rewrite Hid, String.eqb_refl.
  f_equal; [|f_equal].
  - rewrite <- (map_id pre) at 2. apply map_ext_in. intros b Hb.
    destruct (String.eqb_spec (_id b) (_id d)) as [Heq|_]; [|reflexivity].
    exfalso. exact (Hother b (or_introl Hb) Heq).
  - rewrite <- (map_id post) at 2. apply map_ext_in. intros b Hb.
    destruct (String.eqb_spec (_id b) (_id d)) as [Heq|_]; [|reflexivity].
    exfalso. exact (Hother b (or_intror Hb) Heq).
Qed.

(** X12. The codes in use stay pairwise distinct.  When the badges of
    the store have distinct ids and no code is in use twice, adding codes
    that have no white space around them to a stored badge leaves it so,
    provided the candidates are duplicate-free whenever the caller
    asserts [alreadyClean]. *)
Theorem addClaimCodes_keeps_unique (options : AddOptions.t) (self : Badge)
    (st : State) (accepted rejected : list string) (self' : Badge)
    (st' : State) :
  stored self st ->
  idsUnique st ->
  List.NoDup (getAllClaimCodes st) ->
  (AddOptions.alreadyClean options = true ->
   List.NoDup (AddOptions.codes options)) ->
  (forall c, In c (candidates options) -> trim c = c) ->
  addClaimCodes options self st = Normal (accepted, rejected, self', st') ->
  List.NoDup (getAllClaimCodes st') /\ idsUnique st'.
Proof.
  intros Hstored Hids Hcodes Hclean Htrim Hadd.
  assert (List.NoDup (candidates options)) as Hcand.
  { unfold candidates. destruct (AddOptions.alreadyClean options);
      [auto|apply uniq_spec]. }
  pose proof (addClaimCodes_normal _ _ _ _ _ _ _ Hadd) as (Hsort & Hnone & Hsome).
  unfold sortCodes in Hsort.
  destruct (sortStep_accepted _ _ _ _ _ _ _ Hsort) as (new & Hnew & Hfresh & Hnd).
  simpl in Hnew. subst new. specialize (Hnd Hcand).
  assert (List.map trim accepted = accepted) as Htrimmed
    by (apply map_trim_id; intros c Hc; apply Htrim, (Hfresh c Hc)).
  destruct accepted as [|a accepted].
  - destruct (Hnone eq_refl) as [_ ->]. auto.
  - specialize (Hsome ltac:(discriminate)).
    apply save_inr in Hsome as (_ & Hsome & _).
    destruct Hstored as [(d & Hd & Hdid) Hsame].
    destruct (normalizeCategoryInfo_claimCodes
                (setClaimCodes self
                   (claimCodes self
                    ++ List.map (newClaim options) (a :: accepted))%list))
      as [Hdoccodes Hdocid].
    unfold saveBadge in Hsome.
    set (doc := normalizeCategoryInfo _) in *.
    assert (existsb (fun b => String.eqb (_id b) (_id doc)) (badgeDocs st) = true)
      as Hex.
    { apply existsb_exists. exists d. split; [exact Hd|].
      rewrite Hdocid. simpl. rewrite Hdid. apply String.eqb_refl. }
    rewrite Hex in Hsome. injection Hsome as <- <-.
    destruct (in_split _ _ Hd) as (pre & post & Hsplit).
    assert (_id doc = _id d) as Hiddoc by (rewrite Hdocid; simpl; congruence).
    pose proof (replace_by_id _ d doc pre post Hsplit Hids Hiddoc) as Hrepl.
    split.
    + set (cpre := concat (List.map (fun b => List.map code (claimCodes b)) pre)).
      set (cpost := concat (List.map (fun b => List.map code (claimCodes b)) post)).
      set (cd := List.map code (claimCodes self)).
      assert (getAllClaimCodes st = (cpre ++ cd ++ cpost)%list) as Hst.
      { rewrite getAllClaimCodes_concat, Hsplit, map_app, concat_app.
        cbn [List.map concat]. now rewrite (Hsame d Hd Hdid). }
      assert (getAllClaimCodes
                (setBadgeDocs st
                   (List.map
                      (fun b => if String.eqb (_id b) (_id doc) then doc else b)
                      (badgeDocs st)))
              = (cpre ++ (cd ++ a :: accepted) ++ cpost)%list) as Hst'.
      { rewrite getAllClaimCodes_concat. cbn [badgeDocs setBadgeDocs].
        rewrite Hrepl, map_app, concat_app. cbn [List.map concat].
        rewrite Hdoccodes. cbn [claimCodes setClaimCodes].
        now rewrite map_app, newClaim_codes, Htrimmed. }
      rewrite Hst', Hst in *.
      apply (Permutation_NoDup
               (l := ((cpre ++ cd ++ cpost) ++ a :: accepted)%list)).
      * rewrite <- !app_assoc. apply Permutation_app_head.
        apply Permutation_app_head. apply Permutation_app_comm.
      * apply List.NoDup_app; [exact Hcodes|exact Hnd|].
        intros c Hc Hc'. destruct (Hfresh c Hc') as (_ & Hf).
        apply inArray_false in Hf. contradiction.
    + unfold idsUnique in *. cbn [badgeDocs setBadgeDocs].
      rewrite Hrepl. rewrite Hsplit in Hids.
      rewrite map_app in *. cbn [List.map] in *. now rewrite Hiddoc.
Qed.

Lemma addClaimCodes_keeps_unique_witness :
  exists doc st',
    addClaimCodes (AddOptions.ofArray ["a"; "my-code"; "a"])
      Sample.codedBadge Sample.codedState
    = Normal (["a"], ["my-code"], doc, st')
    /\ List.NoDup (getAllClaimCodes st').
Proof.
  destruct (addClaimCodes (AddOptions.ofArray ["a"; "my-code"; "a"])
              Sample.codedBadge Sample.codedState)
    as [[[[accepted rejected] doc] st']|e|err x] eqn:Hadd;
    [|vm_compute in Hadd; discriminate..].
  assert (accepted = ["a"] /\ rejected = ["my-code"]) as [-> ->]
    by (vm_compute in Hadd; injection Hadd as <- <- _ _; auto).
  exists doc, st'. split; [reflexivity|].
  refine (proj1 (addClaimCodes_keeps_unique _ _ _ _ _ _ _ _ _ _ _ _ Hadd)).
  - split.
    + exists Sample.codedBadge. split; [left; reflexivity|reflexivity].
    + intros d [<-|[]] _. reflexivity.
  - repeat constructor. intros [].
  - vm_compute. repeat constructor; simpl; intuition discriminate.
  - discriminate.
  - intros c Hc. vm_compute in Hc. destruct Hc as [<-|[<-|[]]]; reflexivity.
Defined.

(** ** Finding the badge of a code *)

(** X13. [Badge.findByClaimCode(code)] finds a badge exactly when
    [getAllClaimCodes] lists the code, which is when [addClaimCodes]
    refuses it as in use; the badge found is a stored one that carries
    the code, and [hasClaimCode] confirms it when the code is in normal
    form. *)
Theorem findByClaimCode_spec (st : State) (c : string) :
  (findByClaimCode st c = None <-> ~ In c (getAllClaimCodes st))
  /\ (inArray (getAllClaimCodes st) c
      = match findByClaimCode st c with Some _ => true | None => false end)
  /\ forall b,
       findByClaimCode st c = Some b ->
       In b (badgeDocs st)
       /\ (exists claim, In claim (claimCodes b) /\ code claim = c)
       /\ (normalizeCode c = c -> hasClaimCode b c = true).
Proof.
  assert (forall b, findByClaimCode st c = Some b ->
                    In b (badgeDocs st)
                    /\ exists claim, In claim (claimCodes b) /\ code claim = c)
    as Hsome.
  { intros b Hfind. unfold findByClaimCode in Hfind.
    apply find_some in Hfind as [Hb Hex]. split; [exact Hb|].
    apply existsb_exists in Hex as (claim & Hclaim & Heq).
    apply String.eqb_eq in Heq. eauto. }
  assert (findByClaimCode st c = None <-> ~ In c (getAllClaimCodes st))
    as Hnone.
  { rewrite getAllClaimCodes_In. split.
    - intros Hfind (b & claim & Hb & Hclaim & Hcode).
      unfold findByClaimCode in Hfind.
      pose proof (find_none _ _ Hfind b Hb) as Hex.
      assert (existsb (fun claim => String.eqb (code claim) c) (claimCodes b)
              = true) as Hex'
        by (apply existsb_exists; exists claim; split;
            [exact Hclaim|now apply String.eqb_eq]).
      congruence.
    - intros Hnot.
      destruct (findByClaimCode st c) as [b|] eqn:Hfind; [|reflexivity].
      exfalso. apply Hnot.
      destruct (Hsome b eq_refl) as (Hb & claim & Hclaim & Hcode).
      eauto. }
  split; [exact Hnone|]. split.
  - destruct (findByClaimCode st c) as [b|] eqn:Hfind.
    + apply inArray_true.
      destruct (In_dec string_dec c (getAllClaimCodes st)) as [Hin|Hnot];
        [exact Hin|].
      apply Hnone in Hnot. discriminate.
    + apply inArray_false, Hnone. reflexivity.
  - intros b Hfind. destruct (Hsome b Hfind) as (Hb & claim & Hclaim & Hcode).
    split; [exact Hb|]. split; [eauto|].
    intros Hnormal. apply hasClaimCode_true.
    exists claim. rewrite Hnormal. auto.
Qed.

(** ** More on generating codes *)

Lemma addClaimCodes_negative (phrases : list string) (numLeft : Z)
    (reservedFor : option string) (self : Badge) (st : State) :
  numLeft < 0 ->
  truthy reservedFor = false ->
  addClaimCodes (roundOptions phrases numLeft reservedFor) self st
  = Normal ([], phrases, self, st).
Proof.
  intros Hneg Hr. unfold addClaimCodes, roundOptions.
  cbn [AddOptions.reservedFor AddOptions.codes AddOptions.limit
       AddOptions.multi AddOptions.alreadyClean].
  rewrite Hr. cbn [andb].
  rewrite limitOrInfinity_nonzero by lia.
  unfold sortCodes.
  rewrite sortStep_saturated by (simpl; apply Z.leb_le; lia).
  reflexivity.
Qed.

Lemma untilDone_negative {G : Type} (gen : G -> Z -> list string * G)
    (n : Z) (reservedFor : option string) (fuel : nat) :
  n < 0 -> truthy reservedFor = false ->
  forall g accepted self st,
    untilDone fuel gen n reservedFor g accepted self st = None.
Proof.
  intros Hn Hr. induction fuel as [|fuel IH]; intros g accepted self st;
    [reflexivity|].
  rewrite untilDone_S.
  destruct (Z.eqb_spec (Z.of_nat (length accepted)) n) as [Heq|_]; [lia|].
  rewrite addClaimCodes_negative by (lia || exact Hr).
  apply IH.
Qed.

(** X14. The edges of the count.  Asked for no code,
    [generateClaimCodes] calls back at once with none, without asking the
    generator or touching the badge; asked for a negative number of
    codes, it never calls back, whatever the generator returns. *)
Theorem generateClaimCodes_count_edges {G : Type}
    (gen : G -> Z -> list string * G) (n : Z) (g : G) (self : Badge)
    (st : State) (fuel : nat) :
  let options :=
    {| GenerateOptions.count := n;
       GenerateOptions.codeGenerator := gen;
       GenerateOptions.reservedFor := None |} in
  (n = 0 ->
   generateClaimCodes (S fuel) options g self st
   = Some (Normal ([], g, self, st)))
  /\ (n < 0 -> generateClaimCodes fuel options g self st = None).
Proof.
  intros options. unfold generateClaimCodes, options.
  cbn [GenerateOptions.reservedFor GenerateOptions.count
       GenerateOptions.codeGenerator truthy].
  split.
  - intros ->. reflexivity.
  - intros Hn. now apply untilDone_negative.
Qed.

Lemma addClaimCodes_one (c : string) (reservedFor : option string)
    (self : Badge) (st : State) :
  ~ In c (getAllClaimCodes st) ->
  addClaimCodes (roundOptions [c] 1 reservedFor) self st
  = match save st
            (setClaimCodes self
               (claimCodes self
                ++ [ {| code := trim c; claimedBy := None;
                        reservedFor := trimSetter reservedFor;
                        multi := false |} ])%list) with
    | inl (err, doc) => Errback err ([c], [], doc, st)
    | inr (doc, st') => Normal ([c], [], doc, st')
    end.
Proof.
  intros Hfresh. apply inArray_false in Hfresh.
  unfold addClaimCodes, roundOptions.
  cbn [AddOptions.reservedFor AddOptions.codes AddOptions.limit
       AddOptions.multi AddOptions.alreadyClean length Nat.eqb negb].
  rewrite andb_false_r.
  unfold sortCodes. cbn [fold_left sortStep limitOrInfinity Z.eqb lengthGe
                         length Z.of_nat Z.leb Z.compare].
  rewrite Hfresh. reflexivity.
Qed.

(** The first round of a call with [reservedFor]. *)
Lemma generateClaimCodes_reserved_round {G : Type}
    (gen : G -> Z -> list string * G) (n : Z) (r : string) (g : G)
    (self : Badge) (st : State) (fuel : nat) (c : string) (g' : G) :
  r <> "" ->
  gen g 1 = ([c], g') ->
  ~ In c (getAllClaimCodes st) ->
  generateClaimCodes (S (S fuel))
    {| GenerateOptions.count := n;
       GenerateOptions.codeGenerator := gen;
       GenerateOptions.reservedFor := Some r |} g self st
  = match save st
            (setClaimCodes self
               (claimCodes self
                ++ [ {| code := trim c; claimedBy := None;
                        reservedFor := Some (trim r);
                        multi := false |} ])%list) with
    | inl (err, doc) => Some (Errback err ([], g', doc, st))
    | inr (doc, st') => Some (Normal ([c], g', doc, st'))
    end.
Proof.
  intros Hr Hgen Hfresh.
  assert (truthy (Some r) = true) as Htruthy
    by (simpl; apply String.eqb_neq in Hr; now rewrite Hr).
  unfold generateClaimCodes.
  cbn [GenerateOptions.reservedFor GenerateOptions.count
       GenerateOptions.codeGenerator].
  rewrite Htruthy.
  rewrite untilDone_S.
  change (Z.of_nat (@length string [])) with 0.
  change (1 - 0) with 1. change (0 =? 1) with false. cbv iota.
  rewrite Hgen. cbn [fst snd].
  rewrite (addClaimCodes_one c (Some r) self st Hfresh).
  cbn [trimSetter option_map].
  destruct (save st _) as [[err doc]|[doc st']]; [reflexivity|].
  rewrite untilDone_S.
  change (Z.of_nat (length ([] ++ [c])) =? 1) with true. reflexivity.
Qed.

Lemma generateClaimCodes_reserved_one {G : Type}
    (gen : G -> Z -> list string * G) (n : Z) (r : string) (g : G)
    (self : Badge) (st : State) (fuel : nat) (c : string) (g' : G) :
  r <> "" ->
  gen g 1 = ([c], g') ->
  ~ In c (getAllClaimCodes st) ->
  stored self st ->
  validBadge self = true ->
  trim c <> "" ->
  exists self' st',
    generateClaimCodes (S (S fuel))
      {| GenerateOptions.count := n;
         GenerateOptions.codeGenerator := gen;
         GenerateOptions.reservedFor := Some r |} g self st
    = Some (Normal ([c], g', self', st'))
    /\ claimCodes self'
       = (claimCodes self
          ++ [ {| code := trim c; claimedBy := None;
                  reservedFor := Some (trim r); multi := false |} ])%list
    /\ instanceDocs st' = instanceDocs st
    /\ In (trim c) (getAllClaimCodes st').
Proof.
  intros Hr Hgen Hfresh Hstored Hvalid Hc.
  rewrite (generateClaimCodes_reserved_round gen n r g self st fuel c g'
             Hr Hgen Hfresh).
  destruct (save_pushed st self
              [ {| code := trim c; claimedBy := None;
                   reservedFor := Some (trim r); multi := false |} ]
              Hstored Hvalid)
    as (doc & st' & -> & _ & _ & Hcodes & _ & Hinst & Hused).
  { unfold validClaim. simpl. apply String.eqb_neq in Hc. now rewrite Hc. }
  exists doc, st'. split; [reflexivity|]. split; [exact Hcodes|].
  split; [exact Hinst|]. apply Hused. right. left. reflexivity.
Qed.

Lemma generateClaimCodes_reserved_empty {G : Type}
    (gen : G -> Z -> list string * G) (n : Z) (r : string) (g : G)
    (self : Badge) (st : State) (fuel : nat) (c : string) (g' : G) :
  r <> "" ->
  gen g 1 = ([c], g') ->
  ~ In c (getAllClaimCodes st) ->
  trim c = "" ->
  exists doc,
    generateClaimCodes (S (S fuel))
      {| GenerateOptions.count := n;
         GenerateOptions.codeGenerator := gen;
         GenerateOptions.reservedFor := Some r |} g self st
    = Some (Errback validationError ([], g', doc, st)).
Proof.
  intros Hr Hgen Hfresh Hc.
  rewrite (generateClaimCodes_reserved_round gen n r g self st fuel c g'
             Hr Hgen Hfresh).
  unfold save. rewrite validBadge_normalizeCategoryInfo.
  assert (validBadge
            (setClaimCodes self
               (claimCodes self
                ++ [ {| code := trim c; claimedBy := None;
                        reservedFor := Some (trim r);
                        multi := false |} ])%list) = false) as ->.
  { unfold validBadge. simpl. rewrite forallb_app. simpl.
    unfold validClaim at 2. simpl. rewrite Hc. simpl.
    now rewrite !andb_false_r. }
  eauto.
Qed.

(** X15. With [reservedFor], [generateClaimCodes] ignores the count it
    is given and works for one code.  When the generator answers the
    request for one phrase with none or several, the error of
    [addClaimCodes] is thrown out of the call.  When it answers with one
    unused code that is more than white space, and the badge is a stored
    one that passes its validators, that code is returned after one round
    and pushed, trimmed, onto the stored badge as a single-use claim
    reserved for the trimmed address.  When it answers with an unused
    code of white space only, the save fails: the callback gets the
    validation error and the store is as before. *)
Theorem generateClaimCodes_reserved {G : Type}
    (gen : G -> Z -> list string * G) (n : Z) (r : string) (g : G)
    (self : Badge) (st : State) (fuel : nat) :
  r <> "" ->
  let options :=
    {| GenerateOptions.count := n;
       GenerateOptions.codeGenerator := gen;
       GenerateOptions.reservedFor := Some r |} in
  (length (fst (gen g 1)) <> 1%nat ->
   generateClaimCodes (S fuel) options g self st
   = Some (Throw (Error reservedForMessage)))
  /\ (forall c g',
        gen g 1 = ([c], g') ->
        ~ In c (getAllClaimCodes st) ->
        (stored self st ->
         validBadge self = true ->
         trim c <> "" ->
         exists self' st',
           generateClaimCodes (S (S fuel)) options g self st
           = Some (Normal ([c], g', self', st'))
           /\ claimCodes self'
              = (claimCodes self
                 ++ [ {| code := trim c; claimedBy := None;
                         reservedFor := Some (trim r);
                         multi := false |} ])%list
           /\ instanceDocs st' = instanceDocs st
           /\ In (trim c) (getAllClaimCodes st'))
        /\ (trim c = "" ->
            exists doc,
              generateClaimCodes (S (S fuel)) options g self st
              = Some (Errback validationError ([], g', doc, st)))).
Proof.
  intros Hr options.
  assert (truthy (Some r) = true) as Htruthy
    by (simpl; apply String.eqb_neq in Hr; now rewrite Hr).
  split.
  - intros Hlen. unfold generateClaimCodes, options.
    cbn [GenerateOptions.reservedFor GenerateOptions.count
         GenerateOptions.codeGenerator].
    rewrite Htruthy. rewrite untilDone_S.
    change (Z.of_nat (@length string [])) with 0.
    change (1 - 0) with 1. change (0 =? 1) with false. cbv iota.
    unfold addClaimCodes, roundOptions.
    cbn [AddOptions.reservedFor AddOptions.codes].
    rewrite Htruthy. apply Nat.eqb_neq in Hlen. rewrite Hlen. reflexivity.
  - intros c g' Hgen Hfresh. split.
    + intros Hstored Hvalid Hc.
      exact (generateClaimCodes_reserved_one gen n r g self st fuel c g'
               Hr Hgen Hfresh Hstored Hvalid Hc).
    + intros Hc.
      exact (generateClaimCodes_reserved_empty gen n r g self st fuel c g'
               Hr Hgen Hfresh Hc).
Qed.

Lemma generateClaimCodes_reserved_witness :
  generateClaimCodes 1
    {| GenerateOptions.count := 5;
       GenerateOptions.codeGenerator :=
         (fun (g : unit) (n : Z) => (["one"; "two"], g));
       GenerateOptions.reservedFor := Some "bob@example.org" |}
    tt Sample.codedBadge Sample.codedState
  = Some (Throw (Error reservedForMessage))
  /\ exists self' st',
       generateClaimCodes 2
         {| GenerateOptions.count := 5;
            GenerateOptions.codeGenerator := Counting.codeGenerator;
            GenerateOptions.reservedFor := Some "bob@example.org" |}
         10%nat Sample.codedBadge Sample.codedState
       = Some (Normal ([Counting.letters 11], 11%nat, self', st')).
Proof.
  split.
  - apply (proj1 (generateClaimCodes_reserved
                    (fun (g : unit) (n : Z) => (["one"; "two"], g))
                    5 "bob@example.org" tt Sample.codedBadge
                    Sample.codedState 0 ltac:(discriminate))).
    simpl. lia.
  - destruct (proj1 (proj2 (generateClaimCodes_reserved Counting.codeGenerator
                              5 "bob@example.org" 10%nat Sample.codedBadge
                              Sample.codedState 0 ltac:(discriminate))
                       (Counting.letters 11) 11%nat eq_refl
                       ltac:(vm_compute; intros [H|[H|[H|[]]]];
                             discriminate H)))
      as (self' & st' & Hrun & _).
    + split.
      * exists Sample.codedBadge. split; [left; reflexivity|reflexivity].
      * intros d [<-|[]] _. reflexivity.
    + reflexivity.
    + discriminate.
    + exists self', st'. exact Hrun.
Defined.

(** ** Reserving a code *)

(** X16. [reserveAndNotify]: a user who already has an instance under
    the key of the address as given and the badge gets [null] and
    nothing changes.  Any other user with a non-empty address is proposed
    the code of the generator, if that code is unused.  When the code is
    more than white space and the badge is a stored one that passes its
    validators, the user gets the code: it is pushed, trimmed, onto the
    stored badge as a single-use claim reserved for the trimmed address,
    the notice is written, and no instance is created.  When the code is
    white space only, the save fails: the callback gets the validation
    error, nothing is stored and no notice is written. *)
Theorem reserveAndNotify_cases {G : Type} (gen : G -> Z -> list string * G)
    (g : G) (email : string) (self : Badge) (st : State) (fuel : nat) :
  (hasKey st (Some (email ++ "." ++ _id self)) = true ->
   reserveAndNotify fuel gen g email self st
   = Some (Normal (None, g, self, st)))
  /\ (hasKey st (Some (email ++ "." ++ _id self)) = false ->
      email <> "" ->
      forall c g',
        gen g 1 = ([c], g') ->
        ~ In c (getAllClaimCodes st) ->
        (stored self st ->
         validBadge self = true ->
         trim c <> "" ->
         exists self' st',
           reserveAndNotify (S (S fuel)) gen g email self st
           = Some (Normal (Some c, g', self', st'))
           /\ claimCodes self'
              = (claimCodes self
                 ++ [ {| code := trim c; claimedBy := None;
                         reservedFor := Some (trim email);
                         multi := false |} ])%list
           /\ instanceDocs st' = instanceDocs st
           /\ In (trim c) (getAllClaimCodes st')
           /\ In "TODO: WRITE NOTIFICATION/WEBHOOK CODE." (consoleLog st'))
        /\ (trim c = "" ->
            exists doc,
              reserveAndNotify (S (S fuel)) gen g email self st
              = Some (Errback validationError (None, g', doc, st)))).
Proof.
  unfold reserveAndNotify. split.
  - intros ->. reflexivity.
  - intros -> Hemail c g' Hgen Hfresh.
    pose proof Hemail as Hne. apply String.eqb_neq in Hne. rewrite Hne.
    split.
    + intros Hstored Hvalid Hc.
      destruct (generateClaimCodes_reserved_one gen 1 email g self st fuel
                  c g' Hemail Hgen Hfresh Hstored Hvalid Hc)
        as (self' & st' & -> & Hcodes & Hinst & Hused).
      exists self', (log "TODO: WRITE NOTIFICATION/WEBHOOK CODE." st').
      split; [reflexivity|]. split; [exact Hcodes|]. split; [exact Hinst|].
      split.
      * rewrite getAllClaimCodes_In in *. exact Hused.
      * simpl. rewrite in_app_iff. right. left. reflexivity.
    + intros Hc.
      destruct (generateClaimCodes_reserved_empty gen 1 email g self st fuel
                  c g' Hemail Hgen Hfresh Hc) as (doc & ->).
      exists doc. reflexivity.
Qed.

Lemma reserveAndNotify_cases_witness :
  exists self' st',
    reserveAndNotify 2 Counting.codeGenerator 3%nat "bob@example.org"
      Sample.codedBadge Sample.codedState
    = Some (Normal (Some "aaaa", 4%nat, self', st')).
Proof.
  destruct (proj1 (proj2 (reserveAndNotify_cases Counting.codeGenerator 3%nat
                            "bob@example.org" Sample.codedBadge
                            Sample.codedState 0)
                     eq_refl ltac:(discriminate) "aaaa" 4%nat eq_refl
                     ltac:(vm_compute; intros [H|[H|[H|[]]]];
                           discriminate H)))
    as (self' & st' & Hrun & _).
  - split.
    + exists Sample.codedBadge. split; [left; reflexivity|reflexivity].
    + intros d [<-|[]] _. reflexivity.
  - reflexivity.
  - discriminate.
  - exists self', st'. exact Hrun.
Defined.

(** ** More on awards *)

(** The waterfalls of a fresh award end when fuel is left for every badge
    the user can still be given. *)
Lemma cascade_ends (X : Externals) (email : string) (fuel : nat)
    (cats : list string) (st : State) :
  (pending st email < fuel)%nat ->
  exists r st',
    concatSeries
      (fun category s =>
         asyncMap (award X fuel (newOpts email))
           (cascadeTargets s email category) s)
      cats st
    = Some (r, st')
    /\ grows st st'.
Proof.
  intros Hpending.
  apply (concatSeries_ends
           (fun category s =>
              asyncMap (award X fuel (newOpts email))
                (cascadeTargets s email category) s)
           (fun s => (pending s email < fuel)%nat)).
  - intros s s' Hs Hg. pose proof (pending_grows s s' email Hg). lia.
  - intros category s Hs.
    apply (asyncMap_ends (award X fuel (newOpts email))
             (fun b s => In b (badgeDocs s) /\ (pending s email < fuel)%nat)).
    + intros b s0 s' [Hin Hlt] Hg. split.
      * destruct Hg as (-> & _). exact Hin.
      * pose proof (pending_grows s0 s' email Hg). lia.
    + intros b s0 Hb. exact (award_ends X email fuel true b s0 (or_introl Hb)).
    + apply List.Forall_forall. intros b Hb. split; [|exact Hs].
      eapply cascadeTargets_stored; exact Hb.
  - exact Hpending.
Qed.

(** A fresh award whose hooks and validators pass: the instance is
    saved first, whatever the cascade does afterwards. *)
Lemma award_fresh (X : Externals) (email : string) (fuel : nat)
    (sendEmail : bool) (self : Badge) (st : State) (a : string) :
  validUser (trim email) = true ->
  assertable X st email (_id self) a ->
  hasKey st (keyFor email (_id self)) = false ->
  (pending st email < fuel)%nat ->
  exists out st',
    award X (S fuel) {| AwardOptions.user := email;
                        AwardOptions.sendEmail := sendEmail |} self st
    = Some (out, st')
    /\ grows st st'
    /\ In (awarded X email (_id self) a) (instanceDocs st')
    /\ (checkForCategoryBadges self = false ->
        out = Calls (CbResult (VInstance (awarded X email (_id self) a)) [])
        /\ st' = afterSave (awarded X email (_id self) a) sendEmail st).
Proof.
  intros Hvalid Ha Hkey Hpending.
  set (saved := awarded X email (_id self) a).
  assert (grows st (afterSave saved sendEmail st)) as Hg
    by (apply afterSave_grows; exact Hkey).
  destruct (checkForCategoryBadges self) eqn:Hcheck.
  - rewrite (award_contributor X email Hvalid fuel sendEmail self st a
               Ha Hkey Hcheck).
    fold saved.
    destruct (cascade_ends X email fuel (categories self)
                (afterSave saved sendEmail st))
      as (r & st3 & -> & Hg3).
    { pose proof (pending_grows _ _ email Hg). lia. }
    assert (grows st st3) as Hg' by (eapply grows_trans; eauto).
    assert (In saved (instanceDocs st3)) as Hin
      by (apply (grows_In _ _ _ Hg3), afterSave_In).
    destruct r as [e|err|instances]; eexists _, st3;
      (split; [reflexivity|]; split; [exact Hg'|];
       split; [exact Hin|discriminate]).
  - rewrite (award_plain X email Hvalid fuel sendEmail self st a
               Ha Hkey Hcheck).
    fold saved. eexists _, _. split; [reflexivity|]. split; [exact Hg|].
    split; [apply afterSave_In|]. intros _. split; reflexivity.
Qed.

(** X17. [award] always ends.  With fuel for the depth of the cascade
    it calls back or throws, whatever the badge, the store, the address
    and the code outside these sources; the store only grows: the badges
    stay, instances are appended, the keys stay unique.  The save of the
    new instance decides how.  When no badge has the [_id] of the badge
    as its [shortname], the hook throws a [TypeError] and the store is as
    before.  When [makeAssertion] fails, the callback gets its error, or
    nothing if the error has the code of a duplicate key.  When a
    validator refuses the address, the assertion or the hash, the
    callback gets the validation error.  When the key is taken, the
    callback gets nothing.  In each of these cases the store is as
    before; in any other, the store holds the new instance afterwards. *)
Theorem award_always_ends (X : Externals) (email : string)
    (sendEmail : bool) (self : Badge) (st : State) (fuel : nat) :
  (length (badgeDocs st) + 2 <= fuel)%nat ->
  exists out st',
    award X fuel {| AwardOptions.user := email;
                    AwardOptions.sendEmail := sendEmail |} self st
    = Some (out, st')
    /\ grows st st'
    /\ match findOneByShortname st (_id self) with
       | None => out = Throws TypeError /\ st' = st
       | Some found =>
           match makeAssertion X found (trim email) with
           | inl err =>
               out = Calls (if isDuplicateKey err then CbNothing
                            else CbError err)
               /\ st' = st
           | inr a =>
               if validUser (trim email)
                  && negb (String.eqb (trim a) "")
                  && negb (String.eqb (util_hash X (trim a)) "")
               then if hasKey st (keyFor email (_id self))
                    then out = Calls CbNothing /\ st' = st
                    else In (awarded X email (_id self) a) (instanceDocs st')
               else out = Calls (CbError validationError) /\ st' = st
           end
       end.
Proof.
  intros Hfuel. destruct fuel as [|fuel]; [lia|].
  destruct (findOneByShortname st (_id self)) as [found|] eqn:Hfound.
  - destruct (makeAssertion X found (trim email)) as [err|a] eqn:Hmade.
    + rewrite award_S, saveInstance_new, Hfound, Hmade.
      destruct (isDuplicateKey err); eexists _, st;
        (split; [reflexivity|]; split; [apply grows_refl|];
         split; reflexivity).
    + destruct (validUser (trim email)
                && negb (String.eqb (trim a) "")
                && negb (String.eqb (util_hash X (trim a)) "")) eqn:Hpass.
      * apply andb_true_iff in Hpass as [Hpass Hh].
        apply andb_true_iff in Hpass as [Hvalid Ht].
        apply negb_true_iff, String.eqb_neq in Ht, Hh.
        assert (assertable X st email (_id self) a) as Ha
          by (exists found; auto).
        destruct (hasKey st (keyFor email (_id self))) eqn:Hkey.
        -- rewrite (award_held X email Hvalid fuel sendEmail self st a
                      Ha Hkey).
           eexists _, st. split; [reflexivity|]. split; [apply grows_refl|].
           split; reflexivity.
        -- destruct (award_fresh X email fuel sendEmail self st a
                       Hvalid Ha Hkey)
             as (out & st' & Haward & Hg & Hin & _).
           { pose proof (pending_le_badges st email). lia. }
           exists out, st'. auto.
      * rewrite award_S, saveInstance_new, Hfound, Hmade.
        cbn [truthy]. rewrite Hpass.
        eexists _, st. split; [reflexivity|]. split; [apply grows_refl|].
        split; reflexivity.
  - rewrite award_S, saveInstance_new, Hfound.
    eexists _, st. split; [reflexivity|]. split; [apply grows_refl|].
    split; reflexivity.
Qed.

Lemma award_always_ends_witness :
  (exists out st',
     award Stub.externals 4 (AwardOptions.ofString "nobody") Aligned.A
       Aligned.store
     = Some (out, st')
     /\ out = Calls (CbError validationError) /\ st' = Aligned.store)
  /\ exists out st',
       award Stub.externals 4 (AwardOptions.ofString Scenario.U) Scenario.A
         Scenario.store
       = Some (out, st')
       /\ out = Throws TypeError /\ st' = Scenario.store.
Proof.
  split.
  - destruct (award_always_ends Stub.externals "nobody" false Aligned.A
                Aligned.store 4)
      as (out & st' & Haward & _ & Hout).
    + simpl. lia.
    + exists out, st'. split; [exact Haward|]. exact Hout.
  - destruct (award_always_ends Stub.externals Scenario.U false Scenario.A
                Scenario.store 4)
      as (out & st' & Haward & _ & Hout).
    + simpl. lia.
    + exists out, st'. split; [exact Haward|]. exact Hout.
Defined.

(** ** [awardOrFind] *)

Lemma findOneByKey_hasKey (st : State) (key : string) :
  hasKey st (Some key) = true ->
  exists i, findOneByKey st key = Some i
            /\ In i (instanceDocs st)
            /\ userBadgeKey i = Some key.
Proof.
  unfold hasKey, findOneByKey. intros Hkey.
  destruct (List.find _ (instanceDocs st)) as [i|] eqn:Hfind.
  - apply List.find_some in Hfind as [Hin Hi].
    apply optStringEqb_eq in Hi. eauto.
  - apply existsb_exists in Hkey as (i & Hin & Hi).
    apply (List.find_none _ _ Hfind) in Hin. simpl in Hin. congruence.
Qed.

(** X18. [awardOrFind] calls back only when [award] hands over no
    instance.  When no badge has the [_id] of the badge as its
    [shortname], the [TypeError] of the hook escapes and the callback is
    never called.  Otherwise, with an assertion made and accepted: when
    the validators refuse the address, and when the user holds the badge,
    the callback is called, without an error, with what [findOne] finds
    under the address as given, a full stop and the [_id]; for an address
    without white space at its ends and a badge the user holds, that is
    the user's instance.  After a fresh award the instance is in the
    store, and for a badge that contributes to no category the callback
    is never called. *)
Theorem awardOrFind_cases (X : Externals) (email : string) (self : Badge)
    (st : State) (fuel : nat) :
  (length (badgeDocs st) + 2 <= fuel)%nat ->
  (findOneByShortname st (_id self) = None ->
   awardOrFind X fuel email self st = Some (Escaped TypeError, st))
  /\ forall a,
       assertable X st email (_id self) a ->
       (validUser (trim email) = false ->
        awardOrFind X fuel email self st
        = Some (CalledWith (findOneByKey st (email ++ "." ++ _id self)), st))
       /\ (validUser (trim email) = true ->
           hasKey st (keyFor email (_id self)) = true ->
           awardOrFind X fuel email self st
           = Some (CalledWith (findOneByKey st (email ++ "." ++ _id self)),
                   st)
           /\ (trim email = email ->
               exists i, findOneByKey st (email ++ "." ++ _id self) = Some i
                         /\ In i (instanceDocs st)
                         /\ userBadgeKey i = keyFor email (_id self)))
       /\ (validUser (trim email) = true ->
           hasKey st (keyFor email (_id self)) = false ->
           exists called st',
             awardOrFind X fuel email self st = Some (called, st')
             /\ In (awarded X email (_id self) a) (instanceDocs st')
             /\ (checkForCategoryBadges self = false ->
                 called = NeverCalled
                 /\ st' = afterSave (awarded X email (_id self) a) false st)).
Proof.
  intros Hfuel. destruct fuel as [|fuel]; [lia|].
  split.
  - intros Hnone. unfold awardOrFind.
    rewrite award_throws by exact Hnone. reflexivity.
  - intros a Ha. split; [|split].
    + intros Hvalid. unfold awardOrFind, AwardOptions.ofString.
      destruct Ha as (found & Hfound & Hmade & _).
      rewrite award_S, saveInstance_new, Hfound, Hmade, Hvalid.
      reflexivity.
    + intros Hvalid Hheld. split.
      * unfold awardOrFind, AwardOptions.ofString.
        rewrite (award_held X email Hvalid fuel false self st a Ha Hheld).
        reflexivity.
      * intros Htrim. unfold keyFor in *. rewrite Htrim in *.
        now apply findOneByKey_hasKey.
    + intros Hvalid Hfresh.
      destruct (award_fresh X email fuel false self st a Hvalid Ha Hfresh)
        as (out & st' & Haward & _ & Hin & Hplain).
      { pose proof (pending_le_badges st email). lia. }
      unfold awardOrFind, AwardOptions.ofString. rewrite Haward.
      destruct (checkForCategoryBadges self).
      * destruct out as [cb|e]; [destruct (truthyValue (instanceArgument cb))|];
          eexists _, st'; (split; [reflexivity|]; split; [exact Hin|]);
          discriminate.
      * destruct (Hplain eq_refl) as [-> ->].
        eexists _, _. split; [reflexivity|]. split; [exact Hin|].
        intros _. split; reflexivity.
Qed.

Lemma awardOrFind_cases_witness :
  awardOrFind Stub.externals 4 Scenario.U Scenario.A Scenario.store
  = Some (Escaped TypeError, Scenario.store)
  /\ awardOrFind Stub.externals 5 Scenario.U Held.B Held.store
     = Some (CalledWith (Some Held.instanceOfB), Held.store)
  /\ exists st',
       awardOrFind Stub.externals 4 Scenario.U Aligned.B Aligned.store
       = Some (NeverCalled, st').
Proof.
  split; [|split].
  - apply (proj1 (awardOrFind_cases Stub.externals Scenario.U Scenario.A
                    Scenario.store 4 ltac:(simpl; lia))).
    reflexivity.
  - refine (eq_trans
              (proj1 (proj1 (proj2 (proj2
                 (awardOrFind_cases Stub.externals Scenario.U Held.B
                    Held.store 5 ltac:(simpl; lia))
                 "id-b for u@example.org" _)) _ _)) _).
    + exists Held.D. repeat split; discriminate.
    + vm_compute. reflexivity.
    + reflexivity.
    + reflexivity.
  - assert (assertable Stub.externals Aligned.store Scenario.U
              (_id Aligned.B) "x-master for u@example.org") as Ha
      by (exists Aligned.B; repeat split; discriminate).
    destruct (proj2 (proj2 (proj2
                (awardOrFind_cases Stub.externals Scenario.U Aligned.B
                   Aligned.store 4 ltac:(simpl; lia))
                "x-master for u@example.org" Ha))
                ltac:(vm_compute; reflexivity) eq_refl)
      as (called & st' & Hrun & _ & Hplain).
    destruct (Hplain eq_refl) as [-> _]. exists st'. exact Hrun.
Defined.

(** ** A capstone the user holds *)

(** X19. The cascade looks for the capstone under the wrong key.
    [filterByOwned] asks [userHasBadge] for the address and the
    capstone's [shortname], while [award] files instances under the
    address and the [_id].  So a capstone the user already holds is
    handed to [awardBadges] again; where the hook of its save passes,
    the award finds the key taken and calls back with nothing, and the
    contributor's callback gets an array with [undefined] at its place.
    Nothing but the contributor's own instance is saved. *)
Theorem award_cascade_held (X : Externals) (email category a : string)
    (sendEmail : bool) (self : Badge) (st : State) (fuel : nat) :
  validUser (trim email) = true ->
  assertable X st email (_id self) a ->
  checkForCategoryBadges self = true ->
  categories self = [category] ->
  hasKey st (keyFor email (_id self)) = false ->
  let st1 := afterSave (awarded X email (_id self) a) sendEmail st in
  Forall (fun B => hasKey st (keyFor email (_id B)) = true
                   /\ exists b, assertable X st email (_id B) b)
    (cascadeTargets st1 email category) ->
  let held :=
    List.map (fun _ : Badge => VUndefined)
      (cascadeTargets st1 email category) in
  award X (S (S fuel)) {| AwardOptions.user := email;
                          AwardOptions.sendEmail := sendEmail |} self st
  = Some (Calls (CbResult (VArray held) held), st1).
Proof.
  intros Hvalid Ha Hcheck Hcategories Hfresh st1 Hheld held.
  rewrite (award_contributor X email Hvalid (S fuel) sendEmail self st a
             Ha Hfresh Hcheck).
  fold st1. rewrite Hcategories, concatSeries_cons.
  assert (grows st st1) as Hg by (apply afterSave_grows; exact Hfresh).
  rewrite (asyncMap_held X email Hvalid fuel _ st1).
  - cbn [concatSeries]. rewrite app_nil_r. reflexivity.
  - eapply Forall_impl; [exact Hheld|]. intros B [HB [b Hb]]. split.
    + apply (grows_hasKey st); [exact Hg|exact HB].
    + exists b. apply (assertable_grows X st); [exact Hg|exact Hb].
Qed.

Lemma award_cascade_held_witness :
  award Stub.externals 2 (AwardOptions.ofString Scenario.U) Aligned.A
    Held.store
  = Some (Calls (CbResult (VArray [VUndefined]) [VUndefined]),
          insertInstance Held.store Aligned.instanceOfA)
  /\ hasKey Held.store (keyFor Scenario.U (_id Held.B)) = true.
Proof.
  split; [|reflexivity].
  refine (eq_trans
            (award_cascade_held Stub.externals Scenario.U "X"
               "first-steps for u@example.org" false Aligned.A Held.store 0
               _ _ _ _ _ _) _).
  - vm_compute. reflexivity.
  - exists Aligned.A. repeat split; discriminate.
  - reflexivity.
  - reflexivity.
  - reflexivity.
  - change (cascadeTargets
              (afterSave
                 (awarded Stub.externals Scenario.U (_id Aligned.A)
                    "first-steps for u@example.org") false Held.store)
              Scenario.U "X") with [Held.B].
    constructor; [|constructor]. split; [reflexivity|].
    exists "id-b for u@example.org". exists Held.D.
    repeat split; discriminate.
  - reflexivity.
Defined.

(** ** The instances of a user *)

Lemma hasKey_keys (s s' : State) :
  List.map userBadgeKey (instanceDocs s') = List.map userBadgeKey (instanceDocs s) ->
  forall key, hasKey s' key = hasKey s key.
Proof.
  intros Hkeys key.
  destruct (hasKey s key) eqn:Hs.
  - apply hasKey_true. rewrite Hkeys. now apply hasKey_true.
  - apply hasKey_false. rewrite Hkeys. now apply hasKey_false.
Qed.

Lemma markAllAsSeen_keys (st : State) (email : string) :
  List.map userBadgeKey (instanceDocs (markAllAsSeen st email))
  = List.map userBadgeKey (instanceDocs st).
Proof.
  unfold markAllAsSeen. simpl. rewrite List.map_map.
  apply List.map_ext. intros i.
  destruct (String.eqb (user i) email); reflexivity.
Qed.

(** X20. [markAllAsSeen] marks every instance of the user and nothing
    else: afterwards all the user's instances are seen, the instances
    of other users are as they were, and since no key changes every
    user holds what they held.  Marking again changes nothing. *)
Theorem markAllAsSeen_effect (st : State) (email : string) :
  let st' := markAllAsSeen st email in
  (forall i, In i (instanceDocs st') -> user i = email -> seen i = true)
  /\ (forall i, user i <> email ->
                In i (instanceDocs st') <-> In i (instanceDocs st))
  /\ length (instanceDocs st') = length (instanceDocs st)
  /\ (forall key, hasKey st' key = hasKey st key)
  /\ (keysUnique st -> keysUnique st')
  /\ badgeDocs st' = badgeDocs st
  /\ markAllAsSeen st' email = st'.
Proof.
  intros st'. subst st'. split; [|split; [|split; [|split; [|split; [|split]]]]].
  - unfold markAllAsSeen. simpl. intros i Hin Huser.
    apply in_map_iff in Hin as (j & Hj & _).
    destruct (String.eqb_spec (user j) email) as [_|Hne].
    + now subst i.
    + subst i. contradiction.
  - unfold markAllAsSeen. simpl. intros i Huser. rewrite in_map_iff. split.
    + intros (j & Hj & Hin).
      destruct (String.eqb_spec (user j) email) as [He|_].
      * subst i. simpl in Huser. contradiction.
      * now subst i.
    + intros Hin. exists i. split; [|exact Hin].
      apply String.eqb_neq in Huser. now rewrite Huser.
  - unfold markAllAsSeen. simpl. apply List.length_map.
  - apply hasKey_keys, markAllAsSeen_keys.
  - unfold keysUnique. now rewrite markAllAsSeen_keys.
  - reflexivity.
  - unfold markAllAsSeen. simpl. unfold setInstanceDocs. simpl. f_equal.
    rewrite List.map_map. apply List.map_ext. intros i.
    destruct (String.eqb (user i) email) eqn:Hi; simpl; now rewrite Hi.
Qed.

Lemma NoDup_map_filter {A B : Type} (f : A -> B) (p : A -> bool) (l : list A) :
  List.NoDup (List.map f l) -> List.NoDup (List.map f (List.filter p l)).
Proof.
  induction l as [|x l IH]; simpl; [auto|].
  intros Hnd. inversion Hnd as [|? ? Hnot Hnd']; subst.
  destruct (p x); simpl; [|auto].
  constructor; [|auto].
  intros Hin. apply Hnot. apply in_map_iff in Hin as (y & Hy & Hin).
  apply filter_In in Hin as [Hin _]. apply in_map_iff. eauto.
Qed.

Lemma filter_split_length {A : Type} (p : A -> bool) (l : list A) :
  (length (List.filter p l) + length (List.filter (fun x => negb (p x)) l)
   = length l)%nat.
Proof.
  induction l as [|x l IH]; simpl; [reflexivity|].
  destruct (p x); simpl; lia.
Qed.

(** X21. [deleteAllByUser] hands over exactly the instances of the
    user and removes exactly those: what stays is every instance of the
    other users, none is lost or added, and the badges are not
    touched. *)
Theorem deleteAllByUser_effect (st : State) (email : string) :
  let removed := fst (deleteAllByUser st email) in
  let st' := snd (deleteAllByUser st email) in
  (forall i, In i removed <-> In i (instanceDocs st) /\ user i = email)
  /\ (forall i, In i (instanceDocs st')
                <-> In i (instanceDocs st) /\ user i <> email)
  /\ (length removed + length (instanceDocs st')
      = length (instanceDocs st))%nat
  /\ (keysUnique st -> keysUnique st')
  /\ badgeDocs st' = badgeDocs st.
Proof.
  intros removed st'. subst removed st'. unfold deleteAllByUser. simpl.
  split; [|split; [|split; [|split]]].
  - intros i. rewrite filter_In, String.eqb_eq. reflexivity.
  - intros i. rewrite filter_In, negb_true_iff, String.eqb_neq. reflexivity.
  - apply filter_split_length.
  - unfold keysUnique. simpl. apply NoDup_map_filter.
  - reflexivity.
Qed.

Lemma dotless_append (u b : string) : dotless (u ++ "." ++ b) = false.
Proof.
  induction u as [|a u IH]; simpl; [reflexivity|].
  rewrite IH. apply andb_false_r.
Qed.

Lemma key_split (u1 u2 b1 b2 : string) :
  dotless b1 = true -> dotless b2 = true ->
  u1 ++ "." ++ b1 = u2 ++ "." ++ b2 -> u1 = u2 /\ b1 = b2.
Proof.
  intros H1 H2. revert u2.
  induction u1 as [|a u1 IH]; intros [|a2 u2] Heq; cbn in Heq.
  - injection Heq as Hb. auto.
  - injection Heq as _ Hb. change ("" ++ b1) with b1 in Hb.
    rewrite Hb, dotless_append in H1. discriminate.
  - injection Heq as _ Hb. change ("" ++ b2) with b2 in Hb.
    rewrite <- Hb, dotless_append in H2. discriminate.
  - injection Heq as Ha Hb. destruct (IH u2 Hb) as [-> ->]. now subst a2.
Qed.

(** X22. Deleting and awarding again.  In a store whose instances are
    filed under their own user and badge, [deleteAllByUser] frees every
    key of the user, so an award to that user is fresh again: where the
    hook and the validators of the save pass, it saves the instance, and
    for a badge that contributes to no category it hands the instance to
    the callback. *)
Theorem award_after_delete (X : Externals) (email a : string)
    (sendEmail : bool) (self : Badge) (st : State) (fuel : nat) :
  validUser (trim email) = true ->
  trim email = email ->
  wellKeyed st ->
  dotless (_id self) = true ->
  assertable X st email (_id self) a ->
  (length (badgeDocs st) + 2 <= fuel)%nat ->
  let st1 := snd (deleteAllByUser st email) in
  hasKey st1 (keyFor email (_id self)) = false
  /\ exists out st2,
       award X fuel {| AwardOptions.user := email;
                       AwardOptions.sendEmail := sendEmail |} self st1
       = Some (out, st2)
       /\ In (awarded X email (_id self) a) (instanceDocs st2)
       /\ (checkForCategoryBadges self = false ->
           out = Calls (CbResult (VInstance (awarded X email (_id self) a))
                          [])).
Proof.
  intros Hvalid Htrim Hkeyed Hid Ha Hfuel st1.
  assert (hasKey st1 (keyFor email (_id self)) = false) as Hfree.
  { apply hasKey_false. subst st1. unfold deleteAllByUser. simpl.
    intros Hin. apply in_map_iff in Hin as (i & Hkey & Hin).
    apply filter_In in Hin as [Hin Huser].
    apply negb_true_iff, String.eqb_neq in Huser.
    unfold wellKeyed in Hkeyed. rewrite List.Forall_forall in Hkeyed.
    destruct (Hkeyed i Hin) as [Hi Hbadge].
    unfold keyFor in Hkey. rewrite Htrim, Hi in Hkey.
    injection Hkey as Hkey.
    destruct (key_split _ _ _ _ Hbadge Hid Hkey) as [Hu _]. contradiction. }
  split; [exact Hfree|].
  destruct fuel as [|fuel]; [lia|].
  assert (assertable X st1 email (_id self) a) as Ha1 by exact Ha.
  destruct (award_fresh X email fuel sendEmail self st1 a Hvalid Ha1 Hfree)
    as (out & st2 & Haward & _ & Hin & Hplain).
  { pose proof (pending_le_badges st1 email) as Hle.
    change (badgeDocs st1) with (badgeDocs st) in Hle. lia. }
  exists out, st2. split; [exact Haward|]. split; [exact Hin|].
  intros Hcheck. now destruct (Hplain Hcheck).
Qed.

Lemma award_after_delete_witness :
  hasKey (snd (deleteAllByUser Held.store Scenario.U))
    (keyFor Scenario.U "id-b") = false
  /\ exists out st2,
       award Stub.externals 5 (AwardOptions.ofString Scenario.U) Held.B
         (snd (deleteAllByUser Held.store Scenario.U))
       = Some (out, st2)
       /\ In Held.instanceOfB (instanceDocs st2)
       /\ (checkForCategoryBadges Held.B = false ->
           out = Calls (CbResult (VInstance Held.instanceOfB) [])).
Proof.
  apply (award_after_delete Stub.externals Scenario.U
           "id-b for u@example.org" false Held.B Held.store 5).
  - vm_compute. reflexivity.
  - reflexivity.
  - constructor; [split; reflexivity|constructor].
  - reflexivity.
  - exists Held.D. repeat split; discriminate.
  - simpl. lia.
Defined.

(** ** The date of issue *)

(** X23. [issuedOnUnix] gives the whole seconds of a date from the epoch
    up to 19 January 2038; from then on, and until 2106, the 32-bit
    conversion makes the result negative, 2^32 below the seconds. *)
Theorem issuedOnUnix_range (ms : Z) :
  (0 <= ms < 2147483648000 -> issuedOnUnix (Some ms) = ms / 1000)
  /\ (2147483648000 <= ms < 4294967296000 ->
      issuedOnUnix (Some ms) = ms / 1000 - 4294967296
      /\ issuedOnUnix (Some ms) < 0).
Proof.
  unfold issuedOnUnix, toInt32. split.
  - intros Hms. rewrite Z.quot_div_nonneg by lia.
    assert (0 <= ms / 1000 < 2147483648) as Hq.
    { split; [apply Z.div_pos; lia|apply Z.div_lt_upper_bound; lia]. }
    rewrite Z.mod_small by lia.
    destruct (Z.leb_spec 2147483648 (ms / 1000)); [lia|reflexivity].
  - intros Hms. rewrite Z.quot_div_nonneg by lia.
    assert (2147483648 <= ms / 1000 < 4294967296) as Hq.
    { split; [apply Z.div_le_lower_bound; lia
             |apply Z.div_lt_upper_bound; lia]. }
    rewrite Z.mod_small by lia.
    destruct (Z.leb_spec 2147483648 (ms / 1000)); lia.
Qed.

(** ** Behaviours and credit *)

Lemma gapStep_delete (credit : gmap string Z) (name : string)
    (bs : list Behavior) (r : gmap string Z) :
  fold_left (gapStep credit)
    (List.filter (fun b => negb (String.eqb (behaviorName b) name)) bs)
    (delete name r)
  = delete name (fold_left (gapStep credit) bs r).
Proof.
  revert r. induction bs as [|b bs IH]; intros r; simpl; [reflexivity|].
  destruct (String.eqb_spec (behaviorName b) name) as [Heq|Hne]; simpl.
  - rewrite <- IH. f_equal. unfold gapStep.
    destruct (creditOrZero credit (behaviorName b) <? count b);
      [|reflexivity].
    rewrite Heq. now rewrite delete_insert_eq.
  - rewrite <- IH. f_equal. unfold gapStep.
    destruct (creditOrZero credit (behaviorName b) <? count b);
      [|reflexivity].
    rewrite delete_insert_ne by congruence. reflexivity.
Qed.

(** X24. [removeBehavior] drops every behaviour of that name and no
    other, and nothing else of the badge changes.  What the user still
    needs for the badge is what they needed before without the entry of
    that behaviour; a user who could earn the badge still can; removing
    the behaviour again changes nothing. *)
Theorem removeBehavior_effect (self : Badge) (name : string)
    (credit : gmap string Z) :
  let self' := removeBehavior self name in
  (forall b, In b (behaviors self')
             <-> In b (behaviors self) /\ behaviorName b <> name)
  /\ creditsUntilAward self' credit
     = delete name (creditsUntilAward self credit)
  /\ (earnableBy self credit = true -> earnableBy self' credit = true)
  /\ removeBehavior self' name = self'
  /\ claimCodes self' = claimCodes self
  /\ _id self' = _id self.
Proof.
  intros self'. subst self'. unfold removeBehavior.
  split; [|split; [|split; [|split; [|split]]]].
  - intros b. simpl. rewrite filter_In, negb_true_iff, String.eqb_neq.
    reflexivity.
  - unfold creditsUntilAward. simpl.
    rewrite <- gapStep_delete. now rewrite delete_empty.
  - rewrite !earnableBy_true. simpl. intros Hall.
    rewrite List.Forall_forall in *. intros b Hb.
    apply filter_In in Hb as [Hb _]. auto.
  - unfold setBehaviors. simpl. f_equal.
    induction (behaviors self) as [|b bs IH]; simpl; [reflexivity|].
    destruct (negb (String.eqb (behaviorName b) name)) eqn:Hb; simpl.
    + rewrite Hb. now rewrite IH.
    + exact IH.
  - reflexivity.
  - reflexivity.
Qed.

Lemma gapStep_fold_lookup (credit : gmap string Z) (bs : list Behavior)
    (r : gmap string Z) (name : string) (v : Z) :
  fold_left (gapStep credit) bs r !! name = Some v ->
  r !! name = Some v
  \/ (0 < v
      /\ exists b, In b bs /\ behaviorName b = name
                   /\ v = count b - creditOrZero credit name).
Proof.
  revert r. induction bs as [|b bs IH]; intros r; simpl; [auto|].
  intros Hlook. apply IH in Hlook as [Hlook|(Hpos & b' & Hin & Hrest)].
  - unfold gapStep in Hlook.
    destruct (Z.ltb_spec (creditOrZero credit (behaviorName b)) (count b))
      as [Hlt|_]; [|auto].
    apply lookup_insert_Some in Hlook as [[Hname Hv]|[_ Hlook]]; [|auto].
    right. subst v name. split; [lia|].
    exists b. split; [left; reflexivity|]. auto.
  - right. split; [exact Hpos|]. exists b'. split; [right; exact Hin|].
    exact Hrest.
Qed.

Lemma gapStep_fold_keeps (credit : gmap string Z) (bs : list Behavior)
    (r : gmap string Z) (name : string) :
  is_Some (r !! name) -> is_Some (fold_left (gapStep credit) bs r !! name).
Proof.
  revert r. induction bs as [|b bs IH]; intros r Hr; simpl; [exact Hr|].
  apply IH. unfold gapStep.
  destruct (creditOrZero credit (behaviorName b) <? count b); [|exact Hr].
  apply lookup_insert_is_Some'. auto.
Qed.

(** X25. What [creditsUntilAward] reports.  Every entry is a positive
    number of credits: what a behaviour of that name asks for beyond
    the user's credit.  Every behaviour the user has too little credit
    for has an entry.  A user for whom [earnableBy] says yes is reported
    to need nothing. *)
Theorem creditsUntilAward_sound (self : Badge) (credit : gmap string Z) :
  (forall name v,
     creditsUntilAward self credit !! name = Some v ->
     0 < v
     /\ exists b, In b (behaviors self) /\ behaviorName b = name
                  /\ v = count b - creditOrZero credit name)
  /\ (forall b, In b (behaviors self) ->
                creditOrZero credit (behaviorName b) < count b ->
                is_Some (creditsUntilAward self credit !! behaviorName b))
  /\ (earnableBy self credit = true -> creditsUntilAward self credit = ∅).
Proof.
  split; [|split].
  - intros name v Hlook. unfold creditsUntilAward in Hlook.
    apply gapStep_fold_lookup in Hlook as [Hlook|Hlook]; [|exact Hlook].
    rewrite lookup_empty in Hlook. discriminate.
  - unfold creditsUntilAward. generalize (∅ : gmap string Z).
    induction (behaviors self) as [|b0 bs IH]; intros r b Hin Hlt;
      [destruct Hin|].
    simpl. destruct Hin as [->|Hin]; [|now apply IH].
    apply gapStep_fold_keeps. unfold gapStep.
    apply Z.ltb_lt in Hlt. rewrite Hlt.
    rewrite lookup_insert_eq. eauto.
  - rewrite earnableBy_true, creditsUntilAward_empty.
    intros Hall. eapply Forall_impl; [exact Hall|].
    intros b (c & Hc & Hle). unfold creditOrZero. rewrite Hc.
    destruct (Z.eqb_spec c 0); lia.
Qed.

(** ** The dictionary of the badges *)

Lemma find_app_first {A : Type} (p : A -> bool) (l1 l2 : list A) :
  List.find p (l1 ++ l2)
  = match List.find p l1 with
    | Some a => Some a
    | None => List.find p l2
    end.
Proof.
  induction l1 as [|x l1 IH]; simpl; [reflexivity|].
  destruct (p x); [reflexivity|exact IH].
Qed.

Lemma getAll_fold (l : list Badge) (m : gmap string Badge) (name : string) :
  fold_left (fun result b => <[shortname b := b]> result) l m !! name
  = match List.find (fun b => String.eqb (shortname b) name) (rev l) with
    | Some b => Some b
    | None => m !! name
    end.
Proof.
  revert m. induction l as [|x l IH]; intros m; simpl; [reflexivity|].
  rewrite IH, find_app_first.
  destruct (List.find _ (rev l)); [reflexivity|]. simpl.
  destruct (String.eqb_spec (shortname x) name) as [Heq|Hne].
  - rewrite <- Heq. apply lookup_insert_eq.
  - now apply lookup_insert_ne.
Qed.

Lemma find_unique {A B : Type} (f : A -> B) (eqb : B -> B -> bool)
    (l : list A) (a : A) :
  (forall x y, eqb x y = true <-> x = y) ->
  List.NoDup (List.map f l) -> In a l ->
  List.find (fun x => eqb (f x) (f a)) l = Some a.
Proof.
  intros Heqb. induction l as [|x l IH]; simpl; [intros _ []|].
  intros Hnd Hin. inversion Hnd as [|? ? Hnot Hnd']; subst.
  destruct (eqb (f x) (f a)) eqn:Hx.
  - apply Heqb in Hx. destruct Hin as [->|Hin]; [reflexivity|].
    exfalso. apply Hnot. rewrite Hx. now apply in_map.
  - destruct Hin as [->|Hin]; [|auto].
    assert (eqb (f a) (f a) = true) by now apply Heqb. congruence.
Qed.

(** X26. [getAll] files every stored badge under its [shortname]; of
    several badges with one shortname the last one found wins.  Every
    entry of the dictionary is a stored badge under its own name, and
    when the shortnames are unique every stored badge is in it. *)
Theorem getAll_lookup (st : State) :
  (forall name,
     getAll st !! name
     = List.find (fun b => String.eqb (shortname b) name)
         (rev (badgeDocs st)))
  /\ (forall name b, getAll st !! name = Some b ->
                     In b (badgeDocs st) /\ shortname b = name)
  /\ (List.NoDup (List.map shortname (badgeDocs st)) ->
      forall b, In b (badgeDocs st) -> getAll st !! shortname b = Some b).
Proof.
  assert (forall name,
            getAll st !! name
            = List.find (fun b => String.eqb (shortname b) name)
                (rev (badgeDocs st))) as Hlookup.
  { intros name. unfold getAll. rewrite getAll_fold.
    destruct (List.find _ _); [reflexivity|apply lookup_empty]. }
  split; [exact Hlookup|]. split.
  - intros name b Hb. rewrite Hlookup in Hb.
    apply List.find_some in Hb as [Hin Hname].
    apply in_rev in Hin. apply String.eqb_eq in Hname. auto.
  - intros Hnd b Hin. rewrite Hlookup.
    apply (find_unique shortname String.eqb).
    + intros x y. apply String.eqb_eq.
    + rewrite List.map_rev. apply List.NoDup_rev. exact Hnd.
    + apply -> in_rev. exact Hin.
Qed.

(** ** The phrase generator *)

Lemma phrasesInv_start (count : Z) : phrasesInv count ∅ [] 0.
Proof.
  split; [reflexivity|]. split; [lia|]. split; [constructor|].
  intros w. rewrite lookup_empty. simpl. split; [discriminate|tauto].
Qed.

Lemma phrasesInv_push (count : Z) (matches : gmap string Z)
    (results : list string) (len : Z) (word : string) :
  phrasesInv count matches results len ->
  len < count ->
  truthyNumber (matches !! word) = false ->
  phrasesInv count
    (<[word := Z.of_nat (length (results ++ [word]))]> matches)
    (results ++ [word]) (len + 1).
Proof.
  intros (Hlen & Hmax & Hnd & Hmatches) Hlt Hword.
  split; [|split; [|split]].
  - rewrite length_app. simpl. lia.
  - lia.
  - apply List.NoDup_app; [exact Hnd|repeat constructor; intros []|].
    intros w Hw [<-|[]]. apply Hmatches in Hw. congruence.
  - intros w. rewrite in_app_iff.
    destruct (String.eqb_spec word w) as [<-|Hne].
    + rewrite lookup_insert_eq. simpl. split; [intros _; right; now left|].
      intros _. rewrite length_app. simpl.
      destruct (Z.eqb_spec (Z.of_nat (length results + 1)) 0); [lia|].
      reflexivity.
    + rewrite lookup_insert_ne by exact Hne. rewrite Hmatches.
      split; [auto|]. intros [H|[H|[]]]; [exact H|contradiction].
Qed.

Lemma phrasesLoop_result {G : Type}
    (random : G -> (string * string * string) * G) (count : Z) (fuel : nat) :
  forall g matches results len out g',
    phrasesInv count matches results len ->
    phrasesLoop fuel random count g matches results len = Some (out, g') ->
    List.NoDup out /\ Z.of_nat (length out) = Z.max 0 count.
Proof.
  induction fuel as [|fuel IH]; intros g matches results len out g' Hinv;
    [discriminate|].
  simpl. destruct (Z.ltb_spec len count) as [Hlt|Hge].
  - destruct (random g) as [w g1].
    destruct (truthyNumber (matches !! joinWords w)) eqn:Hword; simpl.
    + apply IH. exact Hinv.
    + apply IH. now apply phrasesInv_push.
  - intros [= <- <-]. destruct Hinv as (Hlen & Hmax & Hnd & _).
    split; [exact Hnd|]. lia.
Qed.

Lemma phrasesLoop_S {G : Type} (fuel : nat)
    (random : G -> (string * string * string) * G) (count : Z) (g : G)
    (matches : gmap string Z) (results : list string) (len : Z) :
  phrasesLoop (S fuel) random count g matches results len
  = if len <? count then
      if negb (truthyNumber (matches !! joinWords (fst (random g)))) then
        phrasesLoop fuel random count (snd (random g))
          (<[joinWords (fst (random g))
             := Z.of_nat (length (results ++ [joinWords (fst (random g))]))]>
             matches)
          (results ++ [joinWords (fst (random g))])%list (len + 1)
      else phrasesLoop fuel random count (snd (random g)) matches results len
    else Some (results, g).
Proof.
  simpl. destruct (len <? count); [|reflexivity].
  destruct (random g) as [w g1]. reflexivity.
Qed.

Lemma phrasesLoop_fresh {G : Type}
    (random : G -> (string * string * string) * G) (k : nat) :
  forall g matches results len,
    phrasesInv (len + Z.of_nat k) matches results len ->
    List.NoDup (results ++ draws random g k) ->
    phrasesLoop (S k) random (len + Z.of_nat k) g matches results len
    = Some ((results ++ draws random g k)%list, drawn random g k).
Proof.
  induction k as [|k IH]; intros g matches results len Hinv Hnd.
  - simpl. rewrite Z.add_0_r, Z.ltb_irrefl, app_nil_r. reflexivity.
  - rewrite phrasesLoop_S. cbn [draws drawn]. cbn [draws] in Hnd.
    destruct (Z.ltb_spec len (len + Z.of_nat (S k))) as [Hlt|Hge]; [|lia].
    set (word := joinWords (fst (random g))) in *.
    assert (~ In word results) as Hfresh.
    { intros Hin. apply (List.NoDup_remove_2 _ _ _ Hnd).
      rewrite in_app_iff. left. exact Hin. }
    assert (truthyNumber (matches !! word) = false) as Hword.
    { destruct (truthyNumber (matches !! word)) eqn:Hw; [|reflexivity].
      apply Hinv in Hw. contradiction. }
    rewrite Hword. cbn [negb].
    replace (len + Z.of_nat (S k)) with (len + 1 + Z.of_nat k) in * by lia.
    rewrite IH.
    + rewrite <- app_assoc. reflexivity.
    + apply phrasesInv_push; [exact Hinv|lia|exact Hword].
    + rewrite <- app_assoc. exact Hnd.
Qed.

(** X27. The phrase generator.  Whenever [phrases(count)] returns, it
    returns that many phrases, no two of them equal (none for a count of
    zero or less).  It returns as soon as the draws have given [count]
    different phrases: from a source whose first [n] draws differ it
    returns just these, after [n] draws. *)
Theorem phrases_distinct {G : Type}
    (random : G -> (string * string * string) * G) :
  (forall fuel count g results g',
     phrases fuel random count g = Some (results, g') ->
     List.NoDup results /\ Z.of_nat (length results) = Z.max 0 count)
  /\ (forall n g,
        List.NoDup (draws random g n) ->
        phrases (S n) random (Z.of_nat n) g
        = Some (draws random g n, drawn random g n)).
Proof.
  split.
  - intros fuel count g results g'. unfold phrases.
    apply phrasesLoop_result, phrasesInv_start.
  - intros n g Hnd. unfold phrases.
    apply (phrasesLoop_fresh random n g ∅ [] 0).
    + apply phrasesInv_start.
    + exact Hnd.
Qed.

Lemma phrases_distinct_witness :
  phrases 3 (fun g : nat => (("very", "odd", Counting.letters g), S g)) 2 0%nat
  = Some (["very-odd-"; "very-odd-a"], 2%nat).
Proof.
  apply (proj2 (phrases_distinct
                  (fun g : nat => (("very", "odd", Counting.letters g), S g)))
           2%nat 0%nat).
  constructor; [intros [H|[]]; discriminate H|].
  constructor; [intros []|constructor].
Defined.

(** ** Rubric items *)

Lemma rubricItemOf_bullet (line : string) :
  length (rubricItemOf line) = if isBullet line then 1%nat else 0%nat.
Proof.
  unfold rubricItemOf, isBullet.
  destruct (trim line) as [|a rest]; [reflexivity|].
  destruct (Ascii.eqb a "*"); reflexivity.
Qed.

Lemma rubricItems_length (lines : list string) :
  length (flat_map rubricItemOf lines) = length (List.filter isBullet lines).
Proof.
  induction lines as [|line lines IH]; [reflexivity|].
  cbn [flat_map List.filter]. rewrite length_app, rubricItemOf_bullet, IH.
  destruct (isBullet line); reflexivity.
Qed.

(** X28. [parseRubricItems] never returns an empty list.  It returns
    one item for every line that is a bullet, in the order of the
    lines, each with its text trimmed; for a content without a bullet
    it returns the one required item that quotes the content.
    [getRubricItems] is empty exactly for a badge without criteria
    content. *)
Theorem parseRubricItems_items (content : string) :
  let bullets := List.filter isBullet (split newline content) in
  length (parseRubricItems content) = Nat.max 1 (length bullets)
  /\ (bullets = [] -> parseRubricItems content = [fallbackItem content])
  /\ (bullets <> [] ->
      Forall (fun item => trim (text item) = text item)
        (parseRubricItems content))
  /\ (forall c, getRubricItems c = [] <-> truthy c = false).
Proof.
  intros bullets. unfold parseRubricItems.
  pose proof (rubricItems_length (split newline content)) as Hlen.
  fold bullets in Hlen.
  split; [|split; [|split]].
  - destruct (Nat.eqb_spec
                (length (flat_map rubricItemOf (split newline content))) 0)
      as [Hz|Hnz]; simpl; lia.
  - intros Hnone. rewrite Hnone in Hlen. simpl in Hlen.
    rewrite Hlen. reflexivity.
  - intros Hsome.
    destruct (Nat.eqb_spec
                (length (flat_map rubricItemOf (split newline content))) 0)
      as [Hz|_].
    + destruct bullets; [congruence|simpl in Hlen; lia].
    + apply List.Forall_forall. intros item Hin.
      apply in_flat_map in Hin as (line & _ & Hin).
      unfold rubricItemOf in Hin.
      destruct (trim line) as [|a rest]; [destruct Hin|].
      destruct (Ascii.eqb a "*"); [|destruct Hin].
      destruct Hin as [<-|[]]. simpl. apply trim_idem.
  - intros c. unfold getRubricItems.
    destruct (truthy c) eqn:Hc; [|tauto].
    destruct c as [c|]; [|discriminate].
    split; [|discriminate]. unfold parseRubricItems.
    destruct (Nat.eqb_spec
                (length (flat_map rubricItemOf (split newline c))) 0)
      as [_|Hnz]; [discriminate|].
    intros Hnil. rewrite Hnil in Hnz. simpl in Hnz. lia.
Qed.

(** ** Awards where the hook of the save passes *)

Lemma afterSave_instances (saved : BadgeInstance) (sendEmail : bool)
    (st : State) :
  instanceDocs (afterSave saved sendEmail st)
  = (instanceDocs st ++ [saved])%list
  /\ badgeDocs (afterSave saved sendEmail st) = badgeDocs st.
Proof. unfold afterSave. destruct sendEmail; split; reflexivity. Qed.

(** X29. Awarding twice where the hook of the save passes.  For a user
    with a valid address and a badge that some badge of the store names
    by its [shortname] and that yields an assertion, a first award to a
    user who does not hold the badge saves the instance, and any later
    award of the badge to the user finds the key taken: the duplicate-key
    error of the index is turned into a callback without error and
    without instance, and the store stays as it is.  With a unique index
    the store holds one instance under the key; for a badge that
    contributes to no category the first callback gets the instance, and
    the store has gained exactly that one instance of the user and the
    badge. *)
Theorem award_again (X : Externals) (email a : string)
    (sendEmail sendEmail' : bool) (self : Badge) (st : State)
    (fuel fuel' : nat) :
  validUser (trim email) = true ->
  assertable X st email (_id self) a ->
  hasKey st (keyFor email (_id self)) = false ->
  (length (badgeDocs st) + 2 <= fuel)%nat ->
  exists out st1,
    award X fuel {| AwardOptions.user := email;
                    AwardOptions.sendEmail := sendEmail |} self st
    = Some (out, st1)
    /\ In (awarded X email (_id self) a) (instanceDocs st1)
    /\ award X (S fuel') {| AwardOptions.user := email;
                            AwardOptions.sendEmail := sendEmail' |} self st1
       = Some (Calls CbNothing, st1)
    /\ (keysUnique st -> countKey st1 (keyFor email (_id self)) = 1%nat)
    /\ (checkForCategoryBadges self = false ->
        out = Calls (CbResult (VInstance (awarded X email (_id self) a)) [])
        /\ instanceDocs st1
           = (instanceDocs st ++ [awarded X email (_id self) a])%list
        /\ countPair st1 (trim email) (_id self)
           = S (countPair st (trim email) (_id self))).
Proof.
  intros Hvalid Ha Hfresh Hfuel. destruct fuel as [|fuel]; [lia|].
  destruct (award_fresh X email fuel sendEmail self st a Hvalid Ha Hfresh)
    as (out & st1 & Haward & Hg & Hin & Hplain).
  { pose proof (pending_le_badges st email). lia. }
  assert (hasKey st1 (keyFor email (_id self)) = true) as Hheld.
  { apply hasKey_true, in_map_iff.
    exists (awarded X email (_id self) a). split; [reflexivity|exact Hin]. }
  exists out, st1. split; [exact Haward|]. split; [exact Hin|].
  split; [|split].
  - apply (award_held X email Hvalid fuel' sendEmail' self st1 a);
      [|exact Hheld].
    apply (assertable_grows X st); assumption.
  - intros Hunique. apply countKey_one; [|exact Hheld].
    destruct Hg as (_ & _ & Hkeys & _). auto.
  - intros Hcheck. destruct (Hplain Hcheck) as [-> ->].
    split; [reflexivity|].
    destruct (afterSave_instances (awarded X email (_id self) a) sendEmail st)
      as [Hdocs _].
    split; [exact Hdocs|].
    unfold countPair. rewrite Hdocs, List.filter_app, length_app.
    cbn [List.filter awarded user badge]. rewrite !String.eqb_refl.
    simpl. lia.
Qed.

Lemma award_again_witness :
  exists st1,
    award Stub.externals 4 (AwardOptions.ofString Scenario.U) Aligned.B
      Aligned.store
    = Some (Calls (CbResult (VInstance Aligned.instanceOfB) []), st1)
    /\ award Stub.externals 1 (AwardOptions.ofString Scenario.U) Aligned.B st1
       = Some (Calls CbNothing, st1)
    /\ countPair st1 Scenario.U (_id Aligned.B) = 1%nat.
Proof.
  assert (assertable Stub.externals Aligned.store Scenario.U (_id Aligned.B)
            "x-master for u@example.org") as Ha
    by (exists Aligned.B; repeat split; discriminate).
  destruct (award_again Stub.externals Scenario.U "x-master for u@example.org"
              false false Aligned.B Aligned.store 4 0
              ltac:(vm_compute; reflexivity) Ha eq_refl ltac:(simpl; lia))
    as (out & st1 & Haward & _ & Hagain & _ & Hplain).
  destruct (Hplain eq_refl) as (-> & _ & Hcount).
  exists st1. split; [exact Haward|]. split; [exact Hagain|exact Hcount].
Defined.

(** ** The cascade where ids and shortnames agree *)

Lemma afterCascade_cons (won : Badge -> BadgeInstance) (B : Badge)
    (rest : list Badge) (st : State) :
  afterCascade won (B :: rest) st
  = afterCascade won rest (afterSave (won B) true st).
Proof. reflexivity. Qed.

Lemma afterCascade_docs (won : Badge -> BadgeInstance) (targets : list Badge) :
  forall st,
    instanceDocs (afterCascade won targets st)
    = (instanceDocs st ++ List.map won targets)%list
    /\ consoleLog (afterCascade won targets st)
       = (consoleLog st
          ++ List.map (fun _ => "WRITE SEND EMAIL CODE") targets)%list
    /\ badgeDocs (afterCascade won targets st) = badgeDocs st.
Proof.
  induction targets as [|B rest IH]; intros st.
  - simpl. now rewrite !app_nil_r.
  - rewrite afterCascade_cons.
    destruct (IH (afterSave (won B) true st)) as (-> & -> & ->).
    simpl. rewrite <- !app_assoc. auto.
Qed.

(** Awards of capstones the user does not hold, one after the other:
    each saves its instance and hands it over. *)
Lemma asyncMap_fresh (X : Externals) (email : string)
    (asrt : Badge -> string) (fuel : nat) (targets : list Badge) :
  validUser (trim email) = true ->
  List.NoDup (List.map _id targets) ->
  forall s,
    (forall B, In B targets ->
               checkForCategoryBadges B = false
               /\ assertable X s email (_id B) (asrt B)
               /\ hasKey s (keyFor email (_id B)) = false) ->
    asyncMap (award X (S fuel) (newOpts email)) targets s
    = Some (Results
              (List.map (fun B => VInstance (awarded X email (_id B) (asrt B)))
                 targets),
            afterCascade (fun B => awarded X email (_id B) (asrt B))
              targets s).
Proof.
  intros Hvalid. induction targets as [|B rest IH]; intros Hnd s Hall;
    [reflexivity|].
  inversion Hnd as [|? ? Hnot Hnd']; subst.
  destruct (Hall B (or_introl eq_refl)) as (Hplain & Ha & Hfresh).
  rewrite asyncMap_cons. unfold newOpts at 1.
  rewrite (award_plain X email Hvalid fuel true B s (asrt B) Ha Hfresh Hplain).
  rewrite afterCascade_cons.
  set (s1 := afterSave (awarded X email (_id B) (asrt B)) true s).
  assert (grows s s1) as Hg by (apply afterSave_grows; exact Hfresh).
  rewrite (IH Hnd' s1); [reflexivity|].
  intros B' HB'. destruct (Hall B' (or_intror HB')) as (Hplain' & Ha' & Hfresh').
  split; [exact Hplain'|]. split; [now apply (assertable_grows X s)|].
  apply hasKey_false. apply hasKey_false in Hfresh'.
  unfold s1.
  destruct (afterSave_instances (awarded X email (_id B) (asrt B)) true s)
    as [-> _].
  rewrite map_app, in_app_iff. intros [Hold|[Hnew|[]]]; [contradiction|].
  apply keyFor_inj in Hnew. apply Hnot. rewrite Hnew.
  now apply in_map.
Qed.

(** X30. The cascade where it can work.  In a store with unique ids in
    which the capstones of a category have their [_id] as [shortname]
    and yield assertions, a fresh award of a contributor of that one
    category to a user with a valid, trimmed address awards the
    capstones the waterfall selects: the callback receives their
    instances, in the order of the capstones; the store gains the
    contributor's instance and theirs and nothing else, and one e-mail
    line is written for each.  The capstones selected are those of the
    category whose requirement the user's score, the contributor
    counted, meets and of which the user holds no instance. *)
Theorem award_cascade_aligned (X : Externals) (email category a : string)
    (asrt : Badge -> string) (sendEmail : bool) (self : Badge) (st : State)
    (fuel : nat) :
  validUser (trim email) = true ->
  trim email = email ->
  category <> "" ->
  idsUnique st ->
  assertable X st email (_id self) a ->
  checkForCategoryBadges self = true ->
  categories self = [category] ->
  hasKey st (keyFor email (_id self)) = false ->
  (forall B, In B (badgeDocs st) -> categoryAward B = Some category ->
             shortname B = _id B /\ assertable X st email (_id B) (asrt B)) ->
  let st1 := afterSave (awarded X email (_id self) a) sendEmail st in
  let won := fun B => awarded X email (_id B) (asrt B) in
  let targets := cascadeTargets st1 email category in
  let instances := List.map (fun B => VInstance (won B)) targets in
  (forall B, In B targets
             <-> In B (badgeDocs st)
                 /\ categoryAward B = Some category
                 /\ categoryRequirement B <= categoryScore st1 email category
                 /\ hasKey st1 (keyFor email (_id B)) = false)
  /\ exists st',
       award X (S (S fuel)) {| AwardOptions.user := email;
                               AwardOptions.sendEmail := sendEmail |} self st
       = Some (Calls (CbResult (VArray instances) instances), st')
       /\ Permutation (instanceDocs st')
            (instanceDocs st
             ++ awarded X email (_id self) a :: List.map won targets)
       /\ consoleLog st'
          = (consoleLog st1
             ++ List.map (fun _ => "WRITE SEND EMAIL CODE") targets)%list
       /\ badgeDocs st' = badgeDocs st.
Proof.
  intros Hvalid Htrim Hcategory Hids Ha Hcheck Hcategories Hfresh Haligned
         st1 won targets instances.
  assert (grows st st1) as Hg by (apply afterSave_grows; exact Hfresh).
  assert (badgeDocs st1 = badgeDocs st) as Hbadges by (destruct Hg; auto).
  assert (forall B, In B targets
                    <-> In B (badgeDocs st)
                        /\ categoryAward B = Some category
                        /\ categoryRequirement B
                           <= categoryScore st1 email category
                        /\ hasKey st1 (keyFor email (_id B)) = false)
    as Hspec.
  { intros B. unfold targets. rewrite cascadeTargets_spec, Hbadges.
    unfold userHasBadge, keyFor. rewrite Htrim.
    split; intros (HB & Hcap & Hscore & Hkey);
      destruct (Haligned B HB Hcap) as [Hname _];
      (split; [exact HB|]; split; [exact Hcap|]; split; [exact Hscore|]).
    - now rewrite <- Hname.
    - now rewrite Hname. }
  split; [exact Hspec|].
  exists (afterCascade won targets st1). split; [|split; [|split]].
  - rewrite (award_contributor X email Hvalid (S fuel) sendEmail self st a
               Ha Hfresh Hcheck).
    fold st1. rewrite Hcategories, concatSeries_cons. fold targets.
    rewrite (asyncMap_fresh X email asrt fuel targets Hvalid).
    + cbn [concatSeries]. rewrite app_nil_r. reflexivity.
    + unfold targets, cascadeTargets, filterByOwned, filterByScore,
        getCategoryBadges, findByCategoryAward.
      rewrite Hbadges. do 3 apply NoDup_map_filter. exact Hids.
    + intros B HB. apply Hspec in HB as (HB & Hcap & _ & Hkey).
      destruct (Haligned B HB Hcap) as [_ HaB].
      split; [now apply (capstone_plain category)|].
      split; [now apply (assertable_grows X st)|exact Hkey].
  - destruct (afterCascade_docs won targets st1) as (-> & _ & _).
    destruct (afterSave_instances (awarded X email (_id self) a) sendEmail st)
      as [Hdocs _].
    fold st1 in Hdocs. rewrite Hdocs, <- app_assoc. reflexivity.
  - now destruct (afterCascade_docs won targets st1) as (_ & -> & _).
  - destruct (afterCascade_docs won targets st1) as (_ & _ & ->).
    exact Hbadges.
Qed.

Lemma award_cascade_aligned_witness :
  exists st',
    award Stub.externals 2 (AwardOptions.ofString Scenario.U) Aligned.A
      Aligned.store
    = Some (Calls (CbResult (VArray [VInstance Aligned.instanceOfB])
                     [VInstance Aligned.instanceOfB]), st')
    /\ Permutation (instanceDocs st')
         [Aligned.instanceOfA; Aligned.instanceOfB]
    /\ consoleLog st' = ["WRITE SEND EMAIL CODE"].
Proof.
  destruct (award_cascade_aligned Stub.externals Scenario.U "X"
              "first-steps for u@example.org"
              (fun B => shortname B ++ " for u@example.org")
              false Aligned.A Aligned.store 0)
    as (_ & st' & Haward & Hdocs & Hlog & _).
  - vm_compute. reflexivity.
  - reflexivity.
  - discriminate.
  - repeat constructor; simpl; intuition discriminate.
  - exists Aligned.A. repeat split; discriminate.
  - reflexivity.
  - reflexivity.
  - reflexivity.
  - intros B [<-|[<-|[]]]; [discriminate|]. intros _.
    split; [reflexivity|]. exists Aligned.B. repeat split; discriminate.
  - exists st'. split; [exact Haward|]. split; [exact Hdocs|exact Hlog].
Defined.
